(** * Puzzle-Solver: peg solitaire, sliding tiles and word ladder

    A shallow embedding of the three puzzle classes
    ([GridPegSolitairePuzzle], [MNPuzzle], [WordLadderPuzzle]) and the
    properties of their move generators and goal tests.

    Python lists and sets are mutable objects: they live in a store and
    are referred to by location, so that in-place assignment
    ([new_marker[i][j] = "*"]), [copy.deepcopy] and sharing of one object
    between several puzzles are all visible.  Strings and tuples are
    immutable and are plain values. *)

From Stdlib Require Import ZArith String Ascii Lia.
From stdpp Require Import base option list gmap sets strings relations.

Local Open Scope string_scope.
Local Open Scope list_scope.
Local Open Scope Z_scope.

(** ** Python sequences: [len], [range], indexing with negative indices *)

Module Py.

Section sequences.
Context {A : Type}.

Definition len (l : list A) : Z := Z.of_nat (length l).

(** An index [k] of a sequence of length [n] denotes position [k] when
    [0 <= k < n], position [n + k] when [-n <= k < 0], and is an
    [IndexError] otherwise. *)
Definition norm_index (l : list A) (k : Z) : option nat :=
  if bool_decide (0 ≤ k < len l) then Some (Z.to_nat k)
  else if bool_decide (- len l ≤ k < 0) then Some (Z.to_nat (len l + k))
  else None.

(** [l[k]] *)
Definition getitem (l : list A) (k : Z) : option A :=
  i ← norm_index l k; l !! i.

(** [l[k] = x], as the updated content of [l] *)
Definition setitem (l : list A) (k : Z) (x : A) : option (list A) :=
  i ← norm_index l k; Some (<[i:=x]> l).

(** [l[:k]] and [l[k:]] *)
Definition slice_start (l : list A) (k : Z) : nat :=
  Z.to_nat (if bool_decide (0 ≤ k) then k else len l + k).
Definition slice_to (l : list A) (k : Z) : list A := take (slice_start l k) l.
Definition slice_from (l : list A) (k : Z) : list A := drop (slice_start l k) l.
(** [l[lo:hi]] *)
Definition slice (l : list A) (lo hi : Z) : list A :=
  drop (slice_start l lo) (take (slice_start l hi) l).
End sequences.

(** [range(n)] *)
Definition range (n : Z) : list Z := Z.of_nat <$> seq 0 (Z.to_nat n).

(** Strings: iterating over a [str] yields its one-character strings. *)
Definition chars_of (s : string) : list string :=
  (λ a, String a EmptyString) <$> list_ascii_of_string s.
Definition str_len (s : string) : Z := len (list_ascii_of_string s).
Definition str_getitem (s : string) (k : Z) : option string :=
  getitem (chars_of s) k.
Definition str_slice_to (s : string) (k : Z) : string :=
  string_of_list_ascii (slice_to (list_ascii_of_string s) k).
Definition str_slice_from (s : string) (k : Z) : string :=
  string_of_list_ascii (slice_from (list_ascii_of_string s) k).
Definition str_slice (s : string) (lo hi : Z) : string :=
  string_of_list_ascii (slice (list_ascii_of_string s) lo hi).
(** the string that Python writes as a backslash followed by [n] *)
Definition newline : string := String "010"%char EmptyString.
(** [set(s)] for a string [s] *)
Definition set_of_str (s : string) : gset string := list_to_set (chars_of s).

(** ** The store of mutable objects *)

Abbreviation loc := positive.

Inductive obj :=
  | OList (cells : list string)      (* a [list[str]] object *)
  | OSet (members : gset string).    (* a [set[str]] object *)

Abbreviation store := (gmap positive obj).

(** Computations read and write the store and may raise. *)
Definition M (A : Type) : Type := store → option (A * store).

Definition ret {A} (a : A) : M A := λ σ, Some (a, σ).
Definition bind {A B} (m : M A) (k : A → M B) : M B :=
  λ σ, match m σ with Some (a, σ') => k a σ' | None => None end.
Definition raise {A} : M A := λ _, None.

Declare Scope M_scope.
Delimit Scope M_scope with M.
Bind Scope M_scope with M.
Notation "x ← y ; z" := (bind y (λ x, z))
  (at level 20, y at level 100, z at level 200, only parsing) : M_scope.
Notation "y ;; z" := (bind y (λ _, z))
  (at level 100, z at level 200, only parsing, right associativity) : M_scope.

Local Open Scope M_scope.

(** a partial pure operation: [None] is an exception *)
Definition lift {A} (o : option A) : M A :=
  match o with Some a => ret a | None => raise end.

(** [assert b] *)
Definition assert (b : bool) : M unit := if b then ret tt else raise.

(** a new object, at a location not in use *)
Definition alloc (o : obj) : M loc :=
  λ σ, let l := fresh (dom σ) in Some (l, <[l:=o]> σ).

Definition load_list (l : loc) : M (list string) :=
  λ σ, match σ !! l with Some (OList xs) => Some (xs, σ) | _ => None end.

Definition store_list (l : loc) (xs : list string) : M unit :=
  λ σ, match σ !! l with
       | Some (OList _) => Some (tt, <[l:=OList xs]> σ)
       | _ => None
       end.

Definition load_set (l : loc) : M (gset string) :=
  λ σ, match σ !! l with Some (OSet X) => Some (X, σ) | _ => None end.

(** [for x in xs: body], threading the local variables [s] *)
Fixpoint for_ {A S} (xs : list A) (body : A → S → M S) (s : S) : M S :=
  match xs with
  | [] => ret s
  | x :: xs' => s' ← body x s; for_ xs' body s'
  end.

(** a [for] loop that is left by [return v] as soon as a body yields
    [Some v]; [None] when the loop runs to its end *)
Fixpoint for_return {A R} (xs : list A) (body : A → M (option R))
  : M (option R) :=
  match xs with
  | [] => ret None
  | x :: xs' =>
      r ← body x;
      match r with Some v => ret (Some v) | None => for_return xs' body end
  end.

(** [b and e], where [e] is evaluated only when [b] holds *)
Definition and_then (b : bool) (e : M bool) : M bool :=
  if b then e else ret false.

(** *** Grids: a list of row objects *)

(** [g[i][j]] *)
Definition getitem2 (g : list loc) (i j : Z) : M string :=
  r ← lift (getitem g i); row ← load_list r; lift (getitem row j).

(** [g[i][j] = v] *)
Definition setitem2 (g : list loc) (i j : Z) (v : string) : M unit :=
  r ← lift (getitem g i); row ← load_list r;
  row' ← lift (setitem row j v); store_list r row'.

(** [copy.deepcopy(g)] for [g : list[list[str]]]: every row object is
    copied once; a row object that occurs several times in [g] is copied
    at its first occurrence and the copy is reused (the memo table), so
    the copy has the sharing of the original.  The strings are atomic
    and shared. *)
Fixpoint deepcopy_rows (g : list loc) (memo : gmap positive positive)
  : M (list loc) :=
  match g with
  | [] => ret []
  | r :: g' =>
      match memo !! r with
      | Some r' => rest ← deepcopy_rows g' memo; ret (r' :: rest)
      | None =>
          row ← load_list r; r' ← alloc (OList row);
          rest ← deepcopy_rows g' (<[r:=r']> memo); ret (r' :: rest)
      end
  end.
Definition deepcopy (g : list loc) : M (list loc) := deepcopy_rows g ∅.

(** the rows of a grid, read one after the other *)
Fixpoint load_rows (g : list loc) : M (list (list string)) :=
  match g with
  | [] => ret []
  | r :: g' => row ← load_list r; rest ← load_rows g'; ret (row :: rest)
  end.

End Py.
Import Py.
Local Open Scope M_scope.

(** ** Peg solitaire on a rectangular grid (grid_peg_solitaire_puzzle.py) *)

Module GridPegSolitairePuzzle.

(** An instance holds a reference to its grid, a list of row lists, and a
    reference to the set of allowed markers.  The outer list is only
    ever indexed, so it is kept as the sequence of its row references. *)
Record t := mk { _marker : list loc; _marker_set : loc }.

Definition is_marker (x : string) : bool :=
  String.eqb x "*" || String.eqb x "." || String.eqb x "#".

(** [__init__]: the four assertions on the grid and the marker set *)
Definition init (marker : list loc) (marker_set : loc) : M t :=
  rows ← load_rows marker;
  assert (bool_decide (len rows > 0));;
  assert (match rows with
          | [] => true
          | r0 :: rest => forallb (λ x, bool_decide (len x = len r0)) rest
          end);;
  X ← load_set marker_set;
  assert (forallb (forallb (λ x, bool_decide (x ∈ X))) rows);;
  assert (forallb is_marker (elements X));;
  ret (mk marker marker_set).

(** [__eq__]: both grids equal cell by cell and both marker sets equal *)
Definition eq (self other : t) : M bool :=
  g1 ← load_rows (_marker self); g2 ← load_rows (_marker other);
  and_then (bool_decide (g1 = g2))
    (X1 ← load_set (_marker_set self); X2 ← load_set (_marker_set other);
     ret (bool_decide (X1 = X2))).

(** [__str__]: every cell followed by a space, the last space of a row
    cut off and a newline added, the last newline cut off *)
Definition str (self : t) : M string :=
  puzzle ← for_ (_marker self) (λ rows puzzle,
    cells ← load_list rows;
    puzzle ← for_ cells (λ row puzzle, ret (puzzle +:+ (row +:+ " "))) puzzle;
    puzzle ← ret (str_slice puzzle 0 (-1));
    ret (puzzle +:+ newline)) "";
  ret (str_slice puzzle 0 (-1)).

(** One jump: a deep copy of the grid with three cells overwritten, in
    the order of the three assignments, wrapped in a new instance. *)
Definition jump (self : t) (w1 w2 w3 : Z * Z * string) : M t :=
  new_marker ← deepcopy (_marker self);
  setitem2 new_marker w1.1.1 w1.1.2 w1.2;;
  setitem2 new_marker w2.1.1 w2.1.2 w2.2;;
  setitem2 new_marker w3.1.1 w3.1.2 w3.2;;
  init new_marker (_marker_set self).

Definition cell_is (self : t) (i j : Z) (v : string) : M bool :=
  c ← getitem2 (_marker self) i j; ret (String.eqb c v).

Definition row_configs (self : t) (cols rows : Z) : M (list t) :=
  for_ (range cols) (λ i configs,
    for_ (range rows) (λ j configs,
      e ← cell_is self i j ".";
      if e then
        b1 ← and_then (bool_decide (j - 2 >= 0))
               (p ← cell_is self i (j - 2) "*";
                and_then p (cell_is self i (j - 1) "*"));
        configs ← (if b1 then
                     s ← jump self (i, j, "*") (i, j - 2, ".") (i, j - 1, ".");
                     ret (configs ++ [s])
                   else ret configs);
        b2 ← and_then (bool_decide (j + 2 < rows))
               (p ← cell_is self i (j + 2) "*";
                and_then p (cell_is self i (j + 1) "*"));
        if b2 then
          s ← jump self (i, j, "*") (i, j + 2, ".") (i, j + 1, ".");
          ret (configs ++ [s])
        else ret configs
      else ret configs) configs) [].

Definition col_configs (self : t) (cols rows : Z) : M (list t) :=
  for_ (range cols) (λ i configs,
    for_ (range rows) (λ j configs,
      e ← cell_is self i j ".";
      if e then
        b1 ← and_then (bool_decide (i - 2 >= 0))
               (p ← cell_is self (i - 2) j "*";
                and_then p (cell_is self (i - 1) j "*"));
        configs ← (if b1 then
                     s ← jump self (i, j, "*") (i - 2, j, ".") (i - 1, j, ".");
                     ret (configs ++ [s])
                   else ret configs);
        b2 ← and_then (bool_decide (i + 2 < cols))
               (p ← cell_is self (i + 2) j "*";
                and_then p (cell_is self (i + 1) j "*"));
        if b2 then
          s ← jump self (i, j, "*") (i + 1, j, ".") (i + 2, j, ".");
          ret (configs ++ [s])
        else ret configs
      else ret configs) configs) [].

Definition extensions (self : t) : M (list t) :=
  m ← ret (len (_marker self));
  r0 ← lift (getitem (_marker self) 0); row0 ← load_list r0;
  n ← ret (len row0);
  a ← row_configs self m n; b ← col_configs self m n;
  ret (a ++ b).

Definition is_solved (self : t) : M bool :=
  m ← ret (len (_marker self));
  r0 ← lift (getitem (_marker self) 0); row0 ← load_list r0;
  n ← ret (len row0);
  count ← for_ (range m) (λ i count,
             for_ (range n) (λ j count,
               p ← cell_is self i j "*";
               ret (if p then count + 1 else count)) count) 0;
  ret (bool_decide (count = 1)).

End GridPegSolitairePuzzle.

(** ** The n x m sliding-tile puzzle (mn_puzzle.py) *)

Module MNPuzzle.

(** Both grids are tuples of tuples of strings: immutable values. *)
Abbreviation grid := (list (list string)).

Record t := mk { n : Z; m : Z; from_grid : grid; to_grid : grid }.

(** [all([len(r) == len(g[0]) for r in g])] *)
Definition rows_like_first (g : grid) : M bool :=
  for_ g (λ r acc,
    r0 ← lift (getitem g 0); ret (acc && bool_decide (len r = len r0))) true.

(** [__init__]: three assertions, then [n] and [m] from [from_grid] *)
Definition init (from_grid to_grid : grid) : M t :=
  assert (bool_decide (len from_grid > 0));;
  b1 ← rows_like_first from_grid; assert b1;;
  b2 ← rows_like_first to_grid; assert b2;;
  r0 ← lift (getitem from_grid 0);
  ret (mk (len from_grid) (len r0) from_grid to_grid).

Definition eq (self other : t) : M bool :=
  ret (bool_decide (from_grid self = from_grid other)
       && bool_decide (to_grid self = to_grid other)).

(** [__str__], on the current grid *)
Definition str (self : t) : M string :=
  puzzle ← for_ (from_grid self) (λ rows puzzle,
    puzzle ← for_ rows (λ row puzzle, ret (puzzle +:+ (row +:+ " "))) puzzle;
    puzzle ← ret (str_slice puzzle 0 (-1));
    ret (puzzle +:+ newline)) "";
  ret (str_slice puzzle 0 (-1)).

(** the first blank in row-major order, or [None] *)
Definition index_of_space (self : t) : M (option (Z * Z)) :=
  for_return (range (n self)) (λ i,
    for_return (range (m self)) (λ j,
      row ← lift (getitem (from_grid self) i);
      c ← lift (getitem row j);
      ret (if String.eqb c "*" then Some (i, j) else None))).

(** [empty_index[k]]: a [TypeError] when [empty_index] is [None] *)
Definition subscript (empty_index : option (Z * Z)) (k : Z) : M Z :=
  match empty_index with
  | Some (i, j) => lift (getitem [i; j] k)
  | None => raise
  end.

(** [convert_tuple]: a new list object for every row.  The deep copy of
    a tuple of tuples of strings is that same value. *)
Definition convert_tuple (self : t) : M (list loc) :=
  for_ (from_grid self) (λ x acc, l ← alloc (OList x); ret (acc ++ [l])) [].

(** [convert_list]: the rows of a deep copy, read back as tuples *)
Definition convert_list (self : t) (puzzle_list : list loc) : M grid :=
  puzzle_tuple ← deepcopy puzzle_list; load_rows puzzle_tuple.

(** One slide: the symbol at [(i', j')] is written over the blank at
    [(i, j)] and the blank over [(i', j')], on a fresh list copy. *)
Definition slide (self : t) (i j i' j' : Z) : M t :=
  new_grid ← convert_tuple self;
  v ← getitem2 new_grid i' j';
  setitem2 new_grid i j v;;
  setitem2 new_grid i' j' "*";;
  g ← convert_list self new_grid;
  init g (to_grid self).

Definition row_configs (self : t) : M (list t) :=
  empty_index ← index_of_space self;
  n_value ← subscript empty_index 0;
  m_value ← subscript empty_index 1;
  configurations ←
    (if bool_decide (m_value + 1 < m self) then
       s ← slide self n_value m_value n_value (m_value + 1); ret ([] ++ [s])
     else ret []);
  if bool_decide (m_value - 1 >= 0) then
    s ← slide self n_value m_value n_value (m_value - 1);
    ret (configurations ++ [s])
  else ret configurations.

Definition col_configs (self : t) : M (list t) :=
  empty_index ← index_of_space self;
  n_value ← subscript empty_index 0;
  m_value ← subscript empty_index 1;
  configurations ←
    (if bool_decide (n_value + 1 < n self) then
       s ← slide self n_value m_value (n_value + 1) m_value; ret ([] ++ [s])
     else ret []);
  if bool_decide (n_value - 1 >= 0) then
    s ← slide self n_value m_value (n_value - 1) m_value;
    ret (configurations ++ [s])
  else ret configurations.

Definition extensions (self : t) : M (list t) :=
  a ← row_configs self; b ← col_configs self; ret (a ++ b).

Definition is_solved (self : t) : M bool :=
  ret (bool_decide (from_grid self = to_grid self)).

End MNPuzzle.

(** ** The word ladder (word_ladder_puzzle.py) *)

Module WordLadderPuzzle.

(** The words are strings; the word set is a shared set object. *)
Record t := mk {
  _from_word : string; _to_word : string; _word_set : loc; _chars : string }.

Definition init (from_word to_word : string) (ws : loc) : M t :=
  ret (mk from_word to_word ws "abcdefghijklmnopqrstuvwxyz").

(** [w in ws] *)
Definition contains (ws : loc) (w : string) : M bool :=
  X ← load_set ws; ret (bool_decide (w ∈ X)).

Definition eq (self other : t) : M bool :=
  and_then (String.eqb (_from_word self) (_from_word other)
            && String.eqb (_to_word self) (_to_word other))
    (X1 ← load_set (_word_set self); X2 ← load_set (_word_set other);
     ret (bool_decide (X1 = X2))).

Section iteration_order.
(** The order in which a Python set is iterated is not specified: it
    is a parameter, any enumeration of the set without repetition. *)
Variable iter : gset string → list string.

(** [self._from_word[:i] + x + self._from_word[i+1:]] *)
Definition substitute (self : t) (i : Z) (x : string) : string :=
  str_slice_to (_from_word self) i +:+ x
    +:+ str_slice_from (_from_word self) (i + 1).

(** the letters tried at position [i]:
    [set(self._chars) - set(self._from_word[i])] *)
Definition letters_at (self : t) (i : Z) : M (list string) :=
  c ← lift (str_getitem (_from_word self) i);
  ret (iter (set_of_str (_chars self) ∖ set_of_str c)).

Definition extensions (self : t) : M (list t) :=
  for_ (range (str_len (_from_word self))) (λ i configurations,
    xs ← letters_at self i;
    new ← for_ xs (λ x acc,
             b ← contains (_word_set self) (substitute self i x);
             if b then
               p ← init (substitute self i x) (_to_word self)
                     (_word_set self);
               ret (acc ++ [p])
             else ret acc) [];
    ret (configurations ++ new)) [].

(** the words formed and tested against the word set by [extensions],
    in the order in which they are formed *)
Definition candidates (self : t) : M (list string) :=
  for_ (range (str_len (_from_word self))) (λ i tested,
    xs ← letters_at self i;
    ret (tested ++ (substitute self i <$> xs))) [].
End iteration_order.

Definition is_solved (self : t) : M bool :=
  ret (String.eqb (_from_word self) (_to_word self)).

End WordLadderPuzzle.

(** ** A puzzle of any of the three kinds *)

Module Puzzle.

(** The three classes are used through one interface; [other] in
    [__eq__] may be a puzzle of any class. *)
Inductive t :=
  | GridPeg (p : GridPegSolitairePuzzle.t)
  | MN (p : MNPuzzle.t)
  | WordLadder (p : WordLadderPuzzle.t).

(** [self == other]: [type(self) == type(other)] and the comparison of
    the class of [self] *)
Definition eq (self other : t) : M bool :=
  match self, other with
  | GridPeg p, GridPeg q => GridPegSolitairePuzzle.eq p q
  | MN p, MN q => MNPuzzle.eq p q
  | WordLadder p, WordLadder q => WordLadderPuzzle.eq p q
  | _, _ => ret false
  end.

(** [self.extensions()] *)
Definition extensions (iter : gset string → list string) (self : t)
  : M (list t) :=
  match self with
  | GridPeg p => s ← GridPegSolitairePuzzle.extensions p; ret (GridPeg <$> s)
  | MN p => s ← MNPuzzle.extensions p; ret (MN <$> s)
  | WordLadder p =>
      s ← WordLadderPuzzle.extensions iter p; ret (WordLadder <$> s)
  end.

End Puzzle.

(** * Specifications *)

(** [runs m σ Q]: from the store [σ], [m] returns a result and a store
    that satisfy [Q] (in particular it does not raise). *)
Definition runs {A} (m : M A) (σ : store) (Q : A → store → Prop) : Prop :=
  ∃ a σ', m σ = Some (a, σ') ∧ Q a σ'.

(** the content of a row object, of a set object, of a grid *)
Definition row_at (σ : store) (r : loc) : option (list string) :=
  match σ !! r with Some (OList xs) => Some xs | _ => None end.
Definition set_at (σ : store) (l : loc) : option (gset string) :=
  match σ !! l with Some (OSet X) => Some X | _ => None end.
Definition grid_at (σ : store) (g : list loc) : option (list (list string)) :=
  mapM (row_at σ) g.

(** the cell in row [i], column [j] of a matrix; no cell outside *)
Definition cell (G : list (list string)) (i j : Z) : option string :=
  if bool_decide (0 ≤ i ∧ 0 ≤ j)
  then G !! Z.to_nat i ≫= (λ row, row !! Z.to_nat j)
  else None.

(** a matrix with [n] columns *)
Definition rect (n : nat) (G : list (list string)) : Prop :=
  Forall (λ row, length row = n) G.

(** The memo table maps rows of the original to their copies, which are
    new objects with the original content. *)
Definition memo_ok (σ0 σ : store) (memo : gmap positive positive) : Prop :=
  ∀ r r', memo !! r = Some r' →
    σ0 !! r' = None ∧ ∃ row, row_at σ0 r = Some row ∧ row_at σ r' = Some row.

(** the matrix [G] with [v] written in row [i], column [j] *)
Definition upd (G : list (list string)) (i j : Z) (v : string)
  : list (list string) :=
  alter (λ row, <[Z.to_nat j:=v]> row) (Z.to_nat i) G.

Definition ncols (G : list (list string)) : nat :=
  match G with [] => 0%nat | row :: _ => length row end.

(** The rows of a working copy: objects that did not exist in [σ0], with
    [n] cells, all of them satisfying [P]. *)
Definition fresh_rows (σ0 σ : store) (P : string → Prop) (n : nat)
    (g : list loc) : Prop :=
  Forall (λ r, σ0 !! r = None ∧
               ∃ row, row_at σ r = Some row ∧ length row = n ∧
                      Forall P row) g.

(** ** Peg solitaire: valid configurations, moves, jumps *)

Module Peg := GridPegSolitairePuzzle.

Definition markers_ok (X : gset string) : Prop :=
  ∀ x, x ∈ X → x = "*" ∨ x = "." ∨ x = "#".

(** [peg_wf σ p G X]: in the store [σ] the instance [p] has the matrix
    [G] and the marker set [X], and these pass the constructor's
    assertions. *)
Definition peg_wf (σ : store) (p : Peg.t) (G : list (list string))
    (X : gset string) : Prop :=
  grid_at σ (Peg._marker p) = Some G ∧
  set_at σ (Peg._marker_set p) = Some X ∧
  G ≠ [] ∧ rect (ncols G) G ∧
  Forall (Forall (λ x, x ∈ X)) G ∧ markers_ok X.

(** [p] is an instance that the constructor returns in the store [σ] *)
Definition peg_valid (σ : store) (p : Peg.t) : Prop :=
  Peg.init (Peg._marker p) (Peg._marker_set p) σ = Some (p, σ).

(** the matrix [G] after the assignment [w = (i, j, v)] *)
Definition updw (G : list (list string)) (w : Z * Z * string) :=
  upd G w.1.1 w.1.2 w.2.

(** a write that is in bounds and writes an allowed marker *)
Definition write_ok (G : list (list string)) (X : gset string)
    (w : Z * Z * string) : Prop :=
  0 ≤ w.1.1 < len G ∧ 0 ≤ w.1.2 < Z.of_nat (ncols G) ∧ w.2 ∈ X.

(** A move: the empty cell [(i, j)] where a peg lands and the direction
    [(di, dj)] from which it comes. *)
Definition move : Type := Z * Z * (Z * Z).

Definition directions : list (Z * Z) := [(0, -1); (0, 1); (-1, 0); (1, 0)].

(** The landing cell is empty and the cells at offset 1 and 2 in the
    direction of the move hold pegs ([cell] is [None] out of bounds). *)
Definition qualifies (G : list (list string)) (mv : move) : Prop :=
  let '(i, j, (di, dj)) := mv in
  cell G i j = Some "." ∧
  cell G (i + di) (j + dj) = Some "*" ∧
  cell G (i + 2 * di) (j + 2 * dj) = Some "*".

#[global] Instance qualifies_dec G mv : Decision (qualifies G mv).
Proof. destruct mv as [[i j] [di dj]]. unfold qualifies. apply _. Defined.

Definition legal (G : list (list string)) (mv : move) : Prop :=
  mv.2 ∈ directions ∧ qualifies G mv.

(** [G'] is [G] after the move: the landing cell holds a peg, the cell
    jumped over and the origin are empty, every other cell is as in [G]. *)
Definition is_jump (G : list (list string)) (mv : move)
    (G' : list (list string)) : Prop :=
  let '(i, j, (di, dj)) := mv in
  length G' = length G ∧
  cell G' i j = Some "*" ∧
  cell G' (i + di) (j + dj) = Some "." ∧
  cell G' (i + 2 * di) (j + 2 * dj) = Some "." ∧
  ∀ r c, (r, c) ≠ (i, j) → (r, c) ≠ (i + di, j + dj) →
         (r, c) ≠ (i + 2 * di, j + 2 * dj) → cell G' r c = cell G r c.

(** [succ_ok σ p G X mv s]: in the store [σ], [s] is a well-formed
    instance with [p]'s marker set; when no row object occurs twice in
    [p]'s grid, the same holds for [s] and the matrix of [s] is [G] after
    the move [mv]. *)
Definition succ_ok (p : Peg.t) (G : list (list string)) (X : gset string)
    (σ : store) (mv : move) (s : Peg.t) : Prop :=
  Peg._marker_set s = Peg._marker_set p ∧
  (∃ G', peg_wf σ s G' X) ∧
  (NoDup (Peg._marker p) →
     NoDup (Peg._marker s) ∧ ∃ G', peg_wf σ s G' X ∧ is_jump G mv G').

(** the moves of the directions [ds] that qualify at the cell [(i, j)],
    and over the whole grid, row by row *)
Definition moves_at (G : list (list string)) (ds : list (Z * Z)) (i j : Z)
  : list move :=
  (λ d, (i, j, d)) <$> filter (λ d, qualifies G (i, j, d)) ds.

Definition dir_moves (G : list (list string)) (ds : list (Z * Z)) : list move :=
  flat_map (λ i, flat_map (moves_at G ds i) (range (Z.of_nat (ncols G))))
           (range (len G)).

Definition row_moves G := dir_moves G [(0, -1); (0, 1)].
Definition col_moves G := dir_moves G [(-1, 0); (1, 0)].

(** a one-row board [. * *] *)
Definition peg_demo_store : store :=
  <[1%positive:=OList ["."; "*"; "*"]]> (<[2%positive:=OSet {["*"; "."]}]> ∅).
Definition peg_demo : Peg.t := Peg.mk [1%positive] 2%positive.

(** The same row object twice: the board [. * * / . * *] whose two rows
    are one list. *)
Definition peg_shared : Peg.t := Peg.mk [1%positive; 1%positive] 2%positive.

Definition pegs_in (row : list string) : nat :=
  length (filter (λ c, c = "*") row).

Definition count_pegs (G : list (list string)) : nat :=
  sum_list (pegs_in <$> G).

(** one move of a search: a successor returned by [extensions], looked
    at in the store after the call or in any store that extends it *)
Definition peg_move (c c' : store * Peg.t) : Prop :=
  ∃ succs σ', Peg.extensions c.2 c.1 = Some (succs, σ') ∧
              c'.2 ∈ succs ∧ σ' ⊆ c'.1.

(** ** Sliding tiles: valid configurations, the blank, swaps *)

Module MN := MNPuzzle.

(** what the constructor asserts of its two grids *)
Definition mn_shape_ok (f t : list (list string)) : Prop :=
  f ≠ [] ∧ rect (ncols f) f ∧ rect (ncols t) t.

(** [p] is an instance that the constructor returns *)
Definition mn_valid (σ : store) (p : MN.t) : Prop :=
  MN.init (MN.from_grid p) (MN.to_grid p) σ = Some (p, σ).

(** the only blank of [G] is at [(i, j)] *)
Definition one_blank (G : list (list string)) (i j : Z) : Prop :=
  cell G i j = Some "*" ∧
  ∀ i' j', cell G i' j' = Some "*" → i' = i ∧ j' = j.

(** the grid [G] with the symbols of the cells [(i, j)] and [(i', j')]
    exchanged, written as the two assignments of [slide] *)
Definition slid (G : list (list string)) (i j i' j' : Z) (v : string) :=
  upd (upd G i j v) i' j' "*".

(** the cells next to [(i, j)], in the order in which [extensions]
    tries them: right, left, down, up *)
Definition neighbours (i j : Z) : list (Z * Z) :=
  [(i, j + 1); (i, j - 1); (i + 1, j); (i - 1, j)].

Definition in_grid (G : list (list string)) (c : Z * Z) : Prop :=
  0 ≤ c.1 < len G ∧ 0 ≤ c.2 < Z.of_nat (ncols G).

#[global] Instance in_grid_dec G c : Decision (in_grid G c).
Proof. unfold in_grid. apply _. Defined.

(** the successor for the neighbour [c] of the blank at [(i, j)] *)
Definition slide_to (p : MN.t) (i j : Z) (c : Z * Z) : MN.t :=
  MN.mk (MN.n p) (MN.m p)
    (slid (MN.from_grid p) i j c.1 c.2
       (default "" (cell (MN.from_grid p) c.1 c.2)))
    (MN.to_grid p).

(** the successors of [p] when its blank is at [(i, j)] *)
Definition mn_successors (p : MN.t) (i j : Z) : list MN.t :=
  slide_to p i j <$> filter (in_grid (MN.from_grid p)) (neighbours i j).

(** [G'] is [G] with the symbols of the cells [a] and [b] exchanged and
    every other cell unchanged *)
Definition is_swap (G : list (list string)) (a b : Z * Z)
    (G' : list (list string)) : Prop :=
  length G' = length G ∧
  cell G' a.1 a.2 = cell G b.1 b.2 ∧
  cell G' b.1 b.2 = cell G a.1 a.2 ∧
  ∀ r c, (r, c) ≠ a → (r, c) ≠ b → cell G' r c = cell G r c.

Definition mn_demo : MN.t :=
  MN.mk 2 3 [["*"; "2"; "3"]; ["1"; "4"; "5"]] [["1"; "2"; "3"]; ["4"; "5"; "*"]].

(** the position [(i, j)] in an [n] x [m] grid *)
Definition on_corner (n m i j : Z) : Prop :=
  (i = 0 ∨ i = n - 1) ∧ (j = 0 ∨ j = m - 1).
Definition on_edge (n m i j : Z) : Prop :=
  (i = 0 ∨ i = n - 1) ∨ (j = 0 ∨ j = m - 1).

(** the 1 x 1 puzzle whose only cell is the blank *)
Definition mn_single : MN.t := MN.mk 1 1 [["*"]] [["*"]].

(** ** Word ladder: valid configurations, one-letter changes *)

Module WL := WordLadderPuzzle.

Definition alphabet : string := "abcdefghijklmnopqrstuvwxyz".

(** the one-character strings of the lowercase letters *)
Definition lowercase (x : string) : Prop := x ∈ chars_of alphabet.

(** [p] is an instance that the constructor returns *)
Definition wl_valid (σ : store) (p : WL.t) : Prop :=
  WL.init (WL._from_word p) (WL._to_word p) (WL._word_set p) σ = Some (p, σ).

(** [w'] is [w] with the character at one position replaced by a
    lowercase letter other than that character *)
Definition one_letter_changed (w w' : string) : Prop :=
  ∃ (k : nat) c x,
    chars_of w !! k = Some c ∧ lowercase x ∧ x ≠ c ∧
    chars_of w' = <[k:=x]> (chars_of w).

(** [w] and [w'] have the same length and differ at exactly one position *)
Definition differ_at_one (w w' : string) : Prop :=
  length (chars_of w') = length (chars_of w) ∧
  ∃ k : nat, ∀ k' : nat, chars_of w' !! k' ≠ chars_of w !! k' ↔ k' = k.

(** the letters tried at position [i], the words formed there *)
Definition wl_letters (iter : gset string → list string) (p : WL.t) (i : Z)
  : list string :=
  iter (set_of_str (WL._chars p)
        ∖ set_of_str (default "" (str_getitem (WL._from_word p) i))).

Definition wl_candidates_at (iter : gset string → list string) (p : WL.t)
    (i : Z) : list string :=
  WL.substitute p i <$> wl_letters iter p i.

Definition wl_candidates (iter : gset string → list string) (p : WL.t)
  : list string :=
  flat_map (wl_candidates_at iter p) (range (str_len (WL._from_word p))).

Definition mk_succ (p : WL.t) (w' : string) : WL.t :=
  WL.mk w' (WL._to_word p) (WL._word_set p) alphabet.

(** the word set and the puzzle of the doctest of [extensions] *)
Definition wl_demo_store : store :=
  <[1%positive:=OSet {["lame"; "came"; "some"; "word"; "lost"]}]> ∅.
Definition wl_demo : WL.t := WL.mk "same" "cost" 1%positive alphabet.

(** the one-letter word "A" with the 26 lowercase letters as word set *)
Definition wl_upper_store : store := <[1%positive:=OSet (set_of_str alphabet)]> ∅.
Definition wl_upper : WL.t := WL.mk "A" "b" 1%positive alphabet.

(** [keeps σ0 m]: whenever [m] returns, every object of [σ0] still has
    the content it has in [σ0]. *)
Definition keeps (σ0 : store) {A} (m : M A) : Prop :=
  ∀ σ a σ', σ0 ⊆ σ → m σ = Some (a, σ') → σ0 ⊆ σ'.

(** [reads m]: [m] leaves the store as it is, and returns the same
    result in every store that extends it. *)
Definition reads {A} (m : M A) : Prop :=
  ∀ σ a σ1, m σ = Some (a, σ1) →
    σ1 = σ ∧ ∀ σ', σ ⊆ σ' → m σ' = Some (a, σ').

(** ** Further configurations and notions *)

(** a board with one peg *)
Definition peg_won_store : store :=
  <[1%positive:=OList ["."; "*"; "."]]> (<[2%positive:=OSet {["*"; "."]}]> ∅).

(** the board [. * *] a second time, in other objects *)
Definition peg_twice_store : store :=
  <[3%positive:=OList ["."; "*"; "*"]]>
    (<[4%positive:=OSet {["."; "*"]}]> peg_demo_store).

Definition peg_copy : Peg.t := Peg.mk [3%positive] 4%positive.

(** the first [Some] that [f] gives on the elements of a list *)
Fixpoint first_some {A R} (f : A → option R) (xs : list A) : option R :=
  match xs with
  | [] => None
  | x :: xs' => match f x with Some v => Some v | None => first_some f xs' end
  end.

(** [(i, j)] holds a blank and no cell before it in row-major order does *)
Definition first_blank (G : list (list string)) (i j : Z) : Prop :=
  cell G i j = Some "*" ∧
  ∀ i' j', cell G i' j' = Some "*" → i < i' ∨ (i = i' ∧ j ≤ j').

(** the blank found in row [i], column [j], if that cell is a blank *)
Definition probe (G : list (list string)) (i j : Z) : option (Z * Z) :=
  match cell G i j with
  | Some c => if String.eqb c "*" then Some (i, j) else None
  | None => None
  end.

(** a puzzle without a blank *)
Definition mn_full : MN.t := MN.mk 1 2 [["1"; "2"]] [["2"; "1"]].

(** a puzzle with two blanks next to each other *)
Definition mn_two_blanks : MN.t :=
  MN.mk 1 3 [["a"; "*"; "*"]] [["*"; "*"; "a"]].

(** the puzzles that [extensions] returns for the word set [D] *)
Definition wl_successors (iter : gset string → list string) (p : WL.t)
    (D : gset string) : list WL.t :=
  flat_map (λ i, mk_succ p <$> filter (λ w', w' ∈ D) (wl_candidates_at iter p i))
    (range (str_len (WL._from_word p))).

(** the doctest's puzzle with its own word in the word set *)
Definition wl_loop_store : store :=
  <[1%positive:=OSet {["same"; "came"; "some"]}]> ∅.

(** the rows joined by newlines, the cells of a row by spaces *)
Definition lines (G : list (list string)) : string :=
  String.concat newline (String.concat " " <$> G).

(** one round of the outer loop of [__str__], and the whole of it *)
Definition render_row (acc : string) (row : list string) : string :=
  str_slice (fold_left (λ s c, s +:+ (c +:+ " ")) row acc) 0 (-1) +:+ newline.

Definition render (G : list (list string)) : string :=
  str_slice (fold_left render_row G "") 0 (-1).

(** the strings of a list, one after the other *)
Definition cat (l : list string) : string := fold_right String.append "" l.

(** * Reasoning about computations *)

Section runs.
Context {A B : Type}.
Implicit Types (σ : store).

Lemma runs_ret (a : A) σ Q : Q a σ → runs (ret a) σ Q.
Proof. intros; exists a, σ; done. Qed.

Lemma runs_bind (m : M A) (k : A → M B) σ Q :
  runs m σ (λ a σ', runs (k a) σ' Q) → runs (bind m k) σ Q.
Proof.
  intros (a & σ1 & Hm & b & σ2 & Hk & HQ). exists b, σ2.
  unfold bind. rewrite Hm. done.
Qed.

Lemma runs_mono (m : M A) σ (Q Q' : A → store → Prop) :
  runs m σ Q → (∀ a σ', Q a σ' → Q' a σ') → runs m σ Q'.
Proof. intros (a & σ1 & Hm & HQ) HQQ. exists a, σ1; auto. Qed.

Lemma runs_lift (o : option A) a σ Q : o = Some a → Q a σ → runs (lift o) σ Q.
Proof. intros -> HQ. by apply runs_ret. Qed.
End runs.

Lemma runs_assert b σ (Q : unit → store → Prop) :
  b = true → Q tt σ → runs (assert b) σ Q.
Proof. intros -> HQ. by apply runs_ret. Qed.

Lemma runs_and_then b e σ (Q : bool → store → Prop) :
  (b = true → runs e σ Q) → (b = false → Q false σ) →
  runs (and_then b e) σ Q.
Proof. destruct b; simpl; intros H1 H2; [auto | by apply runs_ret, H2]. Qed.

(** A loop is described by an invariant on the elements already
    visited, the local variables and the store. *)
Lemma runs_for {A S} (I : list A → S → store → Prop) xs
    (body : A → S → M S) s σ :
  I [] s σ →
  (∀ seen x rest s σ, xs = seen ++ x :: rest → I seen s σ →
     runs (body x s) σ (I (seen ++ [x]))) →
  runs (for_ xs body s) σ (I xs).
Proof.
  intros H0 Hstep.
  cut (∀ rest seen s σ, xs = seen ++ rest → I seen s σ →
         runs (for_ rest body s) σ (I xs)).
  { intros H. by apply (H xs []). }
  induction rest as [|x rest IH]; intros seen s1 σ1 Hxs HI; simpl.
  - apply runs_ret. by rewrite Hxs, app_nil_r.
  - apply runs_bind. eapply runs_mono; [by eapply Hstep|].
    intros s2 σ2 HI2. apply (IH (seen ++ [x])); [|done].
    by rewrite <-app_assoc.
Qed.

(** ** Indexing in bounds *)

Section indexing.
Context {A : Type}.
Implicit Types (l : list A).

Lemma norm_index_in l k : 0 ≤ k < len l → norm_index l k = Some (Z.to_nat k).
Proof. intros H. unfold norm_index. by rewrite bool_decide_true. Qed.

Lemma getitem_in l k : 0 ≤ k < len l → getitem l k = l !! Z.to_nat k.
Proof. intros H. unfold getitem. by rewrite norm_index_in. Qed.

Lemma setitem_in l k x :
  0 ≤ k < len l → setitem l k x = Some (<[Z.to_nat k:=x]> l).
Proof. intros H. unfold setitem. by rewrite norm_index_in. Qed.

Lemma getitem_lookup l (i : nat) x : l !! i = Some x → getitem l (Z.of_nat i) = Some x.
Proof.
  intros H. pose proof (lookup_lt_Some _ _ _ H).
  rewrite getitem_in by (unfold len; lia). by rewrite Nat2Z.id.
Qed.
End indexing.

Lemma range_lookup n (i : nat) : (i < Z.to_nat n)%nat → range n !! i = Some (Z.of_nat i).
Proof.
  intros H. unfold range. rewrite list_lookup_fmap, lookup_seq_lt by done. done.
Qed.

Lemma elem_of_range n k : k ∈ range n ↔ 0 ≤ k < n.
Proof.
  unfold range. rewrite list_elem_of_fmap. setoid_rewrite elem_of_seq. split.
  - intros (i & -> & Hi). lia.
  - intros H. exists (Z.to_nat k). lia.
Qed.

(** ** The store primitives *)

Lemma row_at_Some σ r row : row_at σ r = Some row ↔ σ !! r = Some (OList row).
Proof.
  unfold row_at. destruct (σ !! r) as [[]|]; split; intros; simplify_eq; done.
Qed.

Lemma set_at_Some σ l X : set_at σ l = Some X ↔ σ !! l = Some (OSet X).
Proof.
  unfold set_at. destruct (σ !! l) as [[]|]; split; intros; simplify_eq; done.
Qed.

Lemma row_at_mono (σ σ' : store) r row :
  σ ⊆ σ' → row_at σ r = Some row → row_at σ' r = Some row.
Proof.
  rewrite !row_at_Some. intros Hsub H. by eapply lookup_weaken.
Qed.

Lemma set_at_mono (σ σ' : store) l X :
  σ ⊆ σ' → set_at σ l = Some X → set_at σ' l = Some X.
Proof.
  rewrite !set_at_Some. intros Hsub H. by eapply lookup_weaken.
Qed.

Lemma grid_at_Some σ g G :
  grid_at σ g = Some G ↔ Forall2 (λ r row, row_at σ r = Some row) g G.
Proof. apply mapM_Some. Qed.

Lemma grid_at_mono (σ σ' : store) g G :
  σ ⊆ σ' → grid_at σ g = Some G → grid_at σ' g = Some G.
Proof.
  rewrite !grid_at_Some. intros Hsub H.
  eapply Forall2_impl; [done|]. intros r row. by apply row_at_mono.
Qed.

Lemma grid_at_length σ g G : grid_at σ g = Some G → length G = length g.
Proof. rewrite grid_at_Some. intros H. by rewrite (Forall2_length _ _ _ H). Qed.

Lemma grid_at_lookup σ g G (i : nat) r :
  grid_at σ g = Some G → g !! i = Some r →
  ∃ row, G !! i = Some row ∧ row_at σ r = Some row.
Proof.
  rewrite grid_at_Some. intros H Hr.
  destruct (Forall2_lookup_l _ _ _ _ _ H Hr) as (row & ? & ?). eauto.
Qed.

Lemma grid_at_lookup_r σ g G (i : nat) row :
  grid_at σ g = Some G → G !! i = Some row →
  ∃ r, g !! i = Some r ∧ row_at σ r = Some row.
Proof.
  rewrite grid_at_Some. intros H Hr.
  destruct (Forall2_lookup_r _ _ _ _ _ H Hr) as (r & ? & ?). eauto.
Qed.

Lemma runs_load_list r σ row (Q : list string → store → Prop) :
  row_at σ r = Some row → Q row σ → runs (load_list r) σ Q.
Proof.
  rewrite row_at_Some. intros H HQ. exists row, σ.
  unfold load_list. by rewrite H.
Qed.

Lemma runs_load_set l σ X (Q : gset string → store → Prop) :
  set_at σ l = Some X → Q X σ → runs (load_set l) σ Q.
Proof.
  rewrite set_at_Some. intros H HQ. exists X, σ.
  unfold load_set. by rewrite H.
Qed.

Lemma runs_store_list r xs σ row (Q : unit → store → Prop) :
  row_at σ r = Some row → Q tt (<[r:=OList xs]> σ) →
  runs (store_list r xs) σ Q.
Proof.
  rewrite row_at_Some. intros H HQ. exists tt, (<[r:=OList xs]> σ).
  unfold store_list. by rewrite H.
Qed.

Lemma runs_alloc o σ (Q : loc → store → Prop) :
  (∀ l, σ !! l = None → Q l (<[l:=o]> σ)) → runs (alloc o) σ Q.
Proof.
  intros HQ. exists (fresh (dom σ)), (<[fresh (dom σ):=o]> σ). split; [done|].
  apply HQ, not_elem_of_dom, is_fresh.
Qed.

Lemma runs_load_rows g σ G (Q : list (list string) → store → Prop) :
  grid_at σ g = Some G → Q G σ → runs (load_rows g) σ Q.
Proof.
  rewrite grid_at_Some. intros H. revert Q.
  induction H as [|r row g G Hr _ IH]; intros Q HQ; simpl.
  - by apply runs_ret.
  - apply runs_bind. eapply runs_load_list; [done|].
    apply runs_bind, IH. by apply runs_ret.
Qed.

Lemma load_rows_inv g σ G σ' :
  load_rows g σ = Some (G, σ') → σ' = σ ∧ grid_at σ g = Some G.
Proof.
  revert G σ'. induction g as [|r g IH]; intros G σ'; simpl.
  - unfold ret. intros [= <- <-]. done.
  - unfold bind, load_list. intros H.
    destruct (σ !! r) as [[row|]|] eqn:Er; try done.
    destruct (load_rows g σ) as [[G1 σ1]|] eqn:E1; try done.
    destruct (IH _ _ eq_refl) as [-> HG]. unfold ret in H. simplify_eq. split; [done|].
    apply row_at_Some in Er. by rewrite Er; simpl; rewrite HG.
Qed.

Lemma cell_Some G i j c :
  cell G i j = Some c ↔
  0 ≤ i ∧ 0 ≤ j ∧ ∃ row, G !! Z.to_nat i = Some row ∧ row !! Z.to_nat j = Some c.
Proof.
  unfold cell. case_bool_decide as H.
  - destruct (G !! Z.to_nat i) as [row|] eqn:E; simpl.
    + split; [intros Hc; repeat split; try lia; eauto|].
      by intros (_ & _ & row' & [= <-] & Hc).
    + split; [done|]. by intros (_ & _ & row' & ? & _).
  - split; [done|]. intros (? & ? & _). lia.
Qed.

Lemma runs_getitem2 g i j σ G c (Q : string → store → Prop) :
  grid_at σ g = Some G → cell G i j = Some c → Q c σ →
  runs (getitem2 g i j) σ Q.
Proof.
  intros HG (Hi & Hj & row & Hrow & Hc)%cell_Some HQ.
  destruct (grid_at_lookup_r _ _ _ _ _ HG Hrow) as (r & Hr & Hat).
  unfold getitem2. apply runs_bind. eapply runs_lift.
  { rewrite <-(Z2Nat.id i) by done. by apply getitem_lookup. }
  apply runs_bind. eapply runs_load_list; [done|].
  eapply runs_lift; [|done].
  rewrite <-(Z2Nat.id j) by done. by apply getitem_lookup.
Qed.

Lemma runs_setitem2 g i j v σ r row (Q : unit → store → Prop) :
  0 ≤ i → g !! Z.to_nat i = Some r → row_at σ r = Some row →
  0 ≤ j < len row →
  Q tt (<[r:=OList (<[Z.to_nat j:=v]> row)]> σ) →
  runs (setitem2 g i j v) σ Q.
Proof.
  intros Hi Hr Hrow Hj HQ. unfold setitem2.
  apply runs_bind. eapply runs_lift.
  { rewrite <-(Z2Nat.id i) by done. by apply getitem_lookup. }
  apply runs_bind. eapply runs_load_list; [done|].
  apply runs_bind. eapply runs_lift; [by apply setitem_in|].
  by eapply runs_store_list.
Qed.

(** ** Deep copies *)

(** [deepcopy_rows] returns rows that did not exist at the start ([σ0]),
    with the content of the original; nothing that existed is changed;
    a grid without repeated rows is copied to one without. *)
Lemma runs_deepcopy_rows σ0 g G memo σ (Q : list loc → store → Prop) :
  σ0 ⊆ σ → grid_at σ0 g = Some G → memo_ok σ0 σ memo →
  (∀ g' σ', σ ⊆ σ' → grid_at σ' g' = Some G →
     Forall (λ r', σ0 !! r' = None) g' →
     (NoDup g → (∀ r, r ∈ g → memo !! r = None) →
        NoDup g' ∧ Forall (λ r', σ !! r' = None) g') →
     Q g' σ') →
  runs (deepcopy_rows g memo) σ Q.
Proof.
  intros Hsub HG. apply grid_at_Some in HG. revert memo σ Q Hsub.
  induction HG as [|r row g G Hr HG IH]; intros memo σ Q Hsub Hmemo HQ; simpl.
  { apply runs_ret, HQ; [done|done|constructor|]. intros _ _. split; constructor. }
  destruct (memo !! r) as [r'|] eqn:E.
  - destruct (Hmemo _ _ E) as (Hr' & row' & Hrow' & Hcopy).
    assert (row' = row) as -> by congruence.
    apply runs_bind, IH; [done|done|]. intros rest σ' Hsub' Hgrid Hfresh _.
    apply runs_ret, HQ; [done| |by constructor|].
    + apply grid_at_Some. constructor; [|by apply grid_at_Some].
      by eapply row_at_mono.
    + intros _ Hnone. rewrite Hnone in E by left. done.
  - apply runs_bind. eapply runs_load_list; [by eapply row_at_mono|].
    apply runs_bind, runs_alloc. intros r' Hr'.
    assert (σ0 !! r' = None) as Hr0 by (by eapply lookup_weaken_None).
    assert (σ ⊆ <[r':=OList row]> σ) as Hsub1 by (by apply insert_subseteq).
    apply runs_bind, IH.
    { by apply insert_subseteq_r. }
    { intros x x'. destruct (decide (x = r)) as [->|Hx].
      - rewrite lookup_insert_eq. intros [= <-]. split; [done|].
        exists row. split; [done|]. apply row_at_Some, lookup_insert_eq.
      - rewrite lookup_insert_ne by done. intros Hx'.
        destruct (Hmemo _ _ Hx') as (? & rowx & ? & Hc). split; [done|].
        exists rowx. split; [done|]. by eapply row_at_mono. }
    intros rest σ' Hsub' Hgrid Hfresh Hnd.
    apply runs_ret, HQ; [by etrans| |by constructor|].
    + apply grid_at_Some. constructor; [|by apply grid_at_Some].
      eapply row_at_mono; [done|]. apply row_at_Some, lookup_insert_eq.
    + intros [Hnotin Hndg]%NoDup_cons Hnone.
      destruct Hnd as [Hnd Hnew]; [done| |].
      { intros x Hx. rewrite lookup_insert_ne; [apply Hnone; by right|].
        intros ->. done. }
      split.
      * apply NoDup_cons. split; [|done]. intros Hin.
        rewrite Forall_forall in Hnew. specialize (Hnew _ Hin).
        by rewrite lookup_insert_eq in Hnew.
      * constructor; [done|]. eapply Forall_impl; [done|]. simpl.
        intros x Hx. by eapply lookup_weaken_None.
Qed.

Lemma runs_deepcopy σ g G (Q : list loc → store → Prop) :
  grid_at σ g = Some G →
  (∀ g' σ', σ ⊆ σ' → grid_at σ' g' = Some G →
     Forall (λ r', σ !! r' = None) g' → (NoDup g → NoDup g') → Q g' σ') →
  runs (deepcopy g) σ Q.
Proof.
  intros HG HQ. eapply runs_deepcopy_rows; [done|done|by intros ???|].
  intros g' σ' Hsub Hgrid Hfresh Hnd. apply HQ; try done.
  intros Hg. by apply Hnd.
Qed.

(** ** Inversion of computations *)

Lemma bind_inv {A B} (m : M A) (k : A → M B) σ b σ' :
  bind m k σ = Some (b, σ') →
  ∃ a σ1, m σ = Some (a, σ1) ∧ k a σ1 = Some (b, σ').
Proof.
  unfold bind. destruct (m σ) as [[a σ1]|]; [|done]. intros H. by exists a, σ1.
Qed.

Lemma ret_inv {A} (a b : A) σ σ' : ret a σ = Some (b, σ') → b = a ∧ σ' = σ.
Proof. unfold ret. by intros [= <- <-]. Qed.

Lemma assert_inv b σ u σ' : assert b σ = Some (u, σ') → b = true ∧ σ' = σ.
Proof. destruct b; simpl; [|done]. by intros [_ ->]%ret_inv. Qed.

Lemma load_set_inv l σ X σ' :
  load_set l σ = Some (X, σ') → σ' = σ ∧ set_at σ l = Some X.
Proof.
  unfold load_set, set_at. destruct (σ !! l) as [[]|]; try done.
  by intros [= <- <-].
Qed.

Lemma load_list_inv l σ xs σ' :
  load_list l σ = Some (xs, σ') → σ' = σ ∧ row_at σ l = Some xs.
Proof.
  unfold load_list, row_at. destruct (σ !! l) as [[]|]; try done.
  by intros [= <- <-].
Qed.

Lemma lift_inv {A} (o : option A) σ a σ' :
  lift o σ = Some (a, σ') → o = Some a ∧ σ' = σ.
Proof. destruct o; simpl; [|done]. by intros [-> ->]%ret_inv. Qed.

Lemma forallb_Forall {A} (f : A → bool) (l : list A) :
  forallb f l = true ↔ Forall (λ x, f x = true) l.
Proof.
  rewrite forallb_forall, Forall_forall. by setoid_rewrite list_elem_of_In.
Qed.

(** ** Matrices *)

Lemma cell_upd_eq G i j v c : cell G i j = Some c → cell (upd G i j v) i j = Some v.
Proof.
  rewrite !cell_Some. intros (Hi & Hj & row & Hrow & Hc).
  split; [done|]. split; [done|]. exists (<[Z.to_nat j:=v]> row). split.
  - unfold upd. by rewrite list_lookup_alter_eq, Hrow.
  - apply list_lookup_insert_eq. by eapply lookup_lt_Some.
Qed.

Lemma cell_upd_ne G i j v r c :
  0 ≤ i → 0 ≤ j → (r, c) ≠ (i, j) → cell (upd G i j v) r c = cell G r c.
Proof.
  intros Hi Hj Hne. unfold cell. case_bool_decide as H; [|done].
  unfold upd. destruct (decide (Z.to_nat i = Z.to_nat r)) as [E|E].
  - rewrite <-E, list_lookup_alter_eq.
    destruct (G !! Z.to_nat i) as [row|]; simpl; [|done].
    apply list_lookup_insert_ne. intros E'.
    apply Hne. f_equal; lia.
  - by rewrite list_lookup_alter_ne.
Qed.

Lemma upd_length G i j v : length (upd G i j v) = length G.
Proof. apply length_alter. Qed.

Lemma rect_upd n G i j v : rect n G → rect n (upd G i j v).
Proof.
  unfold rect, upd. intros H. apply Forall_alter; [done|].
  intros row _ Hrow. by rewrite length_insert.
Qed.

Lemma rect_lookup n G (i : nat) row : rect n G → G !! i = Some row → length row = n.
Proof. intros H Hi. by eapply (Forall_lookup_1 _ _ _ _ H). Qed.

Lemma rect_ncols n G : rect n G → G ≠ [] → ncols G = n.
Proof. destruct G; [done|]. intros H _. by inversion H. Qed.

(** membership in a rectangular matrix *)
Lemma cell_is_Some n G i j :
  rect n G → 0 ≤ i < len G → 0 ≤ j < Z.of_nat n → is_Some (cell G i j).
Proof.
  intros Hrect Hi Hj.
  destruct (lookup_lt_is_Some_2 G (Z.to_nat i)) as [row Hrow]; [unfold len in Hi; lia|].
  pose proof (rect_lookup _ _ _ _ Hrect Hrow) as Hlen.
  destruct (lookup_lt_is_Some_2 row (Z.to_nat j)) as [c Hc]; [lia|].
  exists c. apply cell_Some. eauto 6 with lia.
Qed.

Lemma cell_bounds n G i j c :
  rect n G → cell G i j = Some c → 0 ≤ i < len G ∧ 0 ≤ j < Z.of_nat n.
Proof.
  intros Hrect (Hi & Hj & row & Hrow & Hc)%cell_Some.
  pose proof (rect_lookup _ _ _ _ Hrect Hrow) as Hlen.
  apply lookup_lt_Some in Hrow, Hc. unfold len. lia.
Qed.

(** ** Writing to a fresh copy *)

Lemma runs_setitem2_fresh σ0 σ P n g i j v (Q : unit → store → Prop) :
  σ0 ⊆ σ → fresh_rows σ0 σ P n g →
  0 ≤ i < len g → 0 ≤ j < Z.of_nat n → P v →
  (∀ σ', σ0 ⊆ σ' → fresh_rows σ0 σ' P n g →
     (∀ G, NoDup g → grid_at σ g = Some G →
           grid_at σ' g = Some (upd G i j v)) →
     Q tt σ') →
  runs (setitem2 g i j v) σ Q.
Proof.
  intros Hsub Hrows Hi Hj Hv HQ.
  destruct (lookup_lt_is_Some_2 g (Z.to_nat i)) as [r Hr]; [unfold len in Hi; lia|].
  pose proof (Forall_lookup_1 _ _ _ _ Hrows Hr) as (Hr0 & row & Hrow & Hlen & Hcells).
  eapply runs_setitem2; [lia|done|done|unfold len; lia|].
  apply HQ.
  - by apply insert_subseteq_r.
  - eapply Forall_impl; [done|]. simpl.
    intros r2 (Hr2 & row2 & Hrow2 & Hlen2 & Hcells2). split; [done|].
    destruct (decide (r2 = r)) as [->|Hne].
    + exists (<[Z.to_nat j:=v]> row). split; [apply row_at_Some, lookup_insert_eq|].
      split; [by rewrite length_insert|]. by apply Forall_insert.
    + exists row2. split; [|done].
      apply row_at_Some. rewrite lookup_insert_ne by done. by apply row_at_Some.
  - intros G Hnd HG. apply grid_at_Some. apply grid_at_Some in HG.
    apply Forall2_same_length_lookup. split.
    { rewrite upd_length. by eapply Forall2_length. }
    intros k x y Hx Hy. unfold upd in Hy.
    destruct (decide (Z.to_nat i = k)) as [<-|Hk].
    + rewrite list_lookup_alter_eq in Hy. simplify_eq.
      destruct (Forall2_lookup_l _ _ _ _ _ HG Hr) as (row' & HGrow & Hrow').
      rewrite HGrow in Hy. simpl in Hy. simplify_eq.
      apply row_at_Some, lookup_insert_eq.
    + rewrite list_lookup_alter_ne in Hy by done.
      assert (x ≠ r) as Hxr.
      { intros ->. apply Hk. by eapply NoDup_lookup. }
      apply row_at_Some. rewrite lookup_insert_ne by done. apply row_at_Some.
      destruct (Forall2_lookup_l _ _ _ _ _ HG Hx) as (row' & HGrow & Hrow').
      congruence.
Qed.

(** * Peg solitaire *)

Lemma is_marker_true x : Peg.is_marker x = true ↔ x = "*" ∨ x = "." ∨ x = "#".
Proof.
  unfold Peg.is_marker. rewrite !orb_true_iff, !String.eqb_eq. tauto.
Qed.

Lemma rect_check (G : list (list string)) :
  match G with
  | [] => true
  | r0 :: rest => forallb (λ x, bool_decide (len x = len r0)) rest
  end = true ↔ rect (ncols G) G.
Proof.
  destruct G as [|r0 rest]; simpl.
  - split; [constructor|done].
  - rewrite forallb_Forall. unfold rect. rewrite Forall_cons.
    split.
    + intros H. split; [done|]. eapply Forall_impl; [done|]. simpl.
      intros x Hx%bool_decide_eq_true. unfold len in Hx. lia.
    + intros [_ H]. eapply Forall_impl; [done|]. simpl.
      intros x Hx. apply bool_decide_eq_true. unfold len. lia.
Qed.

Lemma cells_check (G : list (list string)) (X : gset string) :
  forallb (forallb (λ x, bool_decide (x ∈ X))) G = true ↔
  Forall (Forall (λ x, x ∈ X)) G.
Proof.
  rewrite forallb_Forall. apply Forall_proper; [|done]. intros row.
  rewrite forallb_Forall. apply Forall_proper; [|done]. intros x.
  apply bool_decide_eq_true.
Qed.

Lemma markers_check (X : gset string) :
  forallb Peg.is_marker (elements X) = true ↔ markers_ok X.
Proof.
  rewrite forallb_Forall, Forall_forall. unfold markers_ok.
  setoid_rewrite elem_of_elements. by setoid_rewrite is_marker_true.
Qed.

Lemma runs_peg_init σ g ms G X (Q : Peg.t → store → Prop) :
  peg_wf σ (Peg.mk g ms) G X → Q (Peg.mk g ms) σ → runs (Peg.init g ms) σ Q.
Proof.
  intros (HG & HX & Hne & Hrect & Hcells & Hm) HQ. simpl in *. unfold Peg.init.
  apply runs_bind. eapply runs_load_rows; [done|].
  apply runs_bind, runs_assert.
  { apply bool_decide_eq_true. unfold len. destruct G; [done|]. simpl. lia. }
  apply runs_bind, runs_assert; [by apply rect_check|].
  apply runs_bind. eapply runs_load_set; [done|].
  apply runs_bind, runs_assert; [by apply cells_check|].
  apply runs_bind, runs_assert; [by apply markers_check|].
  by apply runs_ret.
Qed.

Lemma peg_init_inv σ g ms p σ' :
  Peg.init g ms σ = Some (p, σ') →
  σ' = σ ∧ p = Peg.mk g ms ∧ ∃ G X, peg_wf σ p G X.
Proof.
  unfold Peg.init. intros H.
  apply bind_inv in H as (G & σ1 & [-> HG]%load_rows_inv & H).
  apply bind_inv in H as (_ & σ1 & [Hlen ->]%assert_inv & H).
  apply bind_inv in H as (_ & σ1 & [Hrect ->]%assert_inv & H).
  apply bind_inv in H as (X & σ1 & [-> HX]%load_set_inv & H).
  apply bind_inv in H as (_ & σ1 & [Hcells ->]%assert_inv & H).
  apply bind_inv in H as (_ & σ1 & [Hm ->]%assert_inv & H).
  apply ret_inv in H as [-> ->]. split; [done|]. split; [done|].
  exists G, X. repeat split; simpl; try done.
  - intros ->. by apply bool_decide_eq_true in Hlen.
  - by apply rect_check.
  - by apply cells_check.
  - by apply markers_check.
Qed.

Lemma peg_valid_wf σ p : peg_valid σ p ↔ ∃ G X, peg_wf σ p G X.
Proof.
  split.
  - intros H. by apply peg_init_inv in H as (_ & _ & H).
  - intros (G & X & H). destruct p as [g ms].
    destruct (runs_peg_init σ g ms G X (λ s σ', s = Peg.mk g ms ∧ σ' = σ))
      as (s & σ' & E & -> & ->); done.
Qed.

Lemma peg_wf_mono (σ σ' : store) p G X : σ ⊆ σ' → peg_wf σ p G X → peg_wf σ' p G X.
Proof.
  intros Hsub (HG & HX & H). split; [by eapply grid_at_mono|].
  split; [by eapply set_at_mono|done].
Qed.

Lemma fresh_rows_intro (σ0 σ : store) (P : string → Prop) n g G :
  grid_at σ g = Some G → Forall (λ r, σ0 !! r = None) g →
  rect n G → Forall (Forall P) G → fresh_rows σ0 σ P n g.
Proof.
  intros HG%grid_at_Some Hfresh Hrect Hcells. apply Forall_lookup_2.
  intros k r Hr. split; [by eapply (Forall_lookup_1 _ _ _ _ Hfresh)|].
  destruct (Forall2_lookup_l _ _ _ _ _ HG Hr) as (row & Hrow & Hat).
  exists row. split; [done|]. split; [by eapply rect_lookup|].
  by eapply (Forall_lookup_1 _ _ _ _ Hcells).
Qed.

Lemma fresh_rows_grid (σ0 σ : store) (P : string → Prop) n g :
  fresh_rows σ0 σ P n g →
  ∃ G, grid_at σ g = Some G ∧ rect n G ∧ Forall (Forall P) G.
Proof.
  induction 1 as [|r g (_ & row & Hrow & Hlen & Hcells) _ (G & HG & Hrect & HGc)].
  - exists []. split; [done|]. split; constructor.
  - exists (row :: G). split.
    + apply grid_at_Some. constructor; [done|by apply grid_at_Some].
    + split; by constructor.
Qed.

(** A jump on a well-formed instance returns a well-formed instance
    made of new row objects, in a store that extends the old one; when
    no row object occurs twice in the grid, its matrix is the old one
    with the three cells overwritten. *)
Lemma runs_jump σ p G X w1 w2 w3 (Q : Peg.t → store → Prop) :
  peg_wf σ p G X → write_ok G X w1 → write_ok G X w2 → write_ok G X w3 →
  (∀ s σ', σ ⊆ σ' → Peg._marker_set s = Peg._marker_set p →
     (∃ G', peg_wf σ' s G' X) →
     Forall (λ r, σ !! r = None) (Peg._marker s) →
     (NoDup (Peg._marker p) →
        NoDup (Peg._marker s) ∧
        peg_wf σ' s (updw (updw (updw G w1) w2) w3) X) →
     Q s σ') →
  runs (Peg.jump p w1 w2 w3) σ Q.
Proof.
  intros (HG & HX & Hne & Hrect & Hcells & Hm) (Hi1 & Hj1 & Hv1)
    (Hi2 & Hj2 & Hv2) (Hi3 & Hj3 & Hv3) HQ.
  unfold Peg.jump. apply runs_bind. eapply runs_deepcopy; [done|].
  intros g' σ1 Hsub1 HG1 Hfresh Hnd.
  assert (len g' = len G) as Hlen.
  { unfold len. by rewrite (grid_at_length _ _ _ HG1). }
  pose proof (fresh_rows_intro σ σ1 (λ x, x ∈ X) _ g' G HG1 Hfresh Hrect Hcells)
    as Hrows1.
  apply runs_bind.
  eapply runs_setitem2_fresh; [done|done|lia|done|done|]. intros σ2 Hsub2 Hrows2 Hval2.
  apply runs_bind.
  eapply runs_setitem2_fresh; [done|done|lia|done|done|]. intros σ3 Hsub3 Hrows3 Hval3.
  apply runs_bind.
  eapply runs_setitem2_fresh; [done|done|lia|done|done|]. intros σ4 Hsub4 Hrows4 Hval4.
  destruct (fresh_rows_grid _ _ _ _ _ Hrows4) as (G4 & HG4 & Hrect4 & Hcells4).
  assert (G4 ≠ []) as Hne4.
  { intros ->. apply grid_at_length in HG4. unfold len in Hlen.
    destruct G; [done|]. simpl in *. lia. }
  assert (peg_wf σ4 (Peg.mk g' (Peg._marker_set p)) G4 X) as Hwf4.
  { split; [done|]. split; [by eapply set_at_mono|]. split; [done|].
    split; [|done]. by rewrite (rect_ncols _ _ Hrect4 Hne4). }
  eapply runs_peg_init; [done|].
  apply HQ; simpl; [done|done|by exists G4|done|].
  intros Hndp. split; [by apply Hnd|].
  specialize (Hnd Hndp).
  pose proof (Hval4 _ Hnd (Hval3 _ Hnd (Hval2 _ Hnd HG1))) as HG4'.
  assert (G4 = updw (updw (updw G w1) w2) w3) as <-; [|done].
  unfold updw. congruence.
Qed.

(** ** The cells after a jump *)

Lemma cell_upd G i j v r c :
  is_Some (cell G i j) →
  cell (upd G i j v) r c = if decide ((r, c) = (i, j)) then Some v else cell G r c.
Proof.
  intros [c0 Hc0]. case_decide as E.
  - simplify_eq. by eapply cell_upd_eq.
  - apply cell_Some in Hc0 as (? & ? & _). by apply cell_upd_ne.
Qed.

Lemma is_jump_upd G i j di dj wa wb :
  (di, dj) ∈ directions → qualifies G (i, j, (di, dj)) →
  (wa = (i + 2 * di, j + 2 * dj, ".") ∧ wb = (i + di, j + dj, ".") ∨
   wa = (i + di, j + dj, ".") ∧ wb = (i + 2 * di, j + 2 * dj, ".")) →
  is_jump G (i, j, (di, dj)) (updw (updw (updw G (i, j, "*")) wa) wb).
Proof.
  intros Hd (H0 & H1 & H2) Hw. unfold is_jump, updw.
  assert (∀ r c, cell (upd (upd (upd G i j "*") wa.1.1 wa.1.2 wa.2)
                         wb.1.1 wb.1.2 wb.2) r c =
          if decide ((r, c) = (wb.1.1, wb.1.2)) then Some wb.2
          else if decide ((r, c) = (wa.1.1, wa.1.2)) then Some wa.2
          else if decide ((r, c) = (i, j)) then Some "*" else cell G r c) as Hcell.
  { intros r c.
    assert (∀ r c, cell (upd G i j "*") r c =
              if decide ((r, c) = (i, j)) then Some "*" else cell G r c) as E1.
    { intros. by apply cell_upd. }
    assert (∀ r c, cell (upd (upd G i j "*") wa.1.1 wa.1.2 wa.2) r c =
              if decide ((r, c) = (wa.1.1, wa.1.2)) then Some wa.2
              else cell (upd G i j "*") r c) as E2.
    { intros. apply cell_upd. rewrite E1.
      destruct Hw as [[-> ->]|[-> ->]]; simpl; case_decide; eauto. }
    rewrite cell_upd, E2, E1; [done|]. rewrite E2, E1.
    destruct Hw as [[-> ->]|[-> ->]]; simpl; repeat case_decide; eauto. }
  split; [by rewrite !upd_length|].
  assert (di = 0 ∧ (dj = -1 ∨ dj = 1) ∨ dj = 0 ∧ (di = -1 ∨ di = 1)) as Hdir.
  { unfold directions in Hd.
    repeat (apply elem_of_cons in Hd as [Hd|Hd]; [simplify_eq; lia|]).
    by apply elem_of_nil in Hd. }
  rewrite !Hcell.
  repeat split.
  - destruct Hw as [[-> ->]|[-> ->]]; simpl;
      repeat case_decide; simplify_eq; try done; lia.
  - destruct Hw as [[-> ->]|[-> ->]]; simpl;
      repeat case_decide; simplify_eq; try done; lia.
  - destruct Hw as [[-> ->]|[-> ->]]; simpl;
      repeat case_decide; simplify_eq; try done; lia.
  - intros r c Hn0 Hn1 Hn2. rewrite Hcell.
    destruct Hw as [[-> ->]|[-> ->]]; simpl; repeat case_decide; done.
Qed.

(** ** The successor produced for a move *)

Lemma succ_ok_mono p G X (σ σ' : store) mv s :
  σ ⊆ σ' → succ_ok p G X σ mv s → succ_ok p G X σ' mv s.
Proof.
  intros Hsub (Hms & (G1 & HG1) & Hnd). split; [done|]. split.
  - exists G1. by eapply peg_wf_mono.
  - intros Hp. destruct (Hnd Hp) as (? & G2 & ? & ?). split; [done|].
    exists G2. split; [by eapply peg_wf_mono|done].
Qed.

Lemma runs_cell_is σ p G X i j v c (Q : bool → store → Prop) :
  peg_wf σ p G X → cell G i j = Some c → Q (String.eqb c v) σ →
  runs (Peg.cell_is p i j v) σ Q.
Proof.
  intros (HG & _) Hc HQ. unfold Peg.cell_is.
  apply runs_bind. eapply runs_getitem2; [done|done|]. by apply runs_ret.
Qed.

Lemma cell_in_X (G : list (list string)) (X : gset string) i j c :
  Forall (Forall (λ x, x ∈ X)) G → cell G i j = Some c → c ∈ X.
Proof.
  intros H (_ & _ & row & Hrow & Hc)%cell_Some.
  pose proof (Forall_lookup_1 _ _ _ _ H Hrow) as Hr.
  by eapply (Forall_lookup_1 _ _ _ _ Hr).
Qed.

(** The test of one direction, [in bounds and offset 2 is a peg and
    offset 1 is a peg], decides whether the move qualifies. *)
Lemma runs_guard σ p G X i j di dj i1 j1 i2 j2 inb (Q : bool → store → Prop) :
  peg_wf σ p G X → cell G i j = Some "." → (di, dj) ∈ directions →
  i1 = i + di → j1 = j + dj → i2 = i + 2 * di → j2 = j + 2 * dj →
  (inb = true ↔ 0 ≤ i2 < len G ∧ 0 ≤ j2 < Z.of_nat (ncols G)) →
  Q (bool_decide (qualifies G (i, j, (di, dj)))) σ →
  runs (and_then inb
          (pp ← Peg.cell_is p i2 j2 "*"; and_then pp (Peg.cell_is p i1 j1 "*")))
       σ Q.
Proof.
  intros Hwf H0 Hd -> -> -> -> Hinb HQ.
  pose proof Hwf as (HG & HX & Hne & Hrect & Hcells & Hm).
  assert (di = 0 ∧ (dj = -1 ∨ dj = 1) ∨ dj = 0 ∧ (di = -1 ∨ di = 1)) as Hdir.
  { unfold directions in Hd.
    repeat (apply elem_of_cons in Hd as [Hd|Hd]; [simplify_eq; lia|]).
    by apply elem_of_nil in Hd. }
  pose proof (cell_bounds _ _ _ _ _ Hrect H0) as [Hi Hj].
  apply runs_and_then.
  - intros Hb. apply Hinb in Hb as [Hi2 Hj2].
    destruct (cell_is_Some _ G _ _ Hrect Hi2 Hj2) as [c2 Hc2].
    apply runs_bind. eapply runs_cell_is; [done|done|].
    apply runs_and_then.
    + intros ->%String.eqb_eq.
      destruct (cell_is_Some _ G (i + di) (j + dj) Hrect) as [c1 Hc1]; [lia|lia|].
      eapply runs_cell_is; [done|done|].
      replace (String.eqb c1 "*") with (bool_decide (qualifies G (i, j, (di, dj))));
        [done|].
      destruct (String.eqb_spec c1 "*") as [->|Hne1].
      * by apply bool_decide_eq_true.
      * apply bool_decide_eq_false. intros (_ & ? & _). congruence.
    + intros Hne2%String.eqb_neq.
      replace (bool_decide (qualifies G (i, j, (di, dj)))) with false in HQ; [done|].
      symmetry. apply bool_decide_eq_false. intros (_ & _ & ?). congruence.
  - intros Hb.
    replace (bool_decide (qualifies G (i, j, (di, dj)))) with false in HQ; [done|].
    symmetry. apply bool_decide_eq_false. intros (_ & _ & Hc2).
    apply (cell_bounds _ _ _ _ _ Hrect) in Hc2. apply Hinb in Hc2. congruence.
Qed.

(** The jump made when a direction qualifies adds one successor for
    that move to [configs]. *)
Lemma runs_move σ p G X i j di dj w2 w3 (b : bool) configs mvs
    (Q : list Peg.t → store → Prop) :
  peg_wf σ p G X → (di, dj) ∈ directions →
  b = bool_decide (qualifies G (i, j, (di, dj))) →
  (w2 = (i + 2 * di, j + 2 * dj, ".") ∧ w3 = (i + di, j + dj, ".") ∨
   w2 = (i + di, j + dj, ".") ∧ w3 = (i + 2 * di, j + 2 * dj, ".")) →
  Forall2 (succ_ok p G X σ) mvs configs →
  (∀ configs' σ', σ ⊆ σ' →
     Forall2 (succ_ok p G X σ')
       (mvs ++ (if decide (qualifies G (i, j, (di, dj)))
                then [(i, j, (di, dj))] else [])) configs' →
     Q configs' σ') →
  runs (if b then s ← Peg.jump p (i, j, "*") w2 w3; ret (configs ++ [s])
        else ret configs) σ Q.
Proof.
  intros Hwf Hd -> Hw Hconfigs HQ.
  pose proof Hwf as (HG & HX & Hne & Hrect & Hcells & Hm).
  case_bool_decide as Hq.
  - rewrite decide_True in HQ by done.
    pose proof Hq as (H0 & H1 & H2).
    pose proof (cell_bounds _ _ _ _ _ Hrect H0) as [Hi0 Hj0].
    pose proof (cell_bounds _ _ _ _ _ Hrect H1) as [Hi1 Hj1].
    pose proof (cell_bounds _ _ _ _ _ Hrect H2) as [Hi2 Hj2].
    pose proof (cell_in_X _ _ _ _ _ Hcells H0) as Hdot.
    pose proof (cell_in_X _ _ _ _ _ Hcells H1) as Hstar.
    apply runs_bind. eapply runs_jump; [done| | | |].
    { done. }
    { destruct Hw as [[-> _]|[-> _]]; done. }
    { destruct Hw as [[_ ->]|[_ ->]]; done. }
    intros s σ' Hsub Hms Hwfs _ Hnd. apply runs_ret, HQ; [done|].
    apply Forall2_app.
    + eapply Forall2_impl; [done|]. intros mv s'. by apply succ_ok_mono.
    + constructor; [|constructor]. split; [done|]. split; [done|].
      intros Hp. destruct (Hnd Hp) as [Hnds Hwfs']. split; [done|].
      eexists. split; [done|]. by apply is_jump_upd.
  - rewrite decide_False in HQ by done. rewrite app_nil_r in HQ.
    apply runs_ret, HQ; done.
Qed.

Lemma moves_at_two G d1 d2 i j :
  moves_at G [d1; d2] i j =
  (if decide (qualifies G (i, j, d1)) then [(i, j, d1)] else []) ++
  (if decide (qualifies G (i, j, d2)) then [(i, j, d2)] else []).
Proof.
  unfold moves_at. rewrite !filter_cons, filter_nil.
  repeat case_decide; done.
Qed.

Lemma moves_at_not_empty G ds i j :
  cell G i j ≠ Some "." → moves_at G ds i j = [].
Proof.
  intros H. unfold moves_at. induction ds as [|[di dj] ds IH]; [done|].
  rewrite filter_cons, decide_False; [done|]. by intros (? & _).
Qed.

Lemma flat_map_snoc {A B} (f : A → list B) l x :
  flat_map f (l ++ [x]) = flat_map f l ++ f x.
Proof. rewrite flat_map_app. simpl. by rewrite app_nil_r. Qed.

(** ** The two loops *)

Ltac solve_write :=
  first [ left; split; repeat f_equal; lia | right; split; repeat f_equal; lia ].

Lemma runs_row_configs σ p G X (Q : list Peg.t → store → Prop) :
  peg_wf σ p G X →
  (∀ configs σ', σ ⊆ σ' →
     Forall2 (succ_ok p G X σ') (row_moves G) configs → Q configs σ') →
  runs (Peg.row_configs p (len G) (Z.of_nat (ncols G))) σ Q.
Proof.
  intros Hwf HQ. unfold Peg.row_configs, row_moves, dir_moves.
  set (ds := [(0, -1); (0, 1)]).
  eapply runs_mono.
  { apply (runs_for (λ seen configs σ',
      σ ⊆ σ' ∧
      Forall2 (succ_ok p G X σ')
        (flat_map (λ i, flat_map (moves_at G ds i)
                          (range (Z.of_nat (ncols G)))) seen) configs)).
    { split; [done|constructor]. }
    intros seen i rest configs σ1 Hxs [Hsub1 HF1]. cbv beta.
    assert (0 ≤ i < len G) as Hi.
    { apply elem_of_range. rewrite Hxs. apply elem_of_app. right. left. }
    eapply runs_mono.
    { apply (runs_for (λ seenj configs σ',
        σ ⊆ σ' ∧
        Forall2 (succ_ok p G X σ')
          (flat_map (λ i, flat_map (moves_at G ds i)
                            (range (Z.of_nat (ncols G)))) seen
           ++ flat_map (moves_at G ds i) seenj) configs)).
      { simpl. by rewrite app_nil_r. }
      intros seenj j restj configs2 σ2 Hxsj [Hsub2 HF2]. cbv beta.
      assert (0 ≤ j < Z.of_nat (ncols G)) as Hj.
      { apply elem_of_range. rewrite Hxsj. apply elem_of_app. right. left. }
      pose proof (peg_wf_mono _ _ _ _ _ Hsub2 Hwf) as Hwf2.
      pose proof Hwf as (_ & _ & _ & Hrect & _).
      destruct (cell_is_Some _ G i j Hrect Hi Hj) as [c Hc].
      apply runs_bind. eapply runs_cell_is; [done|done|].
      rewrite flat_map_snoc, app_assoc.
      destruct (String.eqb_spec c ".") as [->|Hne].
      - apply runs_bind.
        eapply (runs_guard _ _ _ _ i j 0 (-1)); [done|done|by repeat constructor|lia..| |].
        { rewrite bool_decide_eq_true. lia. }
        apply runs_bind.
        eapply (runs_move _ _ _ _ i j 0 (-1)); [done|by repeat constructor|done|solve_write|done|].
        intros configs3 σ3 Hsub3 HF3.
        pose proof (peg_wf_mono _ _ _ _ _ Hsub3 Hwf2) as Hwf3.
        apply runs_bind.
        eapply (runs_guard _ _ _ _ i j 0 1); [done|done|by repeat constructor|lia..| |].
        { rewrite bool_decide_eq_true. lia. }
        eapply (runs_move _ _ _ _ i j 0 1); [done|by repeat constructor|done|solve_write|done|].
        intros configs4 σ4 Hsub4 HF4.
        split; [by do 2 (etrans; [|done])|].
        unfold ds. by rewrite moves_at_two, app_assoc.
      - apply runs_ret. split; [done|].
        rewrite moves_at_not_empty, app_nil_r; [done|congruence]. }
    intros configs' σ' [? ?]. split; [done|]. by rewrite flat_map_snoc. }
  intros configs σ' [? ?]. by apply HQ.
Qed.

Lemma runs_col_configs σ p G X (Q : list Peg.t → store → Prop) :
  peg_wf σ p G X →
  (∀ configs σ', σ ⊆ σ' →
     Forall2 (succ_ok p G X σ') (col_moves G) configs → Q configs σ') →
  runs (Peg.col_configs p (len G) (Z.of_nat (ncols G))) σ Q.
Proof.
  intros Hwf HQ. unfold Peg.col_configs, col_moves, dir_moves.
  set (ds := [(-1, 0); (1, 0)]).
  eapply runs_mono.
  { apply (runs_for (λ seen configs σ',
      σ ⊆ σ' ∧
      Forall2 (succ_ok p G X σ')
        (flat_map (λ i, flat_map (moves_at G ds i)
                          (range (Z.of_nat (ncols G)))) seen) configs)).
    { split; [done|constructor]. }
    intros seen i rest configs σ1 Hxs [Hsub1 HF1]. cbv beta.
    assert (0 ≤ i < len G) as Hi.
    { apply elem_of_range. rewrite Hxs. apply elem_of_app. right. left. }
    eapply runs_mono.
    { apply (runs_for (λ seenj configs σ',
        σ ⊆ σ' ∧
        Forall2 (succ_ok p G X σ')
          (flat_map (λ i, flat_map (moves_at G ds i)
                            (range (Z.of_nat (ncols G)))) seen
           ++ flat_map (moves_at G ds i) seenj) configs)).
      { simpl. by rewrite app_nil_r. }
      intros seenj j restj configs2 σ2 Hxsj [Hsub2 HF2]. cbv beta.
      assert (0 ≤ j < Z.of_nat (ncols G)) as Hj.
      { apply elem_of_range. rewrite Hxsj. apply elem_of_app. right. left. }
      pose proof (peg_wf_mono _ _ _ _ _ Hsub2 Hwf) as Hwf2.
      pose proof Hwf as (_ & _ & _ & Hrect & _).
      destruct (cell_is_Some _ G i j Hrect Hi Hj) as [c Hc].
      apply runs_bind. eapply runs_cell_is; [done|done|].
      rewrite flat_map_snoc, app_assoc.
      destruct (String.eqb_spec c ".") as [->|Hne].
      - apply runs_bind.
        eapply (runs_guard _ _ _ _ i j (-1) 0); [done|done|by repeat constructor|lia..| |].
        { rewrite bool_decide_eq_true. lia. }
        apply runs_bind.
        eapply (runs_move _ _ _ _ i j (-1) 0); [done|by repeat constructor|done|solve_write|done|].
        intros configs3 σ3 Hsub3 HF3.
        pose proof (peg_wf_mono _ _ _ _ _ Hsub3 Hwf2) as Hwf3.
        apply runs_bind.
        eapply (runs_guard _ _ _ _ i j 1 0); [done|done|by repeat constructor|lia..| |].
        { rewrite bool_decide_eq_true. lia. }
        eapply (runs_move _ _ _ _ i j 1 0); [done|by repeat constructor|done|solve_write|done|].
        intros configs4 σ4 Hsub4 HF4.
        split; [by do 2 (etrans; [|done])|].
        unfold ds. by rewrite moves_at_two, app_assoc.
      - apply runs_ret. split; [done|].
        rewrite moves_at_not_empty, app_nil_r; [done|congruence]. }
    intros configs' σ' [? ?]. split; [done|]. by rewrite flat_map_snoc. }
  intros configs σ' [? ?]. by apply HQ.
Qed.

Lemma runs_peg_extensions σ p G X (Q : list Peg.t → store → Prop) :
  peg_wf σ p G X →
  (∀ succs σ', σ ⊆ σ' →
     Forall2 (succ_ok p G X σ') (row_moves G ++ col_moves G) succs →
     Q succs σ') →
  runs (Peg.extensions p) σ Q.
Proof.
  intros Hwf HQ. pose proof Hwf as (HG & HX & Hne & Hrect & Hcells & Hm).
  unfold Peg.extensions.
  destruct G as [|row0 G']; [done|].
  destruct (grid_at_lookup_r _ _ _ 0%nat _ HG eq_refl) as (r0 & Hr0 & Hrow0).
  assert (len (Peg._marker p) = len (row0 :: G')) as ->.
  { unfold len. by rewrite (grid_at_length _ _ _ HG). }
  apply runs_bind, runs_ret.
  apply runs_bind. eapply runs_lift; [by apply (getitem_lookup _ 0%nat)|].
  apply runs_bind. eapply runs_load_list; [done|].
  apply runs_bind, runs_ret.
  apply runs_bind.
  apply (runs_row_configs _ _ (row0 :: G') X); [done|].
  intros a σ1 Hsub1 Ha.
  apply runs_bind.
  apply (runs_col_configs _ _ (row0 :: G') X); [by eapply peg_wf_mono|].
  intros b σ2 Hsub2 Hb.
  apply runs_ret, HQ; [by etrans|].
  apply Forall2_app; [|done].
  eapply Forall2_impl; [done|]. intros mv s. by apply succ_ok_mono.
Qed.

(** ** The moves found are the legal moves, each once *)

Lemma flat_map_bind {A B} (f : A → list B) (l : list A) : flat_map f l = l ≫= f.
Proof. induction l as [|x l IH]; [done|]. simpl. by rewrite IH. Qed.

Lemma NoDup_range n : NoDup (range n).
Proof.
  unfold range. apply NoDup_fmap_2; [|apply NoDup_seq].
  intros x y. apply Nat2Z.inj.
Qed.

Lemma elem_of_moves_at G ds i j mv :
  mv ∈ moves_at G ds i j ↔ ∃ d, mv = (i, j, d) ∧ d ∈ ds ∧ qualifies G (i, j, d).
Proof.
  unfold moves_at. rewrite list_elem_of_fmap.
  setoid_rewrite list_elem_of_filter.
  split; intros (d & ? & ? & ?); by exists d.
Qed.

Lemma elem_of_dir_moves G ds mv :
  rect (ncols G) G →
  mv ∈ dir_moves G ds ↔ mv.2 ∈ ds ∧ qualifies G mv.
Proof.
  intros Hrect. unfold dir_moves. rewrite flat_map_bind, list_elem_of_bind.
  setoid_rewrite flat_map_bind. setoid_rewrite list_elem_of_bind.
  setoid_rewrite elem_of_moves_at. setoid_rewrite elem_of_range. split.
  - intros (i & (j & (d & -> & Hd & Hq) & Hj) & Hi). done.
  - destruct mv as [[i j] d]. simpl. intros [Hd Hq].
    assert (cell G i j = Some ".") as H0 by (by destruct d, Hq).
    destruct (cell_bounds _ _ _ _ _ Hrect H0) as [Hi Hj].
    exists i. split; [|done]. exists j. split; [|done]. by exists d.
Qed.

Lemma NoDup_dir_moves G ds : NoDup ds → NoDup (dir_moves G ds).
Proof.
  intros Hds. unfold dir_moves. rewrite flat_map_bind. apply NoDup_bind.
  - intros i1 i2 mv _ _. rewrite !flat_map_bind, !list_elem_of_bind.
    setoid_rewrite elem_of_moves_at.
    intros (j1 & (d1 & -> & _) & _) (j2 & (d2 & ? & _) & _). congruence.
  - intros i _. rewrite flat_map_bind. apply NoDup_bind.
    + intros j1 j2 mv _ _. rewrite !elem_of_moves_at.
      intros (d1 & -> & _) (d2 & ? & _). congruence.
    + intros j _. unfold moves_at. apply NoDup_fmap_2.
      * intros d1 d2. congruence.
      * by apply NoDup_filter.
    + apply NoDup_range.
  - apply NoDup_range.
Qed.

Lemma elem_of_peg_moves G mv :
  rect (ncols G) G → mv ∈ row_moves G ++ col_moves G ↔ legal G mv.
Proof.
  intros Hrect. unfold row_moves, col_moves, legal.
  rewrite elem_of_app, !elem_of_dir_moves by done.
  unfold directions. rewrite !elem_of_cons, !elem_of_nil. tauto.
Qed.

Lemma NoDup_peg_moves G : rect (ncols G) G → NoDup (row_moves G ++ col_moves G).
Proof.
  intros Hrect. apply NoDup_app. split; [|split].
  - apply NoDup_dir_moves. by apply (bool_decide_unpack _).
  - intros mv. unfold row_moves, col_moves. rewrite !elem_of_dir_moves by done.
    rewrite !elem_of_cons, !elem_of_nil. intros [[H|[H|[]]] _] [[H'|[H'|[]]] _]; congruence.
  - apply NoDup_dir_moves. by apply (bool_decide_unpack _).
Qed.

Lemma flat_map_nil {A B} (f : A → list B) (l : list A) :
  (∀ x, f x = []) → flat_map f l = [].
Proof. intros H. induction l as [|x l IH]; [done|]. simpl. by rewrite H, IH. Qed.

Lemma peg_moves_nil G :
  (∀ i j, cell G i j ≠ Some ".") → row_moves G ++ col_moves G = [].
Proof.
  intros H.
  assert (∀ ds, dir_moves G ds = []) as E; [|unfold row_moves, col_moves; by rewrite !E].
  intros ds. unfold dir_moves.
  apply flat_map_nil. intros i. apply flat_map_nil. intros j.
  by apply moves_at_not_empty.
Qed.

(** ** Claims about the successors of a peg-solitaire configuration *)

(** X19.  For a valid configuration with matrix [G],
    [extensions] returns one successor per legal move, where a legal
    move is a pair of an empty cell and one of the four directions such
    that the cells at offset 1 and 2 in that direction are in bounds and
    hold pegs; provided no row list object occurs twice in the grid, the
    successor of a move has a peg in the landing cell, the cells at
    offset 1 and 2 empty and every other cell as in [G]; a grid without
    an empty cell has no successor. *)
Theorem peg_extensions_legal_jumps σ p G :
  peg_valid σ p → grid_at σ (Peg._marker p) = Some G →
  ∃ succs σ' moves,
    Peg.extensions p σ = Some (succs, σ') ∧
    NoDup moves ∧ (∀ mv, mv ∈ moves ↔ legal G mv) ∧
    length succs = length moves ∧
    (NoDup (Peg._marker p) →
       Forall2 (λ mv s, ∃ G', grid_at σ' (Peg._marker s) = Some G' ∧
                              is_jump G mv G') moves succs) ∧
    ((∀ i j, cell G i j ≠ Some ".") → succs = []).
Proof.
  intros (G1 & X & Hwf)%peg_valid_wf HG.
  assert (G1 = G) as -> by (destruct Hwf as (? & _); congruence).
  pose proof Hwf as (_ & _ & _ & Hrect & _).
  destruct (runs_peg_extensions σ p G X
    (λ succs σ', Forall2 (succ_ok p G X σ') (row_moves G ++ col_moves G) succs))
    as (succs & σ' & E & HF); [done|done|].
  exists succs, σ', (row_moves G ++ col_moves G).
  split; [done|]. split; [by apply NoDup_peg_moves|].
  split; [intros mv; by apply elem_of_peg_moves|].
  split; [symmetry; by eapply Forall2_length|]. split.
  - intros Hnd. eapply Forall2_impl; [done|]. simpl.
    intros mv s (_ & _ & Hs). destruct (Hs Hnd) as (_ & G' & (HG' & _) & Hj).
    by exists G'.
  - intros Hnone. rewrite peg_moves_nil in HF by done. by inversion HF.
Qed.

Lemma peg_extensions_legal_jumps_witness :
  peg_valid peg_demo_store peg_demo ∧
  grid_at peg_demo_store (Peg._marker peg_demo) = Some [["."; "*"; "*"]] ∧
  ∃ succs σ' moves,
    Peg.extensions peg_demo peg_demo_store = Some (succs, σ') ∧
    NoDup moves ∧ (∀ mv, mv ∈ moves ↔ legal [["."; "*"; "*"]] mv) ∧
    length succs = length moves ∧
    (NoDup (Peg._marker peg_demo) →
       Forall2 (λ mv s, ∃ G', grid_at σ' (Peg._marker s) = Some G' ∧
                              is_jump [["."; "*"; "*"]] mv G') moves succs) ∧
    ((∀ i j, cell [["."; "*"; "*"]] i j ≠ Some ".") → succs = []).
Proof.
  split; [by vm_compute|]. split; [by vm_compute|].
  apply peg_extensions_legal_jumps; by vm_compute.
Defined.

(** C1, at the failing input.  The two rows of the valid configuration
    [peg_shared] are one list object and [copy.deepcopy] keeps that
    sharing in the copy.  The first successor is [* . . / * . .]: the
    jump into cell (0, 0) has also rewritten row 1, so the successor is
    the result of no single jump, which is what the docstring of
    [extensions] promises. *)
Lemma peg_extensions_shared_rows :
  peg_valid peg_demo_store peg_shared ∧
  grid_at peg_demo_store (Peg._marker peg_shared)
    = Some [["."; "*"; "*"]; ["."; "*"; "*"]] ∧
  ∃ s s' σ',
    Peg.extensions peg_shared peg_demo_store = Some ([s; s'], σ') ∧
    grid_at σ' (Peg._marker s) = Some [["*"; "."; "."]; ["*"; "."; "."]] ∧
    ∀ mv, ¬ is_jump [["."; "*"; "*"]; ["."; "*"; "*"]] mv
              [["*"; "."; "."]; ["*"; "."; "."]].
Proof.
  split; [by vm_compute|]. split; [by vm_compute|].
  destruct (Peg.extensions peg_shared peg_demo_store) as [[succs σ']|] eqn:E;
    [|by vm_compute in E].
  vm_compute in E. injection E as <- <-.
  eexists _, _, _. split; [reflexivity|]. split; [by vm_compute|].
  intros [[i j] [di dj]] (_ & _ & _ & _ & Hframe).
  assert (∀ r c, (r, c) ∈ [(0, 0); (0, 1); (0, 2); (1, 0); (1, 1); (1, 2)] →
            (r = i ∧ c = j) ∨ (r = i + di ∧ c = j + dj) ∨
            (r = i + 2 * di ∧ c = j + 2 * dj)) as Hcells.
  { intros r c Hrc.
    destruct (decide ((r, c) = (i, j))) as [|N0]; [simplify_eq; auto|].
    destruct (decide ((r, c) = (i + di, j + dj))) as [|N1]; [simplify_eq; auto|].
    destruct (decide ((r, c) = (i + 2 * di, j + 2 * dj))) as [|N2];
      [simplify_eq; auto|].
    specialize (Hframe r c N0 N1 N2).
    repeat (apply elem_of_cons in Hrc as [Hrc|Hrc];
            [simplify_eq; by vm_compute in Hframe|]).
    by apply elem_of_nil in Hrc. }
  pose proof (Hcells 0 0 ltac:(by repeat constructor)).
  pose proof (Hcells 0 1 ltac:(by repeat constructor)).
  pose proof (Hcells 0 2 ltac:(by repeat constructor)).
  pose proof (Hcells 1 0 ltac:(by repeat constructor)).
  pose proof (Hcells 1 1 ltac:(by repeat constructor)).
  pose proof (Hcells 1 2 ltac:(by repeat constructor)).
  lia.
Qed.

(** ** Counting pegs *)

Lemma pegs_in_snoc row c :
  pegs_in (row ++ [c]) = (pegs_in row + if decide (c = "*") then 1 else 0)%nat.
Proof.
  unfold pegs_in. rewrite filter_app, length_app, filter_cons, filter_nil.
  by case_decide.
Qed.

Lemma count_pegs_snoc G row : count_pegs (G ++ [row]) = (count_pegs G + pegs_in row)%nat.
Proof.
  unfold count_pegs. rewrite fmap_app. simpl.
  induction (pegs_in <$> G) as [|a l IH]; simpl; lia.
Qed.

Lemma pegs_in_zero row : pegs_in row = 0%nat ↔ ∀ j, row !! j ≠ Some "*".
Proof.
  unfold pegs_in. rewrite length_zero_iff_nil. split.
  - intros H j Hj. assert ("*" ∈ filter (λ c, c = "*") row) as Hin.
    { apply list_elem_of_filter. split; [done|]. by eapply list_elem_of_lookup_2. }
    rewrite H in Hin. by apply elem_of_nil in Hin.
  - intros H. induction row as [|c row IH]; [done|].
    rewrite filter_cons. case_decide as Hc.
    + subst c. by specialize (H 0%nat).
    + apply IH. intros j. apply (H (S j)).
Qed.

Lemma pegs_in_cons c row :
  pegs_in (c :: row) = ((if decide (c = "*") then 1 else 0) + pegs_in row)%nat.
Proof. unfold pegs_in. rewrite filter_cons. by case_decide. Qed.

Lemma pegs_in_one row :
  pegs_in row = 1%nat ↔
  ∃ j, row !! j = Some "*" ∧ ∀ j', row !! j' = Some "*" → j' = j.
Proof.
  induction row as [|c row IH].
  { split; [done|]. by intros (j & ? & _). }
  rewrite pegs_in_cons. case_decide as Hc; simpl.
  - subst c. split.
    + intros [= H0]. pose proof (proj1 (pegs_in_zero _) H0) as Hz.
      exists 0%nat. split; [done|].
      intros [|j'] Hj'; [done|]. by apply Hz in Hj'.
    + intros (j & Hj & Huniq). f_equal. apply pegs_in_zero.
      intros j' Hj'. pose proof (Huniq 0%nat eq_refl) as <-.
      by specialize (Huniq (S j') Hj').
  - rewrite IH. split.
    + intros (j & Hj & Huniq). exists (S j). split; [done|].
      intros [|j'] Hj'; simpl in Hj'; [congruence|]. f_equal. by apply Huniq.
    + intros ([|j] & Hj & Huniq); simpl in Hj; [congruence|].
      exists j. split; [done|]. intros j' Hj'.
      by specialize (Huniq (S j') Hj') as [= ->].
Qed.

Lemma sum_list_zero (l : list nat) :
  sum_list l = 0%nat ↔ ∀ k x, l !! k = Some x → x = 0%nat.
Proof.
  induction l as [|a l IH]; simpl.
  { split; [by intros _ k x|done]. }
  split.
  - intros H [|k] x Hk; simpl in Hk; [simplify_eq; lia|].
    eapply IH; [lia|done].
  - intros H. pose proof (H 0%nat a eq_refl) as ->. simpl. apply IH.
    intros k x Hk. by apply (H (S k)).
Qed.

Lemma sum_list_one (l : list nat) :
  sum_list l = 1%nat ↔
  ∃ k, l !! k = Some 1%nat ∧ ∀ k' x, l !! k' = Some x → k' ≠ k → x = 0%nat.
Proof.
  induction l as [|a l IH]; simpl.
  { split; [done|]. by intros (k & ? & _). }
  split.
  - intros H. destruct a as [|[|a]]; simpl in H.
    + apply IH in H as (k & Hk & Hz). exists (S k). split; [done|].
      intros [|k'] x Hk' Hne; simpl in Hk'; [congruence|].
      eapply Hz; [done|congruence].
    + exists 0%nat. split; [done|]. intros [|k'] x Hk' Hne; [done|].
      simpl in Hk'. eapply sum_list_zero; [|done]. lia.
    + lia.
  - intros ([|k] & Hk & Hz); simpl in Hk.
    + simplify_eq. f_equal. apply sum_list_zero. intros k x Hx.
      by apply (Hz (S k)).
    + pose proof (Hz 0%nat a eq_refl ltac:(done)) as ->. simpl.
      apply IH. exists k. split; [done|]. intros k' x Hk' Hne.
      apply (Hz (S k')); [done|congruence].
Qed.

(** The count is 1 exactly when one cell of the matrix holds a peg. *)
Lemma count_pegs_one G :
  count_pegs G = 1%nat ↔
  ∃ i j, cell G i j = Some "*" ∧
         ∀ i' j', cell G i' j' = Some "*" → i' = i ∧ j' = j.
Proof.
  unfold count_pegs. rewrite sum_list_one. split.
  - intros (k & Hk & Hz).
    apply list_lookup_fmap_Some in Hk as (row & Hone & Hrow).
    symmetry in Hone. apply pegs_in_one in Hone as (j & Hj & Huniq).
    exists (Z.of_nat k), (Z.of_nat j). split.
    { apply cell_Some. rewrite !Nat2Z.id. eauto 6 with lia. }
    intros i' j' (Hi' & Hj' & row' & Hrow' & Hc')%cell_Some.
    destruct (decide (Z.to_nat i' = k)) as [E|E].
    + subst k. simplify_eq. apply Huniq in Hc'. lia.
    + exfalso. assert (pegs_in row' = 0%nat) as Hzero.
      { apply (Hz (Z.to_nat i')); [|done]. by rewrite list_lookup_fmap, Hrow'. }
      by apply (proj1 (pegs_in_zero _) Hzero (Z.to_nat j')).
  - intros (i & j & (Hi & Hj & row & Hrow & Hc)%cell_Some & Huniq).
    exists (Z.to_nat i). split.
    + rewrite list_lookup_fmap, Hrow. simpl. f_equal. apply pegs_in_one.
      exists (Z.to_nat j). split; [done|]. intros j' Hj'.
      destruct (Huniq i (Z.of_nat j')) as [_ E]; [|lia].
      apply cell_Some. rewrite Nat2Z.id. eauto 6 with lia.
    + intros k' x Hk' Hne.
      apply list_lookup_fmap_Some in Hk' as (row' & -> & Hrow').
      apply pegs_in_zero. intros j' Hj'.
      destruct (Huniq (Z.of_nat k') (Z.of_nat j')) as [E _]; [|lia].
      apply cell_Some. rewrite !Nat2Z.id. eauto 6 with lia.
Qed.

Lemma range_split n seen (x : Z) rest :
  range n = seen ++ x :: rest →
  x = Z.of_nat (length seen) ∧ (length seen < Z.to_nat n)%nat.
Proof.
  intros H.
  assert (range n !! length seen = Some x) as Hx.
  { by rewrite H, list_lookup_middle. }
  unfold range in Hx. apply list_lookup_fmap_Some in Hx as (k & -> & Hk).
  apply lookup_seq in Hk as [-> ?]. done.
Qed.

Lemma length_range n : length (range n) = Z.to_nat n.
Proof. unfold range. by rewrite length_fmap, length_seq. Qed.

(** the counting loops of [is_solved] *)
Lemma runs_count_pegs σ p G X (Q : Z → store → Prop) :
  peg_wf σ p G X → Q (Z.of_nat (count_pegs G)) σ →
  runs (for_ (range (len G)) (λ i count,
          for_ (range (Z.of_nat (ncols G))) (λ j count,
            b ← Peg.cell_is p i j "*";
            ret (if b then count + 1 else count)) count) 0) σ Q.
Proof.
  intros Hwf HQ. pose proof Hwf as (HG & _ & _ & Hrect & _).
  eapply runs_mono.
  { apply (runs_for (λ seen count σ',
      σ' = σ ∧ count = Z.of_nat (count_pegs (take (length seen) G)))).
    { done. }
    intros seen i rest count σ1 Hxs [-> ->]. cbv beta.
    apply range_split in Hxs as [-> Hlt]. unfold len in Hlt.
    rewrite Nat2Z.id in Hlt.
    destruct (lookup_lt_is_Some_2 G (length seen) Hlt) as [row Hrow].
    pose proof (rect_lookup _ _ _ _ Hrect Hrow) as Hlen.
    eapply runs_mono.
    { apply (runs_for (λ seenj count σ',
        σ' = σ ∧
        count = Z.of_nat (count_pegs (take (length seen) G)
                          + pegs_in (take (length seenj) row)))).
      { split; [done|]. simpl. f_equal. unfold pegs_in. rewrite take_0. simpl. lia. }
      intros seenj j restj count2 σ2 Hxsj [-> ->]. cbv beta.
      apply range_split in Hxsj as [-> Hltj]. rewrite Nat2Z.id in Hltj.
      destruct (lookup_lt_is_Some_2 row (length seenj)) as [c Hc]; [lia|].
      apply runs_bind. eapply runs_cell_is; [done| |].
      { apply cell_Some. rewrite !Nat2Z.id. eauto 6 with lia. }
      apply runs_ret. split; [done|].
      rewrite length_app. simpl. rewrite Nat.add_1_r, (take_S_r _ _ _ Hc).
      rewrite pegs_in_snoc.
      destruct (String.eqb_spec c "*") as [->|Hne].
      - rewrite decide_True by done. lia.
      - rewrite decide_False by done. lia. }
    intros count' σ' [-> ->]. split; [done|].
    rewrite length_app. simpl. rewrite Nat.add_1_r, (take_S_r _ _ _ Hrow).
    rewrite count_pegs_snoc, length_range, Nat2Z.id, <-Hlen, firstn_all. done. }
  simpl. intros count σ' [-> ->].
  rewrite length_range. unfold len. by rewrite Nat2Z.id, firstn_all.
Qed.

(** C4.  For a valid configuration with matrix [G], [is_solved] returns
    [True] if and only if exactly one cell of [G] holds a peg, whatever
    the other cells hold; the store is left as it is. *)
Theorem peg_is_solved_iff σ p G :
  peg_valid σ p → grid_at σ (Peg._marker p) = Some G →
  ∃ b, Peg.is_solved p σ = Some (b, σ) ∧
       (b = true ↔
        ∃ i j, cell G i j = Some "*" ∧
               ∀ i' j', cell G i' j' = Some "*" → i' = i ∧ j' = j).
Proof.
  intros (G1 & X & Hwf)%peg_valid_wf HG.
  assert (G1 = G) as -> by (destruct Hwf as (? & _); congruence).
  pose proof Hwf as (_ & _ & Hne & _).
  cut (runs (Peg.is_solved p) σ
         (λ b σ', σ' = σ ∧ b = bool_decide (count_pegs G = 1%nat))).
  { intros (b & σ' & E & -> & ->). eexists. split; [done|].
    by rewrite bool_decide_eq_true, count_pegs_one. }
  unfold Peg.is_solved.
  destruct G as [|row0 G']; [done|].
  destruct (grid_at_lookup_r _ _ _ 0%nat _ HG eq_refl) as (r0 & Hr0 & Hrow0).
  assert (len (Peg._marker p) = len (row0 :: G')) as ->.
  { unfold len. by rewrite (grid_at_length _ _ _ HG). }
  apply runs_bind, runs_ret.
  apply runs_bind. eapply runs_lift; [by apply (getitem_lookup _ 0%nat)|].
  apply runs_bind. eapply runs_load_list; [done|].
  apply runs_bind, runs_ret.
  apply runs_bind.
  apply (runs_count_pegs _ _ (row0 :: G') X); [done|].
  apply runs_ret. split; [done|].
  apply bool_decide_ext. lia.
Qed.

Lemma peg_is_solved_iff_witness :
  peg_valid peg_demo_store peg_demo ∧
  grid_at peg_demo_store (Peg._marker peg_demo) = Some [["."; "*"; "*"]] ∧
  ∃ b, Peg.is_solved peg_demo peg_demo_store = Some (b, peg_demo_store) ∧
       (b = true ↔
        ∃ i j, cell [["."; "*"; "*"]] i j = Some "*" ∧
               ∀ i' j', cell [["."; "*"; "*"]] i' j' = Some "*" → i' = i ∧ j' = j).
Proof.
  split; [by vm_compute|]. split; [by vm_compute|].
  apply peg_is_solved_iff; by vm_compute.
Defined.

(** ** The peg count after a jump *)

Lemma pegs_in_insert row (j : nat) c v :
  row !! j = Some c →
  (pegs_in (<[j:=v]> row) + (if decide (c = "*") then 1 else 0) =
   pegs_in row + (if decide (v = "*") then 1 else 0))%nat.
Proof.
  revert j. induction row as [|a row IH]; intros [|j] Hj; simplify_eq/=.
  - rewrite !pegs_in_cons. lia.
  - rewrite !pegs_in_cons. specialize (IH _ Hj). lia.
Qed.

Lemma count_pegs_alter G (i : nat) row f :
  G !! i = Some row →
  (count_pegs (alter f i G) + pegs_in row = count_pegs G + pegs_in (f row))%nat.
Proof.
  unfold count_pegs.
  revert i. induction G as [|a G IH]; intros [|i] Hi; simplify_eq/=.
  - lia.
  - specialize (IH _ Hi). lia.
Qed.

Lemma count_pegs_upd G i j v c :
  cell G i j = Some c →
  (count_pegs (upd G i j v) + (if decide (c = "*") then 1 else 0) =
   count_pegs G + (if decide (v = "*") then 1 else 0))%nat.
Proof.
  intros (_ & _ & row & Hrow & Hc)%cell_Some. unfold upd.
  pose proof (count_pegs_alter G _ row (λ row, <[Z.to_nat j:=v]> row) Hrow).
  pose proof (pegs_in_insert row _ c v Hc). simpl in *. lia.
Qed.

(** a matrix is determined by its number of rows and its cells *)
Lemma grid_ext (G1 G2 : list (list string)) :
  length G1 = length G2 → (∀ r c, cell G1 r c = cell G2 r c) → G1 = G2.
Proof.
  intros Hlen Hcell. apply list_eq. intros k.
  assert (∀ G c, cell G (Z.of_nat k) (Z.of_nat c) = G !! k ≫= (λ row, row !! c)) as E.
  { intros G c. unfold cell. rewrite bool_decide_true by lia. by rewrite !Nat2Z.id. }
  destruct (G1 !! k) as [row1|] eqn:E1, (G2 !! k) as [row2|] eqn:E2.
  - f_equal. apply list_eq. intros c.
    specialize (Hcell (Z.of_nat k) (Z.of_nat c)). by rewrite !E, E1, E2 in Hcell.
  - apply lookup_lt_Some in E1. apply lookup_ge_None in E2. lia.
  - apply lookup_lt_Some in E2. apply lookup_ge_None in E1. lia.
  - done.
Qed.

Lemma is_jump_unique G mv G1 G2 : is_jump G mv G1 → is_jump G mv G2 → G1 = G2.
Proof.
  destruct mv as [[i j] [di dj]].
  intros (L1 & A1 & B1 & C1 & F1) (L2 & A2 & B2 & C2 & F2).
  apply grid_ext; [congruence|]. intros r c.
  destruct (decide ((r, c) = (i, j))) as [|N0]; [simplify_eq; congruence|].
  destruct (decide ((r, c) = (i + di, j + dj))) as [|N1]; [simplify_eq; congruence|].
  destruct (decide ((r, c) = (i + 2 * di, j + 2 * dj))) as [|N2];
    [simplify_eq; congruence|].
  by rewrite F1, F2.
Qed.

(** A legal jump removes exactly one peg and keeps the dimensions. *)
Lemma is_jump_count G mv G' :
  legal G mv → is_jump G mv G' →
  (count_pegs G' + 1 = count_pegs G)%nat ∧ length G' = length G ∧
  (∀ n, rect n G → rect n G').
Proof.
  destruct mv as [[i j] [di dj]]. intros [Hd Hq] Hj. simpl in Hd.
  pose proof Hq as (H0 & H1 & H2).
  pose proof (is_jump_upd G i j di dj (i + 2 * di, j + 2 * dj, ".")
                (i + di, j + dj, ".") Hd Hq ltac:(by left)) as Hj'.
  rewrite (is_jump_unique _ _ _ _ Hj Hj'). unfold updw. simpl.
  assert (di = 0 ∧ (dj = -1 ∨ dj = 1) ∨ dj = 0 ∧ (di = -1 ∨ di = 1)) as Hdir.
  { unfold directions in Hd.
    repeat (apply elem_of_cons in Hd as [Hd|Hd]; [simplify_eq; lia|]).
    by apply elem_of_nil in Hd. }
  split; [|split].
  - pose proof (count_pegs_upd G i j "*" _ H0) as E1.
    assert (cell (upd G i j "*") (i + 2 * di) (j + 2 * dj) = Some "*") as H2'.
    { rewrite cell_upd by eauto. rewrite decide_False; [done|].
      intros ?; simplify_eq; lia. }
    pose proof (count_pegs_upd _ _ _ "." _ H2') as E2.
    assert (cell (upd (upd G i j "*") (i + 2 * di) (j + 2 * dj) ".")
              (i + di) (j + dj) = Some "*") as H1'.
    { rewrite cell_upd by eauto. rewrite decide_False by (intros ?; simplify_eq; lia).
      rewrite cell_upd by eauto. rewrite decide_False; [done|].
      intros ?; simplify_eq; lia. }
    pose proof (count_pegs_upd _ _ _ "." _ H1') as E3.
    rewrite !decide_True in * by done.
    rewrite !decide_False in * by done. lia.
  - by rewrite !upd_length.
  - intros n Hn. by do 3 apply rect_upd.
Qed.

Lemma peg_successors σ p G :
  peg_valid σ p → grid_at σ (Peg._marker p) = Some G → NoDup (Peg._marker p) →
  ∃ succs σ', Peg.extensions p σ = Some (succs, σ') ∧ σ ⊆ σ' ∧
    ∀ s, s ∈ succs →
      peg_valid σ' s ∧ NoDup (Peg._marker s) ∧
      Peg._marker_set s = Peg._marker_set p ∧
      set_at σ' (Peg._marker_set s) = set_at σ (Peg._marker_set p) ∧
      ∃ G', grid_at σ' (Peg._marker s) = Some G' ∧
            (count_pegs G' + 1 = count_pegs G)%nat ∧
            length G' = length G ∧ ncols G' = ncols G.
Proof.
  intros (G1 & X & Hwf)%peg_valid_wf HG Hnd.
  assert (G1 = G) as -> by (destruct Hwf as (? & _); congruence).
  pose proof Hwf as (_ & HX & Hne & Hrect & _).
  destruct (runs_peg_extensions σ p G X
    (λ succs σ', σ ⊆ σ' ∧
       Forall2 (succ_ok p G X σ') (row_moves G ++ col_moves G) succs))
    as (succs & σ' & E & Hsub & HF); [done|done|].
  exists succs, σ'. split; [done|]. split; [done|].
  intros s (k & Hk)%list_elem_of_lookup.
  destruct (Forall2_lookup_r _ _ _ _ _ HF Hk) as (mv & Hmv & Hms & _ & Hs).
  destruct (Hs Hnd) as (Hnds & G' & Hwf' & Hj).
  assert (legal G mv) as Hlegal.
  { apply elem_of_peg_moves; [done|]. by eapply list_elem_of_lookup_2. }
  destruct (is_jump_count _ _ _ Hlegal Hj) as (Hcount & Hlen & Hr).
  split; [apply peg_valid_wf; by exists G', X|]. split; [done|]. split; [done|].
  pose proof Hwf' as (HG' & HX' & Hne' & _).
  split; [by rewrite HX', HX|].
  exists G'. split; [done|]. split; [done|]. split; [done|].
  apply rect_ncols; [by apply Hr|done].
Qed.

Lemma peg_moves_count n :
  ∀ σ p G σn q,
    peg_valid σ p → grid_at σ (Peg._marker p) = Some G → NoDup (Peg._marker p) →
    nsteps peg_move n (σ, p) (σn, q) →
    ∃ Gn, grid_at σn (Peg._marker q) = Some Gn ∧
          (count_pegs Gn + n = count_pegs G)%nat.
Proof.
  induction n as [|n IH]; intros σ p G σn q Hv HG Hnd Hsteps.
  - inversion Hsteps; subst. exists G. split; [done|lia].
  - inversion Hsteps as [|? ? [σ1 s] ? Hstep Hrest]; subst.
    destruct Hstep as (succs & σ' & E & Hs & Hsub). simpl in *.
    destruct (peg_successors σ p G Hv HG Hnd) as (succs' & σ'' & E' & _ & Hall).
    rewrite E in E'. injection E' as <- <-.
    destruct (Hall s Hs) as (Hvs & Hnds & _ & _ & G' & HG' & Hcount & _).
    destruct (IH σ1 s G' σn q) as (Gn & HGn & Hn); [|by eapply grid_at_mono|done|done|].
    { apply peg_valid_wf. apply peg_valid_wf in Hvs as (G2 & X2 & Hwf2).
      exists G2, X2. by eapply peg_wf_mono. }
    exists Gn. split; [done|lia].
Qed.

(** X20.  For a valid configuration [p] in whose grid no row
    list object occurs twice, every successor in [p.extensions()] is a
    valid configuration with exactly one peg fewer than [p], the same
    numbers of rows and columns and the same marker set, and again no
    row object occurs twice in it; hence after a sequence of [n] moves
    the peg count is that of [p] minus [n]. *)
Theorem peg_successor_one_peg_fewer σ p G :
  peg_valid σ p → grid_at σ (Peg._marker p) = Some G → NoDup (Peg._marker p) →
  (∃ succs σ', Peg.extensions p σ = Some (succs, σ') ∧
     ∀ s, s ∈ succs →
       peg_valid σ' s ∧ NoDup (Peg._marker s) ∧
       Peg._marker_set s = Peg._marker_set p ∧
       set_at σ' (Peg._marker_set s) = set_at σ (Peg._marker_set p) ∧
       ∃ G', grid_at σ' (Peg._marker s) = Some G' ∧
             (count_pegs G' + 1 = count_pegs G)%nat ∧
             length G' = length G ∧ ncols G' = ncols G) ∧
  (∀ n σn q, nsteps peg_move n (σ, p) (σn, q) →
     ∃ Gn, grid_at σn (Peg._marker q) = Some Gn ∧
           (count_pegs Gn + n = count_pegs G)%nat).
Proof.
  intros Hv HG Hnd. split.
  - destruct (peg_successors σ p G Hv HG Hnd) as (succs & σ' & E & _ & H).
    by exists succs, σ'.
  - intros n σn q. by apply peg_moves_count.
Qed.

Lemma peg_successor_one_peg_fewer_witness :
  peg_valid peg_demo_store peg_demo ∧
  grid_at peg_demo_store (Peg._marker peg_demo) = Some [["."; "*"; "*"]] ∧
  NoDup (Peg._marker peg_demo) ∧
  (∃ succs σ', Peg.extensions peg_demo peg_demo_store = Some (succs, σ') ∧
     ∀ s, s ∈ succs →
       peg_valid σ' s ∧ NoDup (Peg._marker s) ∧
       Peg._marker_set s = Peg._marker_set peg_demo ∧
       set_at σ' (Peg._marker_set s)
         = set_at peg_demo_store (Peg._marker_set peg_demo) ∧
       ∃ G', grid_at σ' (Peg._marker s) = Some G' ∧
             (count_pegs G' + 1 = count_pegs [["."; "*"; "*"]])%nat ∧
             length G' = length [["."; "*"; "*"]] ∧
             ncols G' = ncols [["."; "*"; "*"]]) ∧
  (∀ n σn q, nsteps peg_move n (peg_demo_store, peg_demo) (σn, q) →
     ∃ Gn, grid_at σn (Peg._marker q) = Some Gn ∧
           (count_pegs Gn + n = count_pegs [["."; "*"; "*"]])%nat).
Proof.
  split; [by vm_compute|]. split; [by vm_compute|].
  split; [by apply (bool_decide_unpack _)|].
  apply peg_successor_one_peg_fewer;
    [by vm_compute|by vm_compute|by apply (bool_decide_unpack _)].
Defined.

(** C9, at the failing input.  On the valid configuration
    [peg_shared], whose two rows are one list object, the first
    successor has two pegs where [peg_shared] has four: the one jump
    has removed a peg from both rows of the copy, which still share
    one list object. *)
Lemma peg_successor_shared_rows :
  peg_valid peg_demo_store peg_shared ∧
  ∃ G s s' σ' G',
    grid_at peg_demo_store (Peg._marker peg_shared) = Some G ∧
    Peg.extensions peg_shared peg_demo_store = Some ([s; s'], σ') ∧
    grid_at σ' (Peg._marker s) = Some G' ∧
    count_pegs G = 4%nat ∧ count_pegs G' = 2%nat.
Proof.
  split; [by vm_compute|].
  destruct (Peg.extensions peg_shared peg_demo_store) as [[succs σ']|] eqn:E;
    [|by vm_compute in E].
  vm_compute in E. injection E as <- <-.
  eexists _, _, _, _, _. split; [by vm_compute|]. split; [reflexivity|].
  split; [by vm_compute|]. split; by vm_compute.
Qed.

(** * The sliding-tile puzzle *)

Lemma runs_rows_like_first g σ (Q : bool → store → Prop) :
  Q (bool_decide (rect (ncols g) g)) σ → runs (MN.rows_like_first g) σ Q.
Proof.
  intros HQ. unfold MN.rows_like_first.
  destruct g as [|r0 g'].
  { apply runs_ret. rewrite bool_decide_true in HQ; [done|constructor]. }
  set (g := r0 :: g') in *. simpl ncols in HQ.
  eapply runs_mono.
  { apply (runs_for (λ seen acc σ',
      σ' = σ ∧ acc = bool_decide (rect (length r0) seen))).
    { split; [done|]. symmetry. apply bool_decide_eq_true. constructor. }
    intros seen r rest acc σ1 Hxs [-> ->]. cbv beta.
    apply runs_bind. eapply runs_lift; [by apply (getitem_lookup g 0%nat)|].
    apply runs_ret. split; [done|].
    rewrite <-bool_decide_and. apply bool_decide_ext.
    unfold rect, len. rewrite Forall_app, Forall_singleton.
    split; intros [? ?]; (split; [done|lia]). }
  simpl. by intros b σ' [-> ->].
Qed.

Lemma rows_like_first_eq g σ :
  MN.rows_like_first g σ = Some (bool_decide (rect (ncols g) g), σ).
Proof.
  destruct (runs_rows_like_first g σ
    (λ b σ', b = bool_decide (rect (ncols g) g) ∧ σ' = σ))
    as (b & σ' & E & -> & ->); done.
Qed.

Lemma mn_init_eq f t σ :
  MN.init f t σ =
  if bool_decide (mn_shape_ok f t)
  then Some (MN.mk (len f) (Z.of_nat (ncols f)) f t, σ) else None.
Proof.
  unfold MN.init, bind, mn_shape_ok. destruct f as [|r0 f'].
  { rewrite (bool_decide_false ([] ≠ [] ∧ _)) by (by intros (? & _)). done. }
  rewrite (bool_decide_true (len _ > 0)) by (unfold len; simpl; lia). simpl assert.
  unfold ret at 1. rewrite rows_like_first_eq.
  destruct (bool_decide (rect (ncols (r0 :: f')) (r0 :: f'))) eqn:Ef; simpl assert.
  - unfold ret at 1. rewrite rows_like_first_eq.
    destruct (bool_decide (rect (ncols t) t)) eqn:Et; simpl.
    + apply bool_decide_eq_true in Ef, Et.
      rewrite bool_decide_true by done. done.
    + apply bool_decide_eq_false in Et.
      rewrite bool_decide_false; [done|]. by intros (_ & _ & ?).
  - unfold raise. apply bool_decide_eq_false in Ef.
    rewrite bool_decide_false; [done|]. by intros (_ & ? & _).
Qed.

Lemma mn_valid_iff σ p :
  mn_valid σ p ↔
  mn_shape_ok (MN.from_grid p) (MN.to_grid p) ∧
  MN.n p = len (MN.from_grid p) ∧
  MN.m p = Z.of_nat (ncols (MN.from_grid p)).
Proof.
  unfold mn_valid. rewrite mn_init_eq. destruct p as [n m f t]. simpl.
  case_bool_decide as H.
  - split; [by intros [= <- <-]|]. by intros (_ & -> & ->).
  - split; [done|]. by intros (? & _).
Qed.

Lemma runs_mn_init f t σ (Q : MN.t → store → Prop) :
  mn_shape_ok f t → Q (MN.mk (len f) (Z.of_nat (ncols f)) f t) σ →
  runs (MN.init f t) σ Q.
Proof.
  intros Hok HQ. eexists _, σ. split; [|done].
  by rewrite mn_init_eq, bool_decide_true.
Qed.

(** ** Locating the blank *)

Lemma runs_for_return_miss {A R} (xs : list A) (body : A → M (option R)) σ
    (Q : option R → store → Prop) :
  (∀ x, x ∈ xs → body x σ = Some (None, σ)) → Q None σ →
  runs (for_return xs body) σ Q.
Proof.
  intros Hall HQ. induction xs as [|x xs IH]; simpl.
  - by apply runs_ret.
  - apply runs_bind. exists None, σ. split; [apply Hall; by left|].
    apply IH. intros y Hy. apply Hall. by right.
Qed.

Lemma runs_for_return_hit {A R} (seen : list A) x rest
    (body : A → M (option R)) σ v (Q : option R → store → Prop) :
  (∀ y, y ∈ seen → body y σ = Some (None, σ)) →
  body x σ = Some (Some v, σ) → Q (Some v) σ →
  runs (for_return (seen ++ x :: rest) body) σ Q.
Proof.
  intros Hall Hx HQ. induction seen as [|y seen IH]; simpl.
  - apply runs_bind. exists (Some v), σ. split; [done|]. by apply runs_ret.
  - apply runs_bind. exists None, σ. split; [apply Hall; by left|].
    apply IH. intros z Hz. apply Hall. by right.
Qed.

Lemma range_split_at n i :
  0 ≤ i < n →
  ∃ seen rest, range n = seen ++ i :: rest ∧ ∀ y, y ∈ seen → 0 ≤ y < i.
Proof.
  intros Hi. exists (take (Z.to_nat i) (range n)), (drop (S (Z.to_nat i)) (range n)).
  split.
  - symmetry. apply take_drop_middle. rewrite range_lookup by lia. f_equal. lia.
  - intros y (k & (Hk & Hlt)%lookup_take_Some)%list_elem_of_lookup_1.
    unfold range in Hk. apply list_lookup_fmap_Some in Hk as (k' & -> & Hk').
    apply lookup_seq in Hk' as [-> ?]. lia.
Qed.

Lemma mn_probe G i j c σ :
  cell G i j = Some c →
  (row ← lift (getitem G i); c ← lift (getitem row j);
   ret (if String.eqb c "*" then Some (i, j) else None)) σ
  = Some (if String.eqb c "*" then Some (i, j) else None, σ).
Proof.
  intros (Hi & Hj & row & Hrow & Hc)%cell_Some.
  unfold bind. rewrite <-(Z2Nat.id i) at 1 by done.
  rewrite (getitem_lookup _ _ _ Hrow). simpl.
  rewrite <-(Z2Nat.id j) at 1 by done.
  by rewrite (getitem_lookup _ _ _ Hc).
Qed.

Lemma runs_index_of_space σ p i j (Q : option (Z * Z) → store → Prop) :
  mn_valid σ p → one_blank (MN.from_grid p) i j →
  Q (Some (i, j)) σ → runs (MN.index_of_space p) σ Q.
Proof.
  intros ((Hne & Hrect & _) & Hn & Hm)%mn_valid_iff [Hb Huniq] HQ.
  unfold MN.index_of_space. rewrite Hn, Hm.
  set (G := MN.from_grid p) in *.
  destruct (cell_bounds _ _ _ _ _ Hrect Hb) as [Hi Hj].
  destruct (range_split_at _ _ Hi) as (seen & rest & -> & Hseen).
  destruct (range_split_at _ _ Hj) as (seenj & restj & Ej & Hseenj).
  assert (∀ i' j', 0 ≤ i' < len G → 0 ≤ j' < Z.of_nat (ncols G) →
            (i', j') ≠ (i, j) →
            (row ← lift (getitem G i'); c ← lift (getitem row j');
             ret (if String.eqb c "*" then Some (i', j') else None)) σ
            = Some (None, σ)) as Hmiss.
  { intros i' j' Hi' Hj' Hne'.
    destruct (cell_is_Some _ G i' j' Hrect Hi' Hj') as [c Hc].
    rewrite (mn_probe _ _ _ _ _ Hc).
    destruct (String.eqb_spec c "*") as [->|]; [|done].
    destruct (Huniq _ _ Hc) as [-> ->]. done. }
  apply runs_for_return_hit with (v := (i, j)); [| |done].
  - intros i' Hi'. specialize (Hseen _ Hi').
    destruct (runs_for_return_miss (range (Z.of_nat (ncols G)))
      (λ j', row ← lift (getitem G i'); c ← lift (getitem row j');
             ret (if String.eqb c "*" then Some (i', j') else None)) σ
      (λ r σ', r = None ∧ σ' = σ)) as (r & σ' & E & -> & ->); [|done|done].
    intros j' Hj'%elem_of_range. apply Hmiss; [lia|done|].
    intros [= -> _]. lia.
  - rewrite Ej.
    destruct (runs_for_return_hit seenj j restj
      (λ j', row ← lift (getitem G i); c ← lift (getitem row j');
             ret (if String.eqb c "*" then Some (i, j') else None)) σ (i, j)
      (λ r σ', r = Some (i, j) ∧ σ' = σ)) as (r & σ' & E & -> & ->); [| |done|done].
    + intros j' Hj'. specialize (Hseenj _ Hj'). apply Hmiss; [done|lia|].
      intros [= ->]. lia.
    + by rewrite (mn_probe _ _ _ _ _ Hb).
Qed.

(** ** One slide *)

(** [convert_tuple] returns new, pairwise distinct row objects that hold
    the rows of [from_grid]. *)
Lemma runs_convert_tuple σ p (Q : list loc → store → Prop) :
  (∀ g' σ', σ ⊆ σ' → grid_at σ' g' = Some (MN.from_grid p) →
     Forall (λ r, σ !! r = None) g' → NoDup g' → Q g' σ') →
  runs (MN.convert_tuple p) σ Q.
Proof.
  intros HQ. unfold MN.convert_tuple. eapply runs_mono.
  { apply (runs_for (λ seen acc σ',
      σ ⊆ σ' ∧ grid_at σ' acc = Some seen ∧
      Forall (λ r, σ !! r = None) acc ∧ NoDup acc)).
    { split; [done|]. split; [done|]. split; constructor. }
    intros seen x rest acc σ1 _ (Hsub & Hacc & Hfresh & Hnd). cbv beta.
    apply runs_bind, runs_alloc. intros l Hl. apply runs_ret.
    assert (σ1 ⊆ <[l:=OList x]> σ1) as Hsub1 by (by apply insert_subseteq).
    split; [by etrans|]. split; [|split].
    - apply grid_at_Some, Forall2_app.
      + apply grid_at_Some. by eapply grid_at_mono.
      + constructor; [|constructor]. apply row_at_Some, lookup_insert_eq.
    - apply Forall_app. split; [done|]. constructor; [|constructor].
      by eapply lookup_weaken_None.
    - apply NoDup_app. split; [done|]. split; [|apply NoDup_singleton].
      intros r Hr ->%list_elem_of_singleton.
      apply list_elem_of_lookup in Hr as [k Hk].
      destruct (grid_at_lookup _ _ _ _ _ Hacc Hk) as (row & _ & Hrow%row_at_Some).
      congruence. }
  simpl. intros g' σ' (? & ? & ? & ?). by apply HQ.
Qed.

(** [convert_list] reads the rows back; the store only grows. *)
Lemma runs_convert_list σ p g G (Q : list (list string) → store → Prop) :
  grid_at σ g = Some G → (∀ σ', σ ⊆ σ' → Q G σ') →
  runs (MN.convert_list p g) σ Q.
Proof.
  intros HG HQ. unfold MN.convert_list.
  apply runs_bind. eapply runs_deepcopy; [done|].
  intros g' σ' Hsub HG' _ _. eapply runs_load_rows; [done|]. by apply HQ.
Qed.

Lemma runs_slide σ p i j i' j' c v (Q : MN.t → store → Prop) :
  mn_valid σ p →
  cell (MN.from_grid p) i j = Some c → cell (MN.from_grid p) i' j' = Some v →
  (∀ σ', σ ⊆ σ' →
     Q (MN.mk (MN.n p) (MN.m p) (slid (MN.from_grid p) i j i' j' v)
          (MN.to_grid p)) σ') →
  runs (MN.slide p i j i' j') σ Q.
Proof.
  intros ((Hne & Hrect & Hrt) & Hn & Hm)%mn_valid_iff Hc Hv HQ.
  remember (MN.from_grid p) as G eqn:EG.
  destruct (cell_bounds _ _ _ _ _ Hrect Hc) as [Hi Hj].
  destruct (cell_bounds _ _ _ _ _ Hrect Hv) as [Hi' Hj'].
  unfold MN.slide. apply runs_bind, runs_convert_tuple.
  intros g σ1 Hsub1 HG1 Hfresh Hnd. rewrite <-EG in HG1.
  assert (len g = len G) as Hlen.
  { unfold len. f_equal. symmetry. apply (grid_at_length _ _ _ HG1). }
  assert (fresh_rows σ σ1 (λ _, True) (ncols G) g) as Hrows1.
  { eapply fresh_rows_intro; [done|done|done|].
    apply Forall_forall. intros row _. by apply Forall_forall. }
  apply runs_bind. eapply runs_getitem2; [done|done|].
  apply runs_bind.
  eapply runs_setitem2_fresh; [done|done|lia|done|done|]. intros σ2 Hsub2 Hrows2 Hval2.
  apply runs_bind.
  eapply runs_setitem2_fresh; [done|done|lia|done|done|]. intros σ3 Hsub3 Hrows3 Hval3.
  pose proof (Hval3 _ Hnd (Hval2 _ Hnd HG1)) as HG3.
  apply runs_bind. eapply runs_convert_list; [done|]. intros σ4 Hsub4.
  fold (slid G i j i' j' v).
  assert (length (slid G i j i' j' v) = length G) as HlenG.
  { unfold slid. by rewrite !upd_length. }
  assert (rect (ncols G) (slid G i j i' j' v)) as Hrect'.
  { unfold slid. by do 2 apply rect_upd. }
  assert (slid G i j i' j' v ≠ []) as Hne'.
  { intros E. rewrite E in HlenG. by destruct G. }
  apply runs_mn_init.
  { split; [done|]. split; [|done]. by rewrite (rect_ncols _ _ Hrect' Hne'). }
  rewrite (rect_ncols _ _ Hrect' Hne').
  assert (len (slid G i j i' j' v) = MN.n p) as ->.
  { rewrite Hn. unfold len. by rewrite HlenG. }
  rewrite <-Hm. apply HQ. by etrans.
Qed.

Lemma runs_slide_if σ p i j c (b : bool) configs
    (Q : list MN.t → store → Prop) :
  mn_valid σ p → cell (MN.from_grid p) i j = Some "*" →
  b = bool_decide (in_grid (MN.from_grid p) c) →
  (∀ σ', σ ⊆ σ' →
     Q (configs ++ (slide_to p i j <$> filter (in_grid (MN.from_grid p)) [c]))
       σ') →
  runs (if b then s ← MN.slide p i j c.1 c.2; ret (configs ++ [s])
        else ret configs) σ Q.
Proof.
  intros Hv Hb -> HQ. rewrite filter_cons, filter_nil in HQ.
  case_bool_decide as Hin.
  - rewrite decide_True in HQ by done.
    pose proof Hv as ((_ & Hrect & _) & _)%mn_valid_iff.
    destruct Hin as [Hi Hj].
    destruct (cell_is_Some _ _ _ _ Hrect Hi Hj) as [v Hv'].
    apply runs_bind. eapply runs_slide; [done|done|done|].
    intros σ' Hsub. apply runs_ret.
    specialize (HQ σ' Hsub). simpl in HQ. unfold slide_to in HQ.
    by rewrite Hv' in HQ.
  - rewrite decide_False in HQ by done. simpl in HQ. rewrite app_nil_r in HQ.
    apply runs_ret. by apply HQ.
Qed.

Lemma mn_valid_mono σ σ' p : mn_valid σ p → mn_valid σ' p.
Proof. rewrite !mn_valid_iff. done. Qed.

Lemma runs_mn_extensions σ p i j (Q : list MN.t → store → Prop) :
  mn_valid σ p → one_blank (MN.from_grid p) i j →
  (∀ σ', σ ⊆ σ' → Q (mn_successors p i j) σ') →
  runs (MN.extensions p) σ Q.
Proof.
  intros Hv Hb HQ. pose proof Hv as ((_ & Hrect & _) & Hn & Hm)%mn_valid_iff.
  pose proof Hb as [Hc _].
  destruct (cell_bounds _ _ _ _ _ Hrect Hc) as [Hi Hj].
  unfold MN.extensions, MN.row_configs, MN.col_configs.
  apply runs_bind, runs_bind. eapply runs_index_of_space; [done|done|].
  apply runs_bind, runs_ret. apply runs_bind, runs_ret.
  apply runs_bind.
  apply (runs_slide_if _ _ i j (i, j + 1)); [done|done| |].
  { apply bool_decide_ext. unfold in_grid. simpl. lia. }
  intros σ1 Hsub1.
  apply (runs_slide_if _ _ i j (i, j - 1)); [by eapply mn_valid_mono|done| |].
  { apply bool_decide_ext. unfold in_grid. simpl. lia. }
  intros σ2 Hsub2.
  apply runs_bind, runs_bind.
  eapply runs_index_of_space; [by eapply mn_valid_mono|done|].
  apply runs_bind, runs_ret. apply runs_bind, runs_ret.
  apply runs_bind.
  apply (runs_slide_if _ _ i j (i + 1, j)); [by eapply mn_valid_mono|done| |].
  { apply bool_decide_ext. unfold in_grid. simpl. lia. }
  intros σ3 Hsub3.
  apply (runs_slide_if _ _ i j (i - 1, j)); [by eapply mn_valid_mono|done| |].
  { apply bool_decide_ext. unfold in_grid. simpl. lia. }
  intros σ4 Hsub4. apply runs_ret.
  assert (σ ⊆ σ4) as Hsub by (by do 3 (etrans; [|done])).
  specialize (HQ σ4 Hsub). unfold mn_successors, neighbours in HQ.
  rewrite !filter_cons, filter_nil in *.
  repeat case_decide; simpl in *; exact HQ.
Qed.

(** ** Claims about the sliding-tile puzzle *)

Lemma cell_slid G i j i' j' v r c :
  is_Some (cell G i j) → is_Some (cell G i' j') →
  cell (slid G i j i' j' v) r c =
  if decide ((r, c) = (i', j')) then Some "*"
  else if decide ((r, c) = (i, j)) then Some v else cell G r c.
Proof.
  intros H1 H2. unfold slid. rewrite cell_upd.
  - case_decide; [done|]. by rewrite cell_upd.
  - rewrite cell_upd by done. case_decide; eauto.
Qed.

Lemma slid_is_swap G i j i' j' v :
  cell G i j = Some "*" → cell G i' j' = Some v → (i, j) ≠ (i', j') →
  is_swap G (i, j) (i', j') (slid G i j i' j' v).
Proof.
  intros H1 H2 Hne. split; [unfold slid; by rewrite !upd_length|]. simpl.
  split; [|split].
  - rewrite cell_slid by eauto. rewrite decide_False, decide_True by done. done.
  - rewrite cell_slid by eauto. by rewrite decide_True.
  - intros r c Hn1 Hn2. rewrite cell_slid by eauto.
    by rewrite !decide_False.
Qed.

Lemma neighbours_ne i j c : c ∈ neighbours i j → (i, j) ≠ c.
Proof.
  unfold neighbours. intros Hc.
  repeat (apply elem_of_cons in Hc as [->|Hc]; [intros [=]; lia|]).
  by apply elem_of_nil in Hc.
Qed.

Lemma mn_successors_run σ p i j :
  mn_valid σ p → one_blank (MN.from_grid p) i j →
  ∃ σ', MN.extensions p σ = Some (mn_successors p i j, σ') ∧ σ ⊆ σ'.
Proof.
  intros Hv Hb.
  destruct (runs_mn_extensions σ p i j
    (λ succs σ', succs = mn_successors p i j ∧ σ ⊆ σ') Hv Hb)
    as (succs & σ' & E & -> & Hsub); [done|].
  by exists σ'.
Qed.

(** C3.  For a configuration whose only blank is at [(i, j)],
    [extensions] returns one configuration per in-bounds neighbour of
    the blank, in the order right, left, down, up; its current grid is
    the receiver's with the blank and the neighbour's symbol exchanged
    and every other cell unchanged, and its goal grid is the
    receiver's. *)
Theorem mn_extensions_swaps σ p i j :
  mn_valid σ p → one_blank (MN.from_grid p) i j →
  ∃ succs σ',
    MN.extensions p σ = Some (succs, σ') ∧
    Forall2 (λ c s, is_swap (MN.from_grid p) (i, j) c (MN.from_grid s) ∧
                    MN.to_grid s = MN.to_grid p)
      (filter (in_grid (MN.from_grid p))
         [(i, j + 1); (i, j - 1); (i + 1, j); (i - 1, j)])
      succs.
Proof.
  intros Hv Hb. destruct (mn_successors_run σ p i j Hv Hb) as (σ' & E & _).
  exists (mn_successors p i j), σ'. split; [done|].
  pose proof Hv as ((_ & Hrect & _) & _)%mn_valid_iff. pose proof Hb as [Hc _].
  unfold mn_successors. apply Forall2_fmap_r, Forall_Forall2_diag, Forall_forall.
  intros c [Hin Hnb]%list_elem_of_filter. split; [|done]. simpl.
  destruct Hin as [Hi Hj].
  destruct (cell_is_Some _ _ _ _ Hrect Hi Hj) as [v Hv'].
  rewrite Hv'. simpl. destruct c as [i' j'].
  apply slid_is_swap; [done|done|]. by apply neighbours_ne.
Qed.

Lemma one_blank_demo : one_blank (MN.from_grid mn_demo) 0 0.
Proof.
  split; [done|]. intros i' j' (Hi & Hj & row & Hrow & Hc)%cell_Some.
  simpl in Hrow.
  destruct (Z.to_nat i') as [|[|k]] eqn:Ei; simplify_eq/=;
    destruct (Z.to_nat j') as [|[|[|l]]] eqn:Ej; simplify_eq/=.
  lia.
Qed.

Lemma mn_extensions_swaps_witness :
  mn_valid ∅ mn_demo ∧ one_blank (MN.from_grid mn_demo) 0 0 ∧
  ∃ succs σ',
    MN.extensions mn_demo ∅ = Some (succs, σ') ∧
    Forall2 (λ c s, is_swap (MN.from_grid mn_demo) (0, 0) c (MN.from_grid s) ∧
                    MN.to_grid s = MN.to_grid mn_demo)
      (filter (in_grid (MN.from_grid mn_demo))
         [(0, 0 + 1); (0, 0 - 1); (0 + 1, 0); (0 - 1, 0)])
      succs.
Proof.
  split; [by vm_compute|]. split; [apply one_blank_demo|].
  apply mn_extensions_swaps; [by vm_compute|apply one_blank_demo].
Defined.

(** C5 (amended).  For a configuration whose only blank is at [(i, j)],
    the length of [extensions()] is the number of in-bounds neighbours
    of the blank; when the grid has at least two rows and two columns,
    it is 2 at a corner, 3 on an edge that is not a corner and 4 in the
    interior. *)
Theorem mn_extensions_length σ p i j :
  mn_valid σ p → one_blank (MN.from_grid p) i j →
  ∃ succs σ',
    MN.extensions p σ = Some (succs, σ') ∧
    length succs
      = length (filter (in_grid (MN.from_grid p))
                  [(i, j + 1); (i, j - 1); (i + 1, j); (i - 1, j)]) ∧
    (2 ≤ MN.n p → 2 ≤ MN.m p →
       (on_corner (MN.n p) (MN.m p) i j → length succs = 2%nat) ∧
       (on_edge (MN.n p) (MN.m p) i j → ¬ on_corner (MN.n p) (MN.m p) i j →
          length succs = 3%nat) ∧
       (¬ on_edge (MN.n p) (MN.m p) i j → length succs = 4%nat)).
Proof.
  intros Hv Hb. destruct (mn_successors_run σ p i j Hv Hb) as (σ' & E & _).
  exists (mn_successors p i j), σ'. split; [done|].
  pose proof Hv as ((_ & Hrect & _) & Hn & Hm)%mn_valid_iff. pose proof Hb as [Hc _].
  destruct (cell_bounds _ _ _ _ _ Hrect Hc) as [Hi Hj].
  unfold mn_successors, neighbours. rewrite length_fmap. split; [done|].
  rewrite !filter_cons, filter_nil. unfold in_grid, on_corner, on_edge. simpl.
  rewrite Hn, Hm. intros Hn2 Hm2.
  repeat split; intros; repeat case_decide; simpl; lia.
Qed.

Lemma mn_extensions_length_witness :
  mn_valid ∅ mn_demo ∧ one_blank (MN.from_grid mn_demo) 0 0 ∧
  ∃ succs σ',
    MN.extensions mn_demo ∅ = Some (succs, σ') ∧
    length succs
      = length (filter (in_grid (MN.from_grid mn_demo))
                  [(0, 0 + 1); (0, 0 - 1); (0 + 1, 0); (0 - 1, 0)]) ∧
    (2 ≤ MN.n mn_demo → 2 ≤ MN.m mn_demo →
       (on_corner (MN.n mn_demo) (MN.m mn_demo) 0 0 → length succs = 2%nat) ∧
       (on_edge (MN.n mn_demo) (MN.m mn_demo) 0 0 →
        ¬ on_corner (MN.n mn_demo) (MN.m mn_demo) 0 0 →
          length succs = 3%nat) ∧
       (¬ on_edge (MN.n mn_demo) (MN.m mn_demo) 0 0 → length succs = 4%nat)).
Proof.
  split; [by vm_compute|]. split; [apply one_blank_demo|].
  apply mn_extensions_length; [by vm_compute|apply one_blank_demo].
Defined.

(** C5, counterexample.  In the 1 x 1 grid the blank is at a corner and
    [extensions] returns no configuration, not two. *)
Lemma mn_extensions_single_cell :
  mn_valid ∅ mn_single ∧ one_blank (MN.from_grid mn_single) 0 0 ∧
  on_corner (MN.n mn_single) (MN.m mn_single) 0 0 ∧
  MN.extensions mn_single ∅ = Some ([], ∅).
Proof.
  split; [by vm_compute|].
  split; [|split; [unfold on_corner; simpl; lia|by vm_compute]].
  split; [done|]. intros i' j' (Hi & Hj & row & Hrow & Hc)%cell_Some.
  simpl in Hrow.
  destruct (Z.to_nat i') as [|k] eqn:Ei; simplify_eq/=;
    destruct (Z.to_nat j') as [|l] eqn:Ej; simplify_eq/=.
  lia.
Qed.

(** C6 (amended).  The constructor checks its input: it returns an
    instance exactly when the current grid is not empty, all rows of the
    current grid have the length of its first row and all rows of the
    goal grid have the length of its first row; otherwise it fails.
    Nothing else is checked: a current grid without a blank and a goal
    grid of another shape are accepted. *)
Theorem mn_init_validates f t σ :
  MN.init f t σ =
    (if bool_decide (f ≠ [] ∧ rect (ncols f) f ∧ rect (ncols t) t)
     then Some (MN.mk (len f) (Z.of_nat (ncols f)) f t, σ) else None) ∧
  MN.init [["1"; "2"]] [["1"]; ["2"]; ["*"]] σ
    = Some (MN.mk 1 2 [["1"; "2"]] [["1"]; ["2"]; ["*"]], σ).
Proof. split; [apply mn_init_eq|]. by vm_compute. Qed.

(** C6, counterexample.  The constructor rejects an empty current grid,
    a current grid whose rows differ in length, and a goal grid whose
    rows differ in length. *)
Lemma mn_init_rejects :
  MN.init [] [] ∅ = None ∧
  MN.init [["*"]; ["1"; "2"]] [["*"]; ["1"]] ∅ = None ∧
  MN.init [["*"; "1"]] [["1"]; ["*"; "2"]] ∅ = None.
Proof. by vm_compute. Qed.

(** ** A slide permutes the symbols *)

Lemma insert_Permutation (row : list string) (j : nat) c v :
  row !! j = Some c → c :: <[j:=v]> row ≡ₚ v :: row.
Proof.
  revert j. induction row as [|a row IH]; intros [|j] Hj; simplify_eq/=.
  - apply Permutation_swap.
  - etrans; [apply Permutation_swap|]. etrans; [|apply Permutation_swap].
    by apply Permutation_skip, IH.
Qed.

Lemma concat_upd G i j v c :
  cell G i j = Some c → c :: concat (upd G i j v) ≡ₚ v :: concat G.
Proof.
  intros (_ & _ & row & Hrow & Hc)%cell_Some. unfold upd.
  generalize dependent (Z.to_nat i). intros k.
  revert k. induction G as [|a G IH]; intros [|k] Hk; simplify_eq/=.
  - rewrite !app_comm_cons. by rewrite (insert_Permutation _ _ _ v Hc).
  - rewrite (Permutation_middle a), (Permutation_middle a (concat G)).
    rewrite <-(IH _ Hk).
    by rewrite <-!Permutation_middle.
Qed.

Lemma concat_slid G i j i' j' v :
  cell G i j = Some "*" → cell G i' j' = Some v → (i, j) ≠ (i', j') →
  concat (slid G i j i' j' v) ≡ₚ concat G.
Proof.
  intros H1 H2 Hne. unfold slid.
  pose proof (concat_upd G i j v _ H1) as E1.
  assert (cell (upd G i j v) i' j' = Some v) as H2'.
  { rewrite cell_upd by eauto. by rewrite decide_False by congruence. }
  pose proof (concat_upd _ i' j' "*" _ H2') as E2.
  apply (Permutation_cons_inv (a := v)). by rewrite E2, E1.
Qed.

Lemma one_blank_slid G i j i' j' v :
  one_blank G i j → cell G i' j' = Some v → (i, j) ≠ (i', j') →
  one_blank (slid G i j i' j' v) i' j'.
Proof.
  intros [H1 Huniq] H2 Hne.
  assert (v ≠ "*") as Hv.
  { intros ->. destruct (Huniq _ _ H2) as [-> ->]. done. }
  split.
  - rewrite cell_slid by eauto. by rewrite decide_True.
  - intros r c. rewrite cell_slid by eauto.
    case_decide as E1; [by simplify_eq|].
    case_decide as E2; [intros [= ?]; done|].
    intros Hrc. destruct (Huniq _ _ Hrc) as [-> ->]. done.
Qed.

Lemma slide_to_valid σ p i j c v :
  mn_valid σ p → cell (MN.from_grid p) i j = Some "*" →
  cell (MN.from_grid p) c.1 c.2 = Some v →
  mn_valid σ (slide_to p i j c).
Proof.
  intros ((Hne & Hrect & Hrt) & Hn & Hm)%mn_valid_iff Hb Hc.
  apply mn_valid_iff. unfold slide_to. simpl. rewrite Hc. simpl.
  set (G' := slid (MN.from_grid p) i j c.1 c.2 v).
  assert (length G' = length (MN.from_grid p)) as Hlen.
  { unfold G', slid. by rewrite !upd_length. }
  assert (rect (ncols (MN.from_grid p)) G') as Hrect'.
  { unfold G', slid. by do 2 apply rect_upd. }
  assert (G' ≠ []) as Hne'.
  { intros E. rewrite E in Hlen. by destruct (MN.from_grid p). }
  pose proof (rect_ncols _ _ Hrect' Hne') as Hcols.
  split; [split; [done|split; [|done]]|split].
  - by rewrite Hcols.
  - rewrite Hn. unfold len. by rewrite Hlen.
  - by rewrite Hcols.
Qed.

(** C10.  For a configuration whose current grid has exactly one blank,
    every successor in [extensions()] is again a configuration with
    exactly one blank, has the same dimensions [n] and [m], and its
    current grid holds the same symbols with the same multiplicities as
    the receiver's current grid. *)
Theorem mn_successor_permutes σ p i j :
  mn_valid σ p → one_blank (MN.from_grid p) i j →
  ∃ succs σ',
    MN.extensions p σ = Some (succs, σ') ∧
    ∀ s, s ∈ succs →
      mn_valid σ' s ∧
      (∃ i' j', one_blank (MN.from_grid s) i' j') ∧
      MN.n s = MN.n p ∧ MN.m s = MN.m p ∧
      concat (MN.from_grid s) ≡ₚ concat (MN.from_grid p).
Proof.
  intros Hv Hb. destruct (mn_successors_run σ p i j Hv Hb) as (σ' & E & _).
  exists (mn_successors p i j), σ'. split; [done|].
  pose proof Hv as ((_ & Hrect & _) & _)%mn_valid_iff. pose proof Hb as [Hc _].
  intros s (c & -> & [[Hi Hj] Hnb]%list_elem_of_filter)%list_elem_of_fmap.
  destruct (cell_is_Some _ _ _ _ Hrect Hi Hj) as [v Hv'].
  pose proof (neighbours_ne _ _ _ Hnb) as Hne. destruct c as [i' j'].
  split; [eapply slide_to_valid; [by eapply mn_valid_mono|done|done]|].
  unfold slide_to. simpl in *. rewrite Hv'. simpl.
  split; [exists i', j'; by apply one_blank_slid|].
  split; [done|]. split; [done|]. by apply concat_slid.
Qed.

Lemma mn_successor_permutes_witness :
  mn_valid ∅ mn_demo ∧ one_blank (MN.from_grid mn_demo) 0 0 ∧
  ∃ succs σ',
    MN.extensions mn_demo ∅ = Some (succs, σ') ∧
    ∀ s, s ∈ succs →
      mn_valid σ' s ∧
      (∃ i' j', one_blank (MN.from_grid s) i' j') ∧
      MN.n s = MN.n mn_demo ∧ MN.m s = MN.m mn_demo ∧
      concat (MN.from_grid s) ≡ₚ concat (MN.from_grid mn_demo).
Proof.
  split; [by vm_compute|]. split; [apply one_blank_demo|].
  apply (mn_successor_permutes ∅ mn_demo 0 0); [by vm_compute|apply one_blank_demo].
Defined.

(** * The word ladder *)

Lemma wl_valid_chars σ p : wl_valid σ p ↔ WL._chars p = alphabet.
Proof.
  unfold wl_valid, WL.init, ret. destruct p as [f t ws ch]. simpl. split.
  - by intros [= <-].
  - by intros ->.
Qed.

Lemma list_ascii_of_string_app s1 s2 :
  list_ascii_of_string (s1 +:+ s2) = list_ascii_of_string s1 ++ list_ascii_of_string s2.
Proof. induction s1 as [|a s1 IH]; [done|]. simpl. by rewrite IH. Qed.

Lemma chars_of_inj w1 w2 : chars_of w1 = chars_of w2 → w1 = w2.
Proof.
  unfold chars_of. intros H.
  apply (list_fmap_eq_inj (λ a, String a EmptyString)) in H.
  - rewrite <-(string_of_list_ascii_of_string w1), H.
    apply string_of_list_ascii_of_string.
  - by intros a b [= ->].
Qed.

Lemma length_chars_of w : Z.of_nat (length (chars_of w)) = str_len w.
Proof. unfold chars_of, str_len, len. by rewrite length_fmap. Qed.

(** the word formed at position [i] with the letter [String a ""] *)
Lemma chars_of_substitute p i a :
  0 ≤ i < str_len (WL._from_word p) →
  chars_of (WL.substitute p i (String a EmptyString))
  = <[Z.to_nat i:=String a EmptyString]> (chars_of (WL._from_word p)).
Proof.
  intros Hi. unfold WL.substitute, str_slice_to, str_slice_from, chars_of.
  set (l := list_ascii_of_string (WL._from_word p)).
  assert (Z.to_nat i < length l)%nat as Hlt.
  { unfold str_len, len in Hi. fold l in Hi. lia. }
  rewrite !list_ascii_of_string_app, !list_ascii_of_string_of_list_ascii.
  unfold slice_to, slice_from, slice_start.
  rewrite !bool_decide_true by lia. simpl.
  replace (Z.to_nat (i + 1)) with (S (Z.to_nat i)) by lia.
  rewrite <-(list_fmap_insert (λ a0, String a0 EmptyString) l (Z.to_nat i) a).
  f_equal. symmetry. by apply insert_take_drop.
Qed.

Lemma lowercase_one_char x : lowercase x → ∃ a, x = String a EmptyString.
Proof.
  unfold lowercase, chars_of. intros (a & -> & _)%list_elem_of_fmap. by exists a.
Qed.

Lemma set_of_one_char a :
  set_of_str (String a EmptyString) = {[String a EmptyString]}.
Proof. unfold set_of_str, chars_of. simpl. apply (right_id_L ∅ (∪)). Qed.

Lemma elem_of_set_of_str x s : x ∈ set_of_str s ↔ x ∈ chars_of s.
Proof. unfold set_of_str. apply elem_of_list_to_set. Qed.

Lemma str_getitem_in w i :
  0 ≤ i < str_len w → str_getitem w i = chars_of w !! Z.to_nat i.
Proof.
  intros Hi. unfold str_getitem. apply getitem_in.
  unfold len. by rewrite length_chars_of.
Qed.

Lemma chars_of_lookup w (k : nat) c :
  chars_of w !! k = Some c → ∃ a, c = String a EmptyString.
Proof.
  unfold chars_of. intros (a & -> & _)%list_lookup_fmap_Some. by exists a.
Qed.

Section word_ladder.
(** any order of iteration over a set: an enumeration of its elements *)
Variable iter : gset string → list string.
Hypothesis iter_perm : ∀ X, iter X ≡ₚ elements X.

Lemma runs_letters_at σ p i (Q : list string → store → Prop) :
  0 ≤ i < str_len (WL._from_word p) → Q (wl_letters iter p i) σ →
  runs (WL.letters_at iter p i) σ Q.
Proof.
  intros Hi HQ. unfold WL.letters_at, wl_letters in *.
  destruct (lookup_lt_is_Some_2 (chars_of (WL._from_word p)) (Z.to_nat i))
    as [c Hc]; [pose proof (length_chars_of (WL._from_word p)); lia|].
  rewrite str_getitem_in, Hc in * by done.
  apply runs_bind. eapply runs_lift; [done|]. by apply runs_ret.
Qed.

Lemma runs_wl_inner σ p D i xs (Q : list WL.t → store → Prop) :
  set_at σ (WL._word_set p) = Some D →
  Q (mk_succ p <$> filter (λ w', w' ∈ D) (WL.substitute p i <$> xs)) σ →
  runs (for_ xs (λ x acc,
          b ← WL.contains (WL._word_set p) (WL.substitute p i x);
          if b then
            q ← WL.init (WL.substitute p i x) (WL._to_word p)
                  (WL._word_set p);
            ret (acc ++ [q])
          else ret acc) []) σ Q.
Proof.
  intros HD HQ. eapply runs_mono.
  { apply (runs_for (λ seen acc σ',
      σ' = σ ∧
      acc = mk_succ p <$> filter (λ w', w' ∈ D)
                            (WL.substitute p i <$> seen))).
    { done. }
    intros seen x rest acc σ1 _ [-> ->]. cbv beta.
    apply runs_bind. unfold WL.contains.
    apply runs_bind. eapply runs_load_set; [done|]. apply runs_ret.
    rewrite fmap_app, filter_app, fmap_app. simpl.
    rewrite filter_cons, filter_nil.
    case_bool_decide as Hin.
    - rewrite decide_True by done. apply runs_bind, runs_ret, runs_ret. done.
    - rewrite decide_False by done. apply runs_ret. by rewrite app_nil_r. }
  simpl. by intros acc σ' [-> ->].
Qed.

Lemma runs_wl_extensions σ p D (Q : list WL.t → store → Prop) :
  set_at σ (WL._word_set p) = Some D →
  Q (flat_map (λ i, mk_succ p <$> filter (λ w', w' ∈ D) (wl_candidates_at iter p i))
       (range (str_len (WL._from_word p)))) σ →
  runs (WL.extensions iter p) σ Q.
Proof.
  intros HD HQ. unfold WL.extensions. eapply runs_mono.
  { apply (runs_for (λ seen acc σ',
      σ' = σ ∧
      acc = flat_map (λ i, mk_succ p <$>
               filter (λ w', w' ∈ D) (wl_candidates_at iter p i)) seen)).
    { done. }
    intros seen i rest acc σ1 Hxs [-> ->]. cbv beta.
    assert (0 ≤ i < str_len (WL._from_word p)) as Hi.
    { apply elem_of_range. rewrite Hxs. apply elem_of_app. right. left. }
    apply runs_bind, runs_letters_at; [done|].
    apply runs_bind. eapply runs_wl_inner; [done|].
    apply runs_ret. split; [done|]. by rewrite flat_map_snoc. }
  simpl. by intros acc σ' [-> ->].
Qed.

Lemma runs_wl_candidates σ p (Q : list string → store → Prop) :
  Q (wl_candidates iter p) σ → runs (WL.candidates iter p) σ Q.
Proof.
  intros HQ. unfold WL.candidates. eapply runs_mono.
  { apply (runs_for (λ seen acc σ',
      σ' = σ ∧ acc = flat_map (wl_candidates_at iter p) seen)).
    { done. }
    intros seen i rest acc σ1 Hxs [-> ->]. cbv beta.
    assert (0 ≤ i < str_len (WL._from_word p)) as Hi.
    { apply elem_of_range. rewrite Hxs. apply elem_of_app. right. left. }
    apply runs_bind, runs_letters_at; [done|].
    apply runs_ret. split; [done|]. by rewrite flat_map_snoc. }
  simpl. by intros acc σ' [-> ->].
Qed.

(** the successors are the candidates that are in the word set *)
Lemma wl_successor_words p (D : gset string) (r : list Z) :
  WL._from_word <$>
    flat_map (λ i, mk_succ p <$> filter (λ w', w' ∈ D) (wl_candidates_at iter p i)) r
  = filter (λ w', w' ∈ D) (flat_map (wl_candidates_at iter p) r).
Proof.
  induction r as [|i r IH]; [done|]. simpl.
  rewrite fmap_app, filter_app, IH. f_equal.
  rewrite <-list_fmap_compose. apply list_fmap_id.
Qed.

Lemma elem_of_iter x X : x ∈ iter X ↔ x ∈ X.
Proof. by rewrite iter_perm, elem_of_elements. Qed.

Lemma elem_of_wl_candidates p w' :
  WL._chars p = alphabet →
  w' ∈ wl_candidates iter p ↔ one_letter_changed (WL._from_word p) w'.
Proof.
  intros Hch. unfold wl_candidates, wl_candidates_at, wl_letters.
  rewrite flat_map_bind, list_elem_of_bind. rewrite Hch.
  pose proof (length_chars_of (WL._from_word p)) as Hlen. split.
  - intros (i & (x & -> & Hx)%list_elem_of_fmap & Hi%elem_of_range).
    destruct (lookup_lt_is_Some_2 (chars_of (WL._from_word p)) (Z.to_nat i))
      as [c Hc]; [lia|].
    rewrite str_getitem_in, Hc in Hx by done. simpl in Hx.
    apply elem_of_iter, elem_of_difference in Hx as [Hx Hxc].
    apply elem_of_set_of_str in Hx.
    destruct (chars_of_lookup _ _ _ Hc) as [a0 ->].
    destruct (lowercase_one_char _ Hx) as [a ->].
    rewrite set_of_one_char, elem_of_singleton in Hxc.
    exists (Z.to_nat i), (String a0 EmptyString), (String a EmptyString).
    split; [done|]. split; [done|]. split; [done|].
    by apply chars_of_substitute.
  - intros (k & c & x & Hc & Hx & Hne & Hw').
    pose proof (lookup_lt_Some _ _ _ Hc) as Hk.
    exists (Z.of_nat k).
    split; [|apply elem_of_range; lia].
    apply list_elem_of_fmap. exists x.
    destruct (chars_of_lookup _ _ _ Hc) as [a0 ->].
    destruct (lowercase_one_char _ Hx) as [a ->]. split.
    + apply chars_of_inj. rewrite Hw', chars_of_substitute by lia.
      by rewrite Nat2Z.id.
    + rewrite str_getitem_in, Nat2Z.id, Hc by lia. simpl.
      apply elem_of_iter, elem_of_difference. split.
      * by apply elem_of_set_of_str.
      * by rewrite set_of_one_char, elem_of_singleton.
Qed.
End word_ladder.

Lemma one_letter_changed_differ w w' :
  one_letter_changed w w' → w' ≠ w ∧ differ_at_one w w'.
Proof.
  intros (k & c & x & Hc & _ & Hne & Hw').
  pose proof (lookup_lt_Some _ _ _ Hc) as Hk.
  assert (differ_at_one w w') as Hd.
  { split; [by rewrite Hw', length_insert|]. exists k. intros k'. rewrite Hw'.
    destruct (decide (k' = k)) as [->|Hkk].
    - rewrite list_lookup_insert_eq, Hc by done. split; [done|]. congruence.
    - rewrite list_lookup_insert_ne by done. split; [done|]. done. }
  split; [|done]. intros ->. destruct Hd as (_ & k0 & Hk0).
  by apply (proj2 (Hk0 k0) eq_refl).
Qed.

(** ** Claims about the word ladder *)

(** C2.  For a configuration with word set [D], whatever the iteration
    order of sets: the current words of the puzzles returned by
    [extensions] are exactly the members of [D] obtained from the
    current word by replacing the character at one position with a
    lowercase letter other than that character; no returned puzzle has
    the receiver's current word, each differs from it at exactly one
    position, and each carries the receiver's target word and word set
    (the same set object, which the call leaves as it is). *)
Theorem wl_extensions_one_letter iter σ p D :
  (∀ X, iter X ≡ₚ elements X) →
  wl_valid σ p → set_at σ (WL._word_set p) = Some D →
  ∃ succs,
    WL.extensions iter p σ = Some (succs, σ) ∧
    (∀ w', w' ∈ WL._from_word <$> succs ↔
           w' ∈ D ∧ one_letter_changed (WL._from_word p) w') ∧
    Forall (λ s, WL._from_word s ≠ WL._from_word p ∧
                 differ_at_one (WL._from_word p) (WL._from_word s) ∧
                 WL._to_word s = WL._to_word p ∧
                 WL._word_set s = WL._word_set p ∧
                 wl_valid σ s) succs.
Proof.
  intros Hiter Hv%wl_valid_chars HD.
  destruct (runs_wl_extensions iter σ p D
    (λ succs σ', σ' = σ ∧
       succs = flat_map (λ i, mk_succ p <$>
                 filter (λ w', w' ∈ D) (wl_candidates_at iter p i))
                 (range (str_len (WL._from_word p)))) HD)
    as (succs & σ' & E & -> & Hsuccs); [done|].
  exists succs. split; [done|].
  assert (∀ w', w' ∈ WL._from_word <$> succs ↔
            w' ∈ D ∧ one_letter_changed (WL._from_word p) w') as Hwords.
  { intros w'. rewrite Hsuccs, wl_successor_words, list_elem_of_filter.
    fold (wl_candidates iter p). by rewrite elem_of_wl_candidates. }
  split; [done|]. apply Forall_forall. intros s Hs.
  assert (WL._from_word s ∈ WL._from_word <$> succs) as Hw.
  { apply list_elem_of_fmap. by exists s. }
  apply Hwords in Hw as [_ [Hne Hd]%one_letter_changed_differ].
  rewrite Hsuccs, flat_map_bind in Hs.
  apply list_elem_of_bind in Hs as (i & (w' & -> & _)%list_elem_of_fmap & _).
  split; [done|]. split; [done|]. split; [done|]. split; [done|].
  by apply wl_valid_chars.
Qed.

Lemma wl_extensions_one_letter_witness :
  (∀ X : gset string, elements X ≡ₚ elements X) ∧
  wl_valid wl_demo_store wl_demo ∧
  set_at wl_demo_store (WL._word_set wl_demo)
    = Some {["lame"; "came"; "some"; "word"; "lost"]} ∧
  ∃ succs,
    WL.extensions elements wl_demo wl_demo_store = Some (succs, wl_demo_store) ∧
    (∀ w', w' ∈ WL._from_word <$> succs ↔
           w' ∈ ({["lame"; "came"; "some"; "word"; "lost"]} : gset string) ∧
           one_letter_changed (WL._from_word wl_demo) w') ∧
    Forall (λ s, WL._from_word s ≠ WL._from_word wl_demo ∧
                 differ_at_one (WL._from_word wl_demo) (WL._from_word s) ∧
                 WL._to_word s = WL._to_word wl_demo ∧
                 WL._word_set s = WL._word_set wl_demo ∧
                 wl_valid wl_demo_store s) succs.
Proof.
  split; [done|]. split; [by vm_compute|]. split; [by vm_compute|].
  apply wl_extensions_one_letter; [done|by vm_compute|by vm_compute].
Defined.

(** ** The number of candidates *)

Lemma length_flat_map_le {A B} (f : A → list B) (l : list A) (c : nat) :
  (∀ x, x ∈ l → (length (f x) ≤ c)%nat) →
  (length (flat_map f l) ≤ length l * c)%nat.
Proof.
  induction l as [|x l IH]; intros H; [done|]. simpl. rewrite length_app.
  pose proof (H x ltac:(left)). specialize (IH (λ y Hy, H y ltac:(by right))). lia.
Qed.

Lemma length_flat_map_eq {A B} (f : A → list B) (l : list A) (c : nat) :
  (∀ x, x ∈ l → length (f x) = c) →
  length (flat_map f l) = (length l * c)%nat.
Proof.
  induction l as [|x l IH]; intros H; [done|]. simpl. rewrite length_app.
  pose proof (H x ltac:(left)). specialize (IH (λ y Hy, H y ltac:(by right))). lia.
Qed.

Lemma size_alphabet : size (set_of_str alphabet) = 26%nat.
Proof. by vm_compute. Qed.

Section candidate_count.
Variable iter : gset string → list string.
Hypothesis iter_perm : ∀ X, iter X ≡ₚ elements X.

Lemma length_iter X : length (iter X) = size X.
Proof. by rewrite iter_perm. Qed.

Lemma length_wl_letters_le p i :
  WL._chars p = alphabet → (length (wl_letters iter p i) ≤ 26)%nat.
Proof.
  intros Hch. unfold wl_letters. rewrite length_iter, Hch, <-size_alphabet.
  apply subseteq_size. by intros x [? _]%elem_of_difference.
Qed.

Lemma length_wl_letters_lowercase p i c :
  WL._chars p = alphabet → 0 ≤ i < str_len (WL._from_word p) →
  chars_of (WL._from_word p) !! Z.to_nat i = Some c → lowercase c →
  length (wl_letters iter p i) = 25%nat.
Proof.
  intros Hch Hi Hc Hlow. unfold wl_letters.
  rewrite length_iter, Hch, str_getitem_in, Hc by done. simpl.
  destruct (lowercase_one_char _ Hlow) as [a ->].
  rewrite set_of_one_char, size_difference, size_alphabet, size_singleton; [done|].
  apply singleton_subseteq_l. by apply elem_of_set_of_str.
Qed.

Lemma length_wl_candidates p :
  WL._chars p = alphabet →
  (length (wl_candidates iter p) ≤ 26 * length (chars_of (WL._from_word p)))%nat ∧
  (Forall lowercase (chars_of (WL._from_word p)) →
   length (wl_candidates iter p)
     = (25 * length (chars_of (WL._from_word p)))%nat).
Proof.
  intros Hch. unfold wl_candidates.
  pose proof (length_chars_of (WL._from_word p)) as Hlen.
  assert (length (range (str_len (WL._from_word p)))
          = length (chars_of (WL._from_word p))) as Hr.
  { rewrite length_range. lia. }
  split.
  - rewrite Nat.mul_comm, <-Hr. apply length_flat_map_le.
    intros i _. unfold wl_candidates_at. rewrite length_fmap.
    by apply length_wl_letters_le.
  - intros Hall. rewrite Nat.mul_comm, <-Hr. apply length_flat_map_eq.
    intros i Hi%elem_of_range. unfold wl_candidates_at. rewrite length_fmap.
    destruct (lookup_lt_is_Some_2 (chars_of (WL._from_word p)) (Z.to_nat i))
      as [c Hc]; [lia|].
    eapply length_wl_letters_lowercase; [done|done|done|].
    by eapply (Forall_lookup_1 _ _ _ _ Hall).
Qed.
End candidate_count.

(** C7 (amended).  For a configuration with word set [D], whatever the
    iteration order of sets: one call of [extensions] forms and tests
    at most 26 candidate words per character of the current word, and
    exactly 25 per character when every character of the current word
    is a lowercase letter; the returned puzzles are the candidates that
    are in [D], so there are at most as many. *)
Theorem wl_candidates_bound iter σ p D :
  (∀ X, iter X ≡ₚ elements X) →
  wl_valid σ p → set_at σ (WL._word_set p) = Some D →
  ∃ cands succs,
    WL.candidates iter p σ = Some (cands, σ) ∧
    WL.extensions iter p σ = Some (succs, σ) ∧
    WL._from_word <$> succs = filter (λ w', w' ∈ D) cands ∧
    (length succs ≤ length cands)%nat ∧
    (length cands ≤ 26 * length (chars_of (WL._from_word p)))%nat ∧
    (Forall lowercase (chars_of (WL._from_word p)) →
     length cands = (25 * length (chars_of (WL._from_word p)))%nat).
Proof.
  intros Hiter Hv%wl_valid_chars HD.
  destruct (runs_wl_extensions iter σ p D
    (λ succs σ', σ' = σ ∧
       succs = flat_map (λ i, mk_succ p <$>
                 filter (λ w', w' ∈ D) (wl_candidates_at iter p i))
                 (range (str_len (WL._from_word p)))) HD)
    as (succs & σ' & E & -> & Hsuccs); [done|].
  destruct (runs_wl_candidates iter σ p
    (λ cands σ', σ' = σ ∧ cands = wl_candidates iter p))
    as (cands & σ' & Ec & -> & ->); [done|].
  exists (wl_candidates iter p), succs. split; [done|]. split; [done|].
  assert (WL._from_word <$> succs
          = filter (λ w', w' ∈ D) (wl_candidates iter p)) as Hwords.
  { rewrite Hsuccs. apply wl_successor_words. }
  split; [done|]. split.
  - rewrite <-(length_fmap WL._from_word), Hwords. apply length_filter.
  - by apply length_wl_candidates.
Qed.

Lemma wl_candidates_bound_witness :
  (∀ X : gset string, elements X ≡ₚ elements X) ∧
  wl_valid wl_demo_store wl_demo ∧
  set_at wl_demo_store (WL._word_set wl_demo)
    = Some {["lame"; "came"; "some"; "word"; "lost"]} ∧
  ∃ cands succs,
    WL.candidates elements wl_demo wl_demo_store = Some (cands, wl_demo_store) ∧
    WL.extensions elements wl_demo wl_demo_store = Some (succs, wl_demo_store) ∧
    WL._from_word <$> succs
      = filter (λ w', w' ∈ ({["lame"; "came"; "some"; "word"; "lost"]}
                            : gset string)) cands ∧
    (length succs ≤ length cands)%nat ∧
    (length cands ≤ 26 * length (chars_of (WL._from_word wl_demo)))%nat ∧
    (Forall lowercase (chars_of (WL._from_word wl_demo)) →
     length cands = (25 * length (chars_of (WL._from_word wl_demo)))%nat).
Proof.
  split; [done|]. split; [by vm_compute|]. split; [by vm_compute|].
  apply wl_candidates_bound; [done|by vm_compute|by vm_compute].
Defined.

(** C7, counterexample.  The current word "A" has one character; 26
    candidates are formed and tested and, all being in the word set, 26
    puzzles are returned: more than 25 times the length. *)
Lemma wl_candidates_uppercase :
  wl_valid wl_upper_store wl_upper ∧
  length (chars_of (WL._from_word wl_upper)) = 1%nat ∧
  ∃ cands succs,
    WL.candidates elements wl_upper wl_upper_store = Some (cands, wl_upper_store) ∧
    WL.extensions elements wl_upper wl_upper_store = Some (succs, wl_upper_store) ∧
    length cands = 26%nat ∧ length succs = 26%nat.
Proof.
  split; [by vm_compute|]. split; [by vm_compute|].
  destruct (WL.candidates elements wl_upper wl_upper_store)
    as [[cands σ1]|] eqn:Ec; [|by vm_compute in Ec].
  destruct (WL.extensions elements wl_upper wl_upper_store)
    as [[succs σ2]|] eqn:Ee; [|by vm_compute in Ee].
  vm_compute in Ec, Ee. injection Ec as <- <-. injection Ee as <- <-.
  eexists _, _. split; [reflexivity|]. split; [reflexivity|]. by vm_compute.
Qed.

(** * The receiver is not modified *)

Lemma reads_keeps σ0 {A} (m : M A) : reads m → keeps σ0 m.
Proof. intros Hm σ a σ' Hsub E. by destruct (Hm _ _ _ E) as [-> _]. Qed.

Lemma reads_ret {A} (a : A) : reads (ret a).
Proof. intros σ b σ1 [-> ->]%ret_inv. done. Qed.

Lemma reads_lift {A} (o : option A) : reads (lift o).
Proof.
  intros σ b σ1 [-> ->]%lift_inv. split; [done|]. done.
Qed.

Lemma reads_assert b : reads (assert b).
Proof. intros σ u σ1 [-> ->]%assert_inv. split; [done|]. by destruct u. Qed.

Lemma reads_load_list l : reads (load_list l).
Proof.
  intros σ xs σ1 [-> H]%load_list_inv. split; [done|]. intros σ' Hsub.
  eapply row_at_mono in H; [|done]. apply row_at_Some in H.
  unfold load_list. by rewrite H.
Qed.

Lemma reads_load_set l : reads (load_set l).
Proof.
  intros σ X σ1 [-> H]%load_set_inv. split; [done|]. intros σ' Hsub.
  eapply set_at_mono in H; [|done]. apply set_at_Some in H.
  unfold load_set. by rewrite H.
Qed.

Lemma reads_bind {A B} (m : M A) (k : A → M B) :
  reads m → (∀ a, reads (k a)) → reads (bind m k).
Proof.
  intros Hm Hk σ b σ2 (a & σ1 & E1 & E2)%bind_inv.
  destruct (Hm _ _ _ E1) as [-> Hm']. destruct (Hk _ _ _ _ E2) as [-> Hk'].
  split; [done|]. intros σ' Hsub. unfold bind. rewrite (Hm' _ Hsub). by apply Hk'.
Qed.

Lemma reads_and_then b e : reads e → reads (and_then b e).
Proof. destruct b; simpl; [done|]. intros _. apply reads_ret. Qed.

Lemma reads_load_rows g : reads (load_rows g).
Proof.
  induction g as [|r g IH]; simpl; [apply reads_ret|].
  apply reads_bind; [apply reads_load_list|]. intros row.
  apply reads_bind; [done|]. intros rest. apply reads_ret.
Qed.

Lemma reads_getitem2 g i j : reads (getitem2 g i j).
Proof.
  unfold getitem2. apply reads_bind; [apply reads_lift|]. intros r.
  apply reads_bind; [apply reads_load_list|]. intros row. apply reads_lift.
Qed.

Lemma reads_for_return {A R} (xs : list A) (body : A → M (option R)) :
  (∀ x, reads (body x)) → reads (for_return xs body).
Proof.
  intros Hb. induction xs as [|x xs IH]; simpl; [apply reads_ret|].
  apply reads_bind; [done|]. intros [v|]; [apply reads_ret|done].
Qed.

Lemma reads_for {A S} (xs : list A) (body : A → S → M S) s :
  (∀ x s, reads (body x s)) → reads (for_ xs body s).
Proof.
  intros Hb. revert s. induction xs as [|x xs IH]; intros s; simpl;
    [apply reads_ret|].
  apply reads_bind; [done|]. intros s'. apply IH.
Qed.

Lemma keeps_bind σ0 {A B} (m : M A) (k : A → M B) :
  keeps σ0 m → (∀ a, keeps σ0 (k a)) → keeps σ0 (bind m k).
Proof.
  intros Hm Hk σ b σ2 Hsub (a & σ1 & E1 & E2)%bind_inv.
  eapply Hk; [|done]. by eapply Hm.
Qed.

Lemma keeps_for σ0 {A S} (xs : list A) (body : A → S → M S) s :
  (∀ x s, keeps σ0 (body x s)) → keeps σ0 (for_ xs body s).
Proof.
  intros Hb. revert s. induction xs as [|x xs IH]; intros s; simpl.
  - apply reads_keeps, reads_ret.
  - apply keeps_bind; [done|]. intros s'. apply IH.
Qed.

Lemma keeps_alloc σ0 o : keeps σ0 (alloc o).
Proof.
  intros σ l σ' Hsub [= <- <-]. apply insert_subseteq_r; [|done].
  eapply lookup_weaken_None; [|done]. apply not_elem_of_dom, is_fresh.
Qed.

Lemma alloc_inv o σ l σ' :
  alloc o σ = Some (l, σ') → σ !! l = None ∧ σ' = <[l:=o]> σ.
Proof. intros [= <- <-]. split; [|done]. apply not_elem_of_dom, is_fresh. Qed.

Lemma getitem_elem_of {A} (l : list A) k x : getitem l k = Some x → x ∈ l.
Proof.
  unfold getitem. destruct (norm_index l k) as [i|]; simpl; [|done].
  apply list_elem_of_lookup_2.
Qed.

(** an assignment [g[i][j] = v] replaces the content of one row of [g] *)
Lemma setitem2_inv g i j v σ u σ' :
  setitem2 g i j v σ = Some (u, σ') →
  ∃ r row', r ∈ g ∧ σ' = <[r:=OList row']> σ.
Proof.
  unfold setitem2. intros H.
  apply bind_inv in H as (r & σ1 & [Hr ->]%lift_inv & H).
  apply bind_inv in H as (row & σ1 & [-> Hrow]%load_list_inv & H).
  apply bind_inv in H as (row' & σ1 & [_ ->]%lift_inv & H).
  unfold store_list in H. apply row_at_Some in Hrow. rewrite Hrow in H.
  injection H as <- <-. exists r, row'. split; [|done].
  by eapply getitem_elem_of.
Qed.

Lemma setitem2_keeps σ0 g i j v σ u σ' :
  σ0 ⊆ σ → Forall (λ r, σ0 !! r = None) g →
  setitem2 g i j v σ = Some (u, σ') → σ0 ⊆ σ'.
Proof.
  intros Hsub Hfresh (r & row' & Hr & ->)%setitem2_inv.
  apply insert_subseteq_r; [|done]. by eapply (proj1 (Forall_forall _ _) Hfresh).
Qed.

(** the rows returned by a deep copy did not exist before *)
Lemma deepcopy_rows_keeps σ0 g :
  ∀ memo σ g' σ',
    σ0 ⊆ σ → (∀ r r', memo !! r = Some r' → σ0 !! r' = None) →
    deepcopy_rows g memo σ = Some (g', σ') →
    σ ⊆ σ' ∧ Forall (λ r, σ0 !! r = None) g'.
Proof.
  induction g as [|r g IH]; intros memo σ g' σ' Hsub Hmemo E; simpl in E.
  { apply ret_inv in E as [-> ->]. split; [done|constructor]. }
  destruct (memo !! r) as [r'|] eqn:Er.
  - apply bind_inv in E as (rest & σ1 & E1 & [-> ->]%ret_inv).
    destruct (IH _ _ _ _ Hsub Hmemo E1) as [Hsub1 Hrest]. split; [done|].
    constructor; [by eapply Hmemo|done].
  - apply bind_inv in E as (row & σ1 & [-> _]%load_list_inv & E).
    apply bind_inv in E as (r' & σ1 & [Hr' ->]%alloc_inv & E).
    apply bind_inv in E as (rest & σ2 & E1 & [-> ->]%ret_inv).
    assert (σ0 !! r' = None) as Hr0 by (by eapply lookup_weaken_None).
    destruct (IH (<[r:=r']> memo) (<[r':=OList row]> σ) rest σ2) as [Hsub2 Hrest];
      [by apply insert_subseteq_r| |done|].
    { intros x x'. destruct (decide (x = r)) as [->|Hx].
      - rewrite lookup_insert_eq. by intros [= <-].
      - rewrite lookup_insert_ne by done. apply Hmemo. }
    split; [|by constructor].
    etrans; [|done]. by apply insert_subseteq.
Qed.

Lemma keeps_deepcopy σ0 g : keeps σ0 (deepcopy g).
Proof.
  intros σ g' σ' Hsub E. unfold deepcopy in E.
  destruct (deepcopy_rows_keeps σ g ∅ σ g' σ') as [Hsub' _]; [done|done|done|].
  by etrans.
Qed.

Lemma keeps_jump σ0 p w1 w2 w3 : keeps σ0 (Peg.jump p w1 w2 w3).
Proof.
  intros σ s σ' Hsub E. unfold Peg.jump in E.
  apply bind_inv in E as (g' & σ1 & E1 & E).
  destruct (deepcopy_rows_keeps σ0 (Peg._marker p) ∅ σ g' σ1 Hsub)
    as [Hsub1 Hfresh]; [done|done|].
  apply bind_inv in E as (u2 & σ2 & E2 & E).
  apply bind_inv in E as (u3 & σ3 & E3 & E).
  apply bind_inv in E as (u4 & σ4 & E4 & E).
  apply peg_init_inv in E as (-> & _).
  assert (σ0 ⊆ σ1) as H1 by (by etrans).
  pose proof (setitem2_keeps _ _ _ _ _ _ _ _ H1 Hfresh E2) as H2.
  pose proof (setitem2_keeps _ _ _ _ _ _ _ _ H2 Hfresh E3) as H3.
  by apply (setitem2_keeps _ _ _ _ _ _ _ _ H3 Hfresh E4).
Qed.

Lemma reads_cell_is p i j v : reads (Peg.cell_is p i j v).
Proof.
  unfold Peg.cell_is. apply reads_bind; [apply reads_getitem2|].
  intros c. apply reads_ret.
Qed.

Ltac solve_reads :=
  repeat (cbv beta;
    match goal with
    | |- reads (bind _ _) => apply reads_bind; [|intros ?]
    | |- reads (ret _) => apply reads_ret
    | |- reads (lift _) => apply reads_lift
    | |- reads (assert _) => apply reads_assert
    | |- reads (load_list _) => apply reads_load_list
    | |- reads (load_set _) => apply reads_load_set
    | |- reads (load_rows _) => apply reads_load_rows
    | |- reads (getitem2 _ _ _) => apply reads_getitem2
    | |- reads (Peg.cell_is _ _ _ _) => apply reads_cell_is
    | |- reads (and_then _ _) => apply reads_and_then
    | |- reads (for_return _ _) => apply reads_for_return; intros ?
    | |- reads (for_ _ _ _) => apply reads_for; intros ? ?
    | |- reads (if ?b then _ else _) => destruct b
    | |- reads (match ?o with Some _ => _ | None => _ end) => destruct o
    end).

Ltac solve_keeps :=
  repeat (cbv beta;
    match goal with
    | |- keeps _ (bind _ _) => apply keeps_bind; [|intros ?]
    | |- keeps _ (for_ _ _ _) => apply keeps_for; intros ? ?
    | |- keeps _ (Peg.jump _ _ _ _) => apply keeps_jump
    | |- keeps _ (alloc _) => apply keeps_alloc
    | |- keeps _ (deepcopy _) => apply keeps_deepcopy
    | |- keeps _ (if ?b then _ else _) => destruct b
    | |- keeps _ _ => apply reads_keeps; solve_reads
    end).

Lemma keeps_peg_extensions σ0 p : keeps σ0 (Peg.extensions p).
Proof.
  unfold Peg.extensions, Peg.row_configs, Peg.col_configs. solve_keeps.
Qed.

Lemma reads_peg_eq p q : reads (Peg.eq p q).
Proof. unfold Peg.eq. solve_reads. Qed.

(** *** Sliding tiles *)

Lemma for_inv {A S} (I : S → store → Prop) (xs : list A)
    (body : A → S → M S) :
  (∀ x s σ s' σ', I s σ → body x s σ = Some (s', σ') → I s' σ') →
  ∀ s σ s' σ', I s σ → for_ xs body s σ = Some (s', σ') → I s' σ'.
Proof.
  intros Hb. induction xs as [|x xs IH]; intros s σ s' σ' HI E; simpl in E.
  - by apply ret_inv in E as [-> ->].
  - apply bind_inv in E as (s1 & σ1 & E1 & E2).
    eapply IH; [|done]. by eapply Hb.
Qed.

Lemma convert_tuple_keeps σ0 p σ g' σ' :
  σ0 ⊆ σ → MN.convert_tuple p σ = Some (g', σ') →
  σ0 ⊆ σ' ∧ Forall (λ r, σ0 !! r = None) g'.
Proof.
  intros Hsub E. unfold MN.convert_tuple in E.
  eapply (for_inv (λ acc σc, σ0 ⊆ σc ∧ Forall (λ r, σ0 !! r = None) acc));
    [|split; [done|constructor]|done].
  intros x acc σ1 acc' σ2 [Hsub1 Hacc] E1. cbv beta in E1.
  apply bind_inv in E1 as (l & σ3 & [Hl ->]%alloc_inv & [-> ->]%ret_inv).
  assert (σ0 !! l = None) as Hl0 by (by eapply lookup_weaken_None).
  split; [by apply insert_subseteq_r|].
  apply Forall_app. split; [done|]. by constructor.
Qed.

Lemma keeps_mn_init σ0 f t : keeps σ0 (MN.init f t).
Proof.
  intros σ p σ' Hsub E. rewrite mn_init_eq in E.
  case_bool_decide; [|done]. by injection E as <- <-.
Qed.

Lemma keeps_convert_list σ0 p g : keeps σ0 (MN.convert_list p g).
Proof.
  unfold MN.convert_list. apply keeps_bind; [apply keeps_deepcopy|].
  intros g'. apply reads_keeps, reads_load_rows.
Qed.

Lemma keeps_slide σ0 p i j i' j' : keeps σ0 (MN.slide p i j i' j').
Proof.
  intros σ s σ' Hsub E. unfold MN.slide in E.
  apply bind_inv in E as (g' & σ1 & E1 & E).
  destruct (convert_tuple_keeps σ0 _ _ _ _ Hsub E1) as [H1 Hfresh].
  apply bind_inv in E as (v & σ2 & Ev & E).
  destruct (reads_getitem2 _ _ _ _ _ _ Ev) as [-> _].
  apply bind_inv in E as (u2 & σ2 & E2 & E).
  apply bind_inv in E as (u3 & σ3 & E3 & E).
  pose proof (setitem2_keeps _ _ _ _ _ _ _ _ H1 Hfresh E2) as H2.
  pose proof (setitem2_keeps _ _ _ _ _ _ _ _ H2 Hfresh E3) as H3.
  apply bind_inv in E as (g & σ4 & Eg & E).
  pose proof (keeps_convert_list σ0 p g' _ _ _ H3 Eg) as H4.
  by apply (keeps_mn_init σ0 _ _ _ _ _ H4 E).
Qed.

Lemma reads_index_of_space p : reads (MN.index_of_space p).
Proof. unfold MN.index_of_space. solve_reads. Qed.

Lemma reads_subscript e k : reads (MN.subscript e k).
Proof.
  unfold MN.subscript. destruct e as [[i j]|]; [apply reads_lift|].
  intros σ a σ1 E. done.
Qed.

Lemma keeps_mn_extensions σ0 p : keeps σ0 (MN.extensions p).
Proof.
  unfold MN.extensions, MN.row_configs, MN.col_configs.
  repeat (cbv beta;
    match goal with
    | |- keeps _ (bind _ _) => apply keeps_bind; [|intros ?]
    | |- keeps _ (MN.slide _ _ _ _ _) => apply keeps_slide
    | |- keeps _ (MN.index_of_space _) => apply reads_keeps, reads_index_of_space
    | |- keeps _ (MN.subscript _ _) => apply reads_keeps, reads_subscript
    | |- keeps _ (if ?b then _ else _) => destruct b
    | |- keeps _ (ret _) => apply reads_keeps, reads_ret
    end).
Qed.

Lemma reads_mn_eq p q : reads (MN.eq p q).
Proof. unfold MN.eq. apply reads_ret. Qed.

(** *** Word ladder *)

Lemma reads_wl_extensions iter p : reads (WL.extensions iter p).
Proof.
  unfold WL.extensions, WL.letters_at, WL.contains, WL.init. solve_reads.
Qed.

Lemma reads_wl_eq p q : reads (WL.eq p q).
Proof. unfold WL.eq. solve_reads. Qed.

Lemma reads_puzzle_eq a b : reads (Puzzle.eq a b).
Proof.
  destruct a, b; simpl;
    first [apply reads_peg_eq | apply reads_mn_eq | apply reads_wl_eq
          | apply reads_ret].
Qed.

Lemma keeps_puzzle_extensions σ0 iter a : keeps σ0 (Puzzle.extensions iter a).
Proof.
  destruct a; simpl; apply keeps_bind;
    try (intros ?; apply reads_keeps, reads_ret).
  - apply keeps_peg_extensions.
  - apply keeps_mn_extensions.
  - apply reads_keeps, reads_wl_extensions.
Qed.

(** C8.  For a puzzle of any of the three kinds, whatever the iteration
    order of sets: when [extensions()] returns, every object that
    existed before the call has the content it had, and a snapshot that
    compared equal to the receiver before the call compares equal to it
    after the call. *)
Theorem extensions_keep_receiver iter σ self snapshot succs σ' :
  Puzzle.extensions iter self σ = Some (succs, σ') →
  Puzzle.eq self snapshot σ = Some (true, σ) →
  σ ⊆ σ' ∧ Puzzle.eq self snapshot σ' = Some (true, σ').
Proof.
  intros E Heq.
  assert (σ ⊆ σ') as Hsub.
  { by eapply (keeps_puzzle_extensions σ iter self σ). }
  split; [done|].
  destruct (reads_puzzle_eq _ _ _ _ _ Heq) as [_ H]. by apply H.
Qed.

Lemma extensions_keep_receiver_witness :
  ∃ succs σ',
    Puzzle.extensions elements (Puzzle.GridPeg peg_demo) peg_demo_store
      = Some (succs, σ') ∧
    Puzzle.eq (Puzzle.GridPeg peg_demo) (Puzzle.GridPeg peg_demo) peg_demo_store
      = Some (true, peg_demo_store) ∧
    peg_demo_store ⊆ σ' ∧
    Puzzle.eq (Puzzle.GridPeg peg_demo) (Puzzle.GridPeg peg_demo) σ'
      = Some (true, σ').
Proof.
  destruct (Puzzle.extensions elements (Puzzle.GridPeg peg_demo) peg_demo_store)
    as [[succs σ']|] eqn:E; [|by vm_compute in E].
  exists succs, σ'. split; [done|]. split; [by vm_compute|].
  eapply extensions_keep_receiver; [exact E|by vm_compute].
Defined.

(** * Further properties of the three puzzles *)

(** ** Peg solitaire: the constructor, equality, solved configurations *)

(** X1.  The constructor returns an instance exactly when the grid has
    at least one row, all rows have the length of the first, every cell
    is a member of the marker set and the marker set has no other
    member than ["*"], ["."] and ["#"]; in every other case it raises.
    The store is left as it is. *)
Theorem peg_init_accepts_iff σ g ms p σ' :
  Peg.init g ms σ = Some (p, σ') ↔
  σ' = σ ∧ p = Peg.mk g ms ∧
  ∃ G X, grid_at σ g = Some G ∧ set_at σ ms = Some X ∧
         G ≠ [] ∧ rect (ncols G) G ∧
         Forall (Forall (λ x, x ∈ X)) G ∧
         ∀ x, x ∈ X → x = "*" ∨ x = "." ∨ x = "#".
Proof.
  split.
  - intros (-> & -> & G & X & Hwf)%peg_init_inv.
    split; [done|]. split; [done|]. by exists G, X.
  - intros (-> & -> & G & X & Hwf).
    destruct (runs_peg_init σ g ms G X (λ s σ', s = Peg.mk g ms ∧ σ' = σ))
      as (s & σ' & E & -> & ->); done.
Qed.

Lemma peg_is_solved_run σ p G X :
  peg_wf σ p G X →
  Peg.is_solved p σ = Some (bool_decide (count_pegs G = 1%nat), σ).
Proof.
  intros Hwf. pose proof Hwf as (HG & _ & Hne & _).
  cut (runs (Peg.is_solved p) σ
         (λ b σ', σ' = σ ∧ b = bool_decide (count_pegs G = 1%nat))).
  { by intros (b & σ' & E & -> & ->). }
  unfold Peg.is_solved.
  destruct G as [|row0 G']; [done|].
  destruct (grid_at_lookup_r _ _ _ 0%nat _ HG eq_refl) as (r0 & Hr0 & Hrow0).
  assert (len (Peg._marker p) = len (row0 :: G')) as ->.
  { unfold len. by rewrite (grid_at_length _ _ _ HG). }
  apply runs_bind, runs_ret.
  apply runs_bind. eapply runs_lift; [by apply (getitem_lookup _ 0%nat)|].
  apply runs_bind. eapply runs_load_list; [done|].
  apply runs_bind, runs_ret.
  apply runs_bind.
  apply (runs_count_pegs _ _ (row0 :: G') X); [done|].
  apply runs_ret. split; [done|].
  apply bool_decide_ext. lia.
Qed.

Lemma one_peg_no_move G mv : count_pegs G = 1%nat → ¬ legal G mv.
Proof.
  intros (i & j & _ & Huniq)%count_pegs_one.
  destruct mv as [[i0 j0] [di dj]]. intros [Hd (_ & H1 & H2)]. simpl in Hd.
  destruct (Huniq _ _ H1) as [E1 E1']. destruct (Huniq _ _ H2) as [E2 E2'].
  unfold directions in Hd.
  repeat (apply elem_of_cons in Hd as [Hd|Hd]; [simplify_eq; lia|]).
  by apply elem_of_nil in Hd.
Qed.

(** X2.  A solved configuration is a dead end: when [is_solved] returns
    [True] on a valid configuration, [extensions] returns the empty
    list. *)
Theorem peg_solved_no_successor σ p :
  peg_valid σ p → Peg.is_solved p σ = Some (true, σ) →
  ∃ σ', Peg.extensions p σ = Some ([], σ').
Proof.
  intros (G & X & Hwf)%peg_valid_wf Hs.
  rewrite (peg_is_solved_run _ _ _ _ Hwf) in Hs.
  injection Hs as Hs%bool_decide_eq_true.
  pose proof Hwf as (_ & _ & _ & Hrect & _).
  destruct (runs_peg_extensions σ p G X
    (λ succs σ', Forall2 (succ_ok p G X σ') (row_moves G ++ col_moves G) succs))
    as (succs & σ' & E & HF); [done|done|].
  exists σ'. destruct (row_moves G ++ col_moves G) as [|mv mvs] eqn:Emv.
  - by inversion HF; subst.
  - exfalso. apply (one_peg_no_move G mv Hs).
    apply elem_of_peg_moves; [done|]. rewrite Emv. left.
Qed.

Lemma peg_solved_no_successor_witness :
  peg_valid peg_won_store peg_demo ∧
  Peg.is_solved peg_demo peg_won_store = Some (true, peg_won_store) ∧
  ∃ σ', Peg.extensions peg_demo peg_won_store = Some ([], σ').
Proof.
  split; [by vm_compute|]. split; [by vm_compute|].
  apply peg_solved_no_successor; by vm_compute.
Defined.

(** X3.  Every successor of a valid configuration is itself a valid
    configuration with the receiver's marker set, also when row objects
    are shared: [is_solved] and [extensions] return on it. *)
Theorem peg_successors_valid σ p :
  peg_valid σ p →
  ∃ succs σ',
    Peg.extensions p σ = Some (succs, σ') ∧
    ∀ s, s ∈ succs →
      peg_valid σ' s ∧ Peg._marker_set s = Peg._marker_set p ∧
      (∃ b, Peg.is_solved s σ' = Some (b, σ')) ∧
      (∃ succs' σ'', Peg.extensions s σ' = Some (succs', σ'')).
Proof.
  intros (G & X & Hwf)%peg_valid_wf.
  destruct (runs_peg_extensions σ p G X
    (λ succs σ', Forall2 (succ_ok p G X σ') (row_moves G ++ col_moves G) succs))
    as (succs & σ' & E & HF); [done|done|].
  exists succs, σ'. split; [done|].
  intros s (k & Hk)%list_elem_of_lookup.
  destruct (Forall2_lookup_r _ _ _ _ _ HF Hk) as (mv & _ & Hms & (G' & Hwf') & _).
  split; [apply peg_valid_wf; by exists G', X|]. split; [done|]. split.
  - eexists. by apply (peg_is_solved_run _ _ _ _ Hwf').
  - destruct (runs_peg_extensions σ' s G' X (λ _ _, True))
      as (succs' & σ'' & E' & _); [done|done|]. by exists succs', σ''.
Qed.

Lemma peg_successors_valid_witness :
  peg_valid peg_demo_store peg_shared ∧
  ∃ succs σ',
    Peg.extensions peg_shared peg_demo_store = Some (succs, σ') ∧
    ∀ s, s ∈ succs →
      peg_valid σ' s ∧ Peg._marker_set s = Peg._marker_set peg_shared ∧
      (∃ b, Peg.is_solved s σ' = Some (b, σ')) ∧
      (∃ succs' σ'', Peg.extensions s σ' = Some (succs', σ'')).
Proof.
  split; [by vm_compute|]. apply peg_successors_valid. by vm_compute.
Defined.

Lemma peg_eq_run σ p q G X G' X' :
  peg_wf σ p G X → peg_wf σ q G' X' →
  Peg.eq p q σ = Some (bool_decide (G = G') && bool_decide (X = X'), σ).
Proof.
  intros (HG & HX & _) (HG' & HX' & _).
  cut (runs (Peg.eq p q) σ
         (λ b σ', σ' = σ ∧ b = bool_decide (G = G') && bool_decide (X = X'))).
  { by intros (b & σ' & E & -> & ->). }
  unfold Peg.eq.
  apply runs_bind. eapply runs_load_rows; [done|].
  apply runs_bind. eapply runs_load_rows; [done|].
  apply runs_and_then.
  - intros ->. apply runs_bind. eapply runs_load_set; [done|].
    apply runs_bind. eapply runs_load_set; [done|]. by apply runs_ret.
  - by intros ->.
Qed.

(** X4.  Equality of two valid configurations is by value: [__eq__]
    returns [True] exactly when the two grids have the same cells and
    the two marker sets have the same members, whether or not they are
    the same objects. *)
Theorem peg_eq_by_value σ p q G G' X X' :
  peg_valid σ p → peg_valid σ q →
  grid_at σ (Peg._marker p) = Some G → grid_at σ (Peg._marker q) = Some G' →
  set_at σ (Peg._marker_set p) = Some X →
  set_at σ (Peg._marker_set q) = Some X' →
  ∃ b, Peg.eq p q σ = Some (b, σ) ∧ (b = true ↔ G = G' ∧ X = X').
Proof.
  intros (G1 & X1 & Hp)%peg_valid_wf (G2 & X2 & Hq)%peg_valid_wf HG HG' HX HX'.
  assert (G1 = G ∧ X1 = X) as [-> ->].
  { destruct Hp as (? & ? & _). split; congruence. }
  assert (G2 = G' ∧ X2 = X') as [-> ->].
  { destruct Hq as (? & ? & _). split; congruence. }
  eexists. split; [by apply (peg_eq_run _ _ _ _ _ _ _ Hp Hq)|].
  by rewrite andb_true_iff, !bool_decide_eq_true.
Qed.

Lemma peg_eq_by_value_witness :
  peg_valid peg_twice_store peg_demo ∧ peg_valid peg_twice_store peg_copy ∧
  ∃ b, Peg.eq peg_demo peg_copy peg_twice_store = Some (b, peg_twice_store) ∧
       (b = true ↔ [["."; "*"; "*"]] = [["."; "*"; "*"]] ∧
                   ({["*"; "."]} : gset string) = {["*"; "."]}).
Proof.
  split; [by vm_compute|]. split; [by vm_compute|].
  apply (peg_eq_by_value peg_twice_store peg_demo peg_copy); by vm_compute.
Defined.

(** X5.  No successor compares equal to the receiver: for a valid
    configuration without shared row objects, [__eq__] of the receiver
    and any of its successors returns [False]. *)
Theorem peg_successor_not_receiver σ p :
  peg_valid σ p → NoDup (Peg._marker p) →
  ∃ succs σ',
    Peg.extensions p σ = Some (succs, σ') ∧
    ∀ s, s ∈ succs → Peg.eq p s σ' = Some (false, σ').
Proof.
  intros Hv Hnd. pose proof Hv as (G & X & Hwf)%peg_valid_wf.
  pose proof Hwf as (HG & _).
  destruct (peg_successors σ p G Hv HG Hnd) as (succs & σ' & E & Hsub & Hall).
  exists succs, σ'. split; [done|]. intros s Hs.
  destruct (Hall s Hs) as ((G' & X' & Hwf')%peg_valid_wf & _ & _ & _ & G'' & HG'' & Hc & _).
  assert (G'' = G') as -> by (destruct Hwf' as (? & _); congruence).
  rewrite (peg_eq_run σ' p s G X G' X'); [|by eapply peg_wf_mono|done].
  rewrite bool_decide_false; [done|]. intros ->. lia.
Qed.

Lemma peg_successor_not_receiver_witness :
  peg_valid peg_demo_store peg_demo ∧ NoDup (Peg._marker peg_demo) ∧
  ∃ succs σ',
    Peg.extensions peg_demo peg_demo_store = Some (succs, σ') ∧
    ∀ s, s ∈ succs → Peg.eq peg_demo s σ' = Some (false, σ').
Proof.
  split; [by vm_compute|]. split; [by apply (bool_decide_unpack _)|].
  apply peg_successor_not_receiver; [by vm_compute|by apply (bool_decide_unpack _)].
Defined.

(** ** Sliding tiles: the blank that is found, and its absence *)

Lemma for_return_pure {A R} (xs : list A) (body : A → M (option R))
    (f : A → option R) σ :
  (∀ x, x ∈ xs → body x σ = Some (f x, σ)) →
  for_return xs body σ = Some (first_some f xs, σ).
Proof.
  intros H. induction xs as [|x xs IH]; [done|]. simpl.
  unfold bind. rewrite (H x) by left.
  destruct (f x); [done|]. apply IH. intros y Hy. apply H. by right.
Qed.

Lemma first_some_None {A R} (f : A → option R) xs :
  first_some f xs = None → ∀ x, x ∈ xs → f x = None.
Proof.
  induction xs as [|y xs IH]; simpl; intros H x Hx.
  - by apply elem_of_nil in Hx.
  - destruct (f y) eqn:Ey; [done|].
    apply elem_of_cons in Hx as [->|Hx]; [done|by apply IH].
Qed.

Lemma first_some_Some {A R} (f : A → option R) xs v :
  first_some f xs = Some v →
  ∃ seen x rest, xs = seen ++ x :: rest ∧ f x = Some v ∧
                 ∀ y, y ∈ seen → f y = None.
Proof.
  induction xs as [|y xs IH]; simpl; [done|]. intros H.
  destruct (f y) eqn:Ey.
  - simplify_eq. exists [], y, xs. split; [done|]. split; [done|].
    intros z Hz. by apply elem_of_nil in Hz.
  - destruct (IH H) as (seen & x & rest & -> & Hx & Hseen).
    exists (y :: seen), x, rest. split; [done|]. split; [done|].
    intros z [->|Hz]%elem_of_cons; [done|by apply Hseen].
Qed.

Lemma first_some_range {R} (f : Z → option R) n v :
  first_some f (range n) = Some v →
  ∃ k, 0 ≤ k < n ∧ f k = Some v ∧ ∀ k', 0 ≤ k' < k → f k' = None.
Proof.
  intros (seen & k & rest & Hr & Hk & Hseen)%first_some_Some.
  destruct (range_split _ _ _ _ Hr) as [-> Hlt].
  exists (Z.of_nat (length seen)). split; [lia|]. split; [done|].
  intros k' Hk'. apply Hseen.
  apply (list_elem_of_lookup_2 _ (Z.to_nat k')).
  assert (range n !! Z.to_nat k' = Some k') as Hl.
  { rewrite range_lookup by lia. f_equal. lia. }
  rewrite Hr, lookup_app_l in Hl by lia. done.
Qed.

Lemma mn_index_of_space_run σ p :
  mn_valid σ p →
  MN.index_of_space p σ
  = Some (first_some (λ i, first_some (probe (MN.from_grid p) i)
                             (range (MN.m p))) (range (MN.n p)), σ).
Proof.
  intros ((_ & Hrect & _) & Hn & Hm)%mn_valid_iff. unfold MN.index_of_space.
  apply for_return_pure. intros i Hi%elem_of_range.
  apply for_return_pure. intros j Hj%elem_of_range.
  destruct (cell_is_Some _ (MN.from_grid p) i j Hrect) as [c Hc]; [lia|lia|].
  rewrite (mn_probe _ _ _ _ _ Hc). unfold probe. by rewrite Hc.
Qed.

Lemma probe_Some G i j v :
  probe G i j = Some v ↔ v = (i, j) ∧ cell G i j = Some "*".
Proof.
  unfold probe. destruct (cell G i j) as [c|]; [|by split; [|intros [_ ?]]].
  destruct (String.eqb_spec c "*") as [->|Hc].
  - split; [by intros [= <-]|by intros [-> _]].
  - split; [done|]. intros [_ [= ?]]. done.
Qed.

Lemma probe_None G i j : probe G i j = None ↔ cell G i j ≠ Some "*".
Proof.
  unfold probe. destruct (cell G i j) as [c|]; [|done].
  destruct (String.eqb_spec c "*") as [->|Hc].
  - split; [done|]. intros H. by destruct H.
  - split; [|done]. intros _ [= ?]. done.
Qed.

Lemma first_probe_spec n G :
  rect n G →
  match first_some (λ i, first_some (probe G i) (range (Z.of_nat n)))
          (range (len G)) with
  | Some (i, j) => first_blank G i j
  | None => ∀ i j, cell G i j ≠ Some "*"
  end.
Proof.
  intros Hrect.
  destruct (first_some _ (range (len G))) as [[i j]|] eqn:E.
  - apply first_some_range in E as (i0 & Hi0 & Hrow & Hrows).
    apply first_some_range in Hrow as (j0 & Hj0 & [[= <- <-] Hc]%probe_Some & Hcols).
    split; [done|]. intros i' j' Hc'.
    destruct (cell_bounds _ _ _ _ _ Hrect Hc') as [Hi' Hj'].
    destruct (decide (i' < i)) as [Hlt|Hge].
    { specialize (Hrows i' ltac:(lia)).
      pose proof (first_some_None _ _ Hrows j'
                    ltac:(apply elem_of_range; lia)) as Hp.
      by apply probe_None in Hp. }
    destruct (decide (i' = i)) as [->|Hne]; [|lia].
    destruct (decide (j' < j)) as [Hltj|]; [|lia].
    specialize (Hcols j' ltac:(lia)). by apply probe_None in Hcols.
  - intros i j Hc. destruct (cell_bounds _ _ _ _ _ Hrect Hc) as [Hi Hj].
    pose proof (first_some_None _ _ E i ltac:(apply elem_of_range; lia)) as Hrow.
    pose proof (first_some_None _ _ Hrow j ltac:(apply elem_of_range; lia)) as Hp.
    by apply probe_None in Hp.
Qed.

(** X6.  [index_of_space] returns the position of the first blank in
    row-major order, and [None] when no cell of the current grid is a
    blank. *)
Theorem mn_index_of_space_first σ p :
  mn_valid σ p →
  ∃ r, MN.index_of_space p σ = Some (r, σ) ∧
       match r with
       | Some (i, j) => first_blank (MN.from_grid p) i j
       | None => ∀ i j, cell (MN.from_grid p) i j ≠ Some "*"
       end.
Proof.
  intros Hv. rewrite (mn_index_of_space_run _ _ Hv). eexists. split; [done|].
  pose proof Hv as ((_ & Hrect & _) & Hn & Hm)%mn_valid_iff.
  rewrite Hn, Hm. by apply first_probe_spec.
Qed.

Lemma mn_index_of_space_first_witness :
  mn_valid ∅ mn_demo ∧
  ∃ r, MN.index_of_space mn_demo ∅ = Some (r, ∅) ∧
       match r with
       | Some (i, j) => first_blank (MN.from_grid mn_demo) i j
       | None => ∀ i j, cell (MN.from_grid mn_demo) i j ≠ Some "*"
       end.
Proof. split; [by vm_compute|]. apply mn_index_of_space_first. by vm_compute. Defined.

Lemma mn_index_of_space_none σ p :
  mn_valid σ p → (∀ i j, cell (MN.from_grid p) i j ≠ Some "*") →
  MN.index_of_space p σ = Some (None, σ).
Proof.
  intros Hv Hnone. rewrite (mn_index_of_space_run _ _ Hv). f_equal. f_equal.
  destruct (first_some _ (range (MN.n p))) as [v|] eqn:E; [|done].
  apply first_some_range in E as (i0 & _ & Hrow & _).
  apply first_some_range in Hrow as (j0 & _ & [_ Hc]%probe_Some & _).
  by apply Hnone in Hc.
Qed.

(** X7.  Without a blank there is no move to generate: on a
    configuration whose current grid has no blank, [extensions] raises
    (the index of the blank is [None]). *)
Theorem mn_extensions_no_blank σ p :
  mn_valid σ p → (∀ i j, cell (MN.from_grid p) i j ≠ Some "*") →
  MN.index_of_space p σ = Some (None, σ) ∧ MN.extensions p σ = None.
Proof.
  intros Hv Hnone. pose proof (mn_index_of_space_none _ _ Hv Hnone) as E.
  split; [done|].
  unfold MN.extensions, MN.row_configs, bind. by rewrite E.
Qed.

Lemma mn_full_no_blank : ∀ i j, cell (MN.from_grid mn_full) i j ≠ Some "*".
Proof.
  intros i j (Hi & Hj & row & Hrow & Hc)%cell_Some. simpl in Hrow.
  destruct (Z.to_nat i) as [|k]; simplify_eq/=.
  destruct (Z.to_nat j) as [|[|l]]; simplify_eq/=.
Qed.

Lemma mn_extensions_no_blank_witness :
  mn_valid ∅ mn_full ∧ (∀ i j, cell (MN.from_grid mn_full) i j ≠ Some "*") ∧
  MN.index_of_space mn_full ∅ = Some (None, ∅) ∧ MN.extensions mn_full ∅ = None.
Proof.
  split; [by vm_compute|]. split; [apply mn_full_no_blank|].
  apply mn_extensions_no_blank; [by vm_compute|apply mn_full_no_blank].
Defined.

(** ** Sliding tiles: several blanks *)

Lemma first_blank_unique G i j i' j' :
  first_blank G i j → first_blank G i' j' → i = i' ∧ j = j'.
Proof.
  intros [H1 L1] [H2 L2]. specialize (L1 _ _ H2). specialize (L2 _ _ H1). lia.
Qed.

Lemma one_blank_first G i j : one_blank G i j → first_blank G i j.
Proof.
  intros [H1 Hu]. split; [done|]. intros i' j' H.
  destruct (Hu _ _ H) as [-> ->]. lia.
Qed.

Lemma mn_index_of_space_at σ p i j :
  mn_valid σ p → first_blank (MN.from_grid p) i j →
  MN.index_of_space p σ = Some (Some (i, j), σ).
Proof.
  intros Hv Hb. rewrite (mn_index_of_space_run _ _ Hv).
  pose proof Hv as ((_ & Hrect & _) & Hn & Hm)%mn_valid_iff.
  rewrite Hn, Hm. pose proof (first_probe_spec _ _ Hrect) as Hs.
  destruct (first_some _ (range (len (MN.from_grid p)))) as [[i0 j0]|].
  - by destruct (first_blank_unique _ _ _ _ _ Hb Hs) as [-> ->].
  - destruct Hb as [Hc _]. by apply Hs in Hc.
Qed.

Lemma runs_eq {A} (m : M A) σ a σ' (Q : A → store → Prop) :
  m σ = Some (a, σ') → Q a σ' → runs m σ Q.
Proof. intros E HQ. by exists a, σ'. Qed.

Lemma runs_mn_extensions_first σ p i j (Q : list MN.t → store → Prop) :
  mn_valid σ p → first_blank (MN.from_grid p) i j →
  (∀ σ', σ ⊆ σ' → Q (mn_successors p i j) σ') →
  runs (MN.extensions p) σ Q.
Proof.
  intros Hv Hb HQ. pose proof Hv as ((_ & Hrect & _) & Hn & Hm)%mn_valid_iff.
  pose proof Hb as [Hc _].
  destruct (cell_bounds _ _ _ _ _ Hrect Hc) as [Hi Hj].
  unfold MN.extensions, MN.row_configs, MN.col_configs.
  apply runs_bind, runs_bind.
  eapply runs_eq; [by apply mn_index_of_space_at|].
  apply runs_bind, runs_ret. apply runs_bind, runs_ret.
  apply runs_bind.
  apply (runs_slide_if _ _ i j (i, j + 1)); [done|done| |].
  { apply bool_decide_ext. unfold in_grid. simpl. lia. }
  intros σ1 Hsub1.
  apply (runs_slide_if _ _ i j (i, j - 1)); [by eapply mn_valid_mono|done| |].
  { apply bool_decide_ext. unfold in_grid. simpl. lia. }
  intros σ2 Hsub2.
  apply runs_bind, runs_bind.
  eapply runs_eq;
    [apply mn_index_of_space_at; [by eapply mn_valid_mono|done]|].
  apply runs_bind, runs_ret. apply runs_bind, runs_ret.
  apply runs_bind.
  apply (runs_slide_if _ _ i j (i + 1, j)); [by eapply mn_valid_mono|done| |].
  { apply bool_decide_ext. unfold in_grid. simpl. lia. }
  intros σ3 Hsub3.
  apply (runs_slide_if _ _ i j (i - 1, j)); [by eapply mn_valid_mono|done| |].
  { apply bool_decide_ext. unfold in_grid. simpl. lia. }
  intros σ4 Hsub4. apply runs_ret.
  assert (σ ⊆ σ4) as Hsub by (by do 3 (etrans; [|done])).
  specialize (HQ σ4 Hsub). unfold mn_successors, neighbours in HQ.
  rewrite !filter_cons, filter_nil in *.
  repeat case_decide; simpl in *; exact HQ.
Qed.

Lemma mn_successors_run_first σ p i j :
  mn_valid σ p → first_blank (MN.from_grid p) i j →
  ∃ σ', MN.extensions p σ = Some (mn_successors p i j, σ') ∧ σ ⊆ σ'.
Proof.
  intros Hv Hb.
  destruct (runs_mn_extensions_first σ p i j
    (λ succs σ', succs = mn_successors p i j ∧ σ ⊆ σ') Hv Hb)
    as (succs & σ' & E & -> & Hsub); [done|].
  by exists σ'.
Qed.

(** X8.  With several blanks in the current grid, only the first one in
    row-major order is moved: [extensions] returns one configuration per
    in-bounds neighbour of the first blank, in the order right, left,
    down, up, each with that blank and the neighbour's symbol
    exchanged, every other cell (the other blanks too) unchanged, and
    the receiver's goal grid. *)
Theorem mn_extensions_first_blank σ p i j :
  mn_valid σ p → first_blank (MN.from_grid p) i j →
  ∃ succs σ',
    MN.extensions p σ = Some (succs, σ') ∧
    Forall2 (λ c s, is_swap (MN.from_grid p) (i, j) c (MN.from_grid s) ∧
                    MN.to_grid s = MN.to_grid p)
      (filter (in_grid (MN.from_grid p))
         [(i, j + 1); (i, j - 1); (i + 1, j); (i - 1, j)])
      succs.
Proof.
  intros Hv Hb. destruct (mn_successors_run_first σ p i j Hv Hb) as (σ' & E & _).
  exists (mn_successors p i j), σ'. split; [done|].
  pose proof Hv as ((_ & Hrect & _) & _)%mn_valid_iff. pose proof Hb as [Hc _].
  unfold mn_successors. apply Forall2_fmap_r, Forall_Forall2_diag, Forall_forall.
  intros c [Hin Hnb]%list_elem_of_filter. split; [|done]. simpl.
  destruct Hin as [Hi Hj].
  destruct (cell_is_Some _ _ _ _ Hrect Hi Hj) as [v Hv'].
  rewrite Hv'. simpl. destruct c as [i' j'].
  apply slid_is_swap; [done|done|]. by apply neighbours_ne.
Qed.

Lemma first_blank_two_blanks : first_blank (MN.from_grid mn_two_blanks) 0 1.
Proof.
  split; [done|]. intros i' j' (Hi & Hj & row & Hrow & Hc)%cell_Some.
  simpl in Hrow.
  destruct (Z.to_nat i') as [|k] eqn:Ei; simplify_eq/=.
  destruct (Z.to_nat j') as [|[|[|l]]] eqn:Ej; simplify_eq/=; lia.
Qed.

Lemma mn_extensions_first_blank_witness :
  mn_valid ∅ mn_two_blanks ∧ first_blank (MN.from_grid mn_two_blanks) 0 1 ∧
  ∃ succs σ',
    MN.extensions mn_two_blanks ∅ = Some (succs, σ') ∧
    Forall2 (λ c s, is_swap (MN.from_grid mn_two_blanks) (0, 1) c (MN.from_grid s) ∧
                    MN.to_grid s = MN.to_grid mn_two_blanks)
      (filter (in_grid (MN.from_grid mn_two_blanks))
         [(0, 1 + 1); (0, 1 - 1); (0 + 1, 1); (0 - 1, 1)])
      succs.
Proof.
  split; [by vm_compute|]. split; [apply first_blank_two_blanks|].
  apply mn_extensions_first_blank; [by vm_compute|apply first_blank_two_blanks].
Defined.

Lemma slid_blank_id n G i j i' j' :
  rect n G → cell G i j = Some "*" → cell G i' j' = Some "*" →
  slid G i j i' j' "*" = G.
Proof.
  intros Hrect H1 H2. apply grid_ext.
  - unfold slid. by rewrite !upd_length.
  - intros r c. rewrite cell_slid by eauto.
    repeat case_decide; by simplify_eq.
Qed.

(** X9.  Exchanging two blanks changes nothing: when a neighbour of the
    first blank is itself a blank, the receiver's own configuration is
    among its successors. *)
Theorem mn_extensions_blank_neighbour σ p i j c :
  mn_valid σ p → first_blank (MN.from_grid p) i j →
  c ∈ neighbours i j → cell (MN.from_grid p) c.1 c.2 = Some "*" →
  ∃ succs σ', MN.extensions p σ = Some (succs, σ') ∧ p ∈ succs.
Proof.
  intros Hv Hb Hnb Hc.
  destruct (mn_successors_run_first σ p i j Hv Hb) as (σ' & E & _).
  exists (mn_successors p i j), σ'. split; [done|].
  pose proof Hv as ((_ & Hrect & _) & Hn & Hm)%mn_valid_iff.
  pose proof Hb as [Hc0 _].
  assert (slide_to p i j c = p) as Hp.
  { unfold slide_to. rewrite Hc. simpl.
    rewrite (slid_blank_id _ _ _ _ _ _ Hrect Hc0 Hc). by destruct p. }
  unfold mn_successors. apply list_elem_of_fmap. exists c. split; [done|].
  apply list_elem_of_filter. split; [|done].
  unfold in_grid. by apply (cell_bounds _ _ _ _ _ Hrect Hc).
Qed.

Lemma mn_extensions_blank_neighbour_witness :
  mn_valid ∅ mn_two_blanks ∧ first_blank (MN.from_grid mn_two_blanks) 0 1 ∧
  (0, 2) ∈ neighbours 0 1 ∧ cell (MN.from_grid mn_two_blanks) 0 2 = Some "*" ∧
  ∃ succs σ', MN.extensions mn_two_blanks ∅ = Some (succs, σ') ∧
              mn_two_blanks ∈ succs.
Proof.
  split; [by vm_compute|]. split; [apply first_blank_two_blanks|].
  split; [by left|]. split; [done|].
  apply (mn_extensions_blank_neighbour ∅ mn_two_blanks 0 1 (0, 2));
    [by vm_compute|apply first_blank_two_blanks|by left|done].
Defined.

(** ** Sliding tiles: undoing a move, moves change the grid *)

Lemma neighbours_sym i j c : c ∈ neighbours i j → (i, j) ∈ neighbours c.1 c.2.
Proof.
  unfold neighbours. intros Hc.
  repeat (apply elem_of_cons in Hc as [->|Hc];
          [simpl; rewrite !elem_of_cons; repeat (first [left; f_equal; lia|right])|]).
  by apply elem_of_nil in Hc.
Qed.

Lemma slid_back G i j i' j' v :
  cell G i j = Some "*" → cell G i' j' = Some v →
  slid (slid G i j i' j' v) i' j' i j v = G.
Proof.
  intros H1 H2.
  assert (∀ r c, cell (slid G i j i' j' v) r c =
            if decide ((r, c) = (i', j')) then Some "*"
            else if decide ((r, c) = (i, j)) then Some v else cell G r c) as E.
  { intros r c. apply cell_slid; eauto. }
  apply grid_ext.
  - unfold slid. by rewrite !upd_length.
  - intros r c. rewrite cell_slid.
    + rewrite E. repeat case_decide; by simplify_eq.
    + rewrite E. by rewrite decide_True.
    + rewrite E. repeat case_decide; eauto.
Qed.

(** X10.  A move can be undone: for a configuration with exactly one
    blank, the receiver is among the successors of each of its
    successors. *)
Theorem mn_move_reversible σ p i j :
  mn_valid σ p → one_blank (MN.from_grid p) i j →
  ∃ succs σ',
    MN.extensions p σ = Some (succs, σ') ∧
    ∀ s, s ∈ succs →
      ∃ back σ'', MN.extensions s σ' = Some (back, σ'') ∧ p ∈ back.
Proof.
  intros Hv Hb. destruct (mn_successors_run σ p i j Hv Hb) as (σ' & E & Hsub).
  exists (mn_successors p i j), σ'. split; [done|].
  pose proof Hv as ((_ & Hrect & _) & Hn & Hm)%mn_valid_iff. pose proof Hb as [Hc _].
  intros s (c & -> & [[Hi Hj] Hnb]%list_elem_of_filter)%list_elem_of_fmap.
  destruct (cell_is_Some _ _ _ _ Hrect Hi Hj) as [v Hv'].
  pose proof (neighbours_ne _ _ _ Hnb) as Hne.
  assert (mn_valid σ' (slide_to p i j c)) as Hvs.
  { eapply slide_to_valid; [by eapply mn_valid_mono|done|done]. }
  assert (MN.from_grid (slide_to p i j c) = slid (MN.from_grid p) i j c.1 c.2 v)
    as EG by (unfold slide_to; simpl; by rewrite Hv').
  assert (one_blank (MN.from_grid (slide_to p i j c)) c.1 c.2) as Hbs.
  { rewrite EG. apply one_blank_slid; [done|done|by destruct c]. }
  destruct (mn_successors_run σ' _ _ _ Hvs Hbs) as (σ'' & E' & _).
  eexists _, σ''. split; [done|].
  assert (cell (MN.from_grid (slide_to p i j c)) i j = Some v) as Hcv.
  { rewrite EG, cell_slid by eauto.
    rewrite decide_False by (by destruct c). by rewrite decide_True. }
  unfold mn_successors. apply list_elem_of_fmap. exists (i, j). split.
  - unfold slide_to at 1. cbn [fst snd]. rewrite Hcv, EG.
    cbn [default from_option id]. rewrite (slid_back _ _ _ _ _ _ Hc Hv').
    simpl. by destruct p.
  - apply list_elem_of_filter. split; [|by apply neighbours_sym].
    pose proof Hvs as ((_ & Hrect' & _) & _)%mn_valid_iff.
    unfold in_grid. by apply (cell_bounds _ _ _ _ _ Hrect' Hcv).
Qed.

Lemma mn_move_reversible_witness :
  mn_valid ∅ mn_demo ∧ one_blank (MN.from_grid mn_demo) 0 0 ∧
  ∃ succs σ',
    MN.extensions mn_demo ∅ = Some (succs, σ') ∧
    ∀ s, s ∈ succs →
      ∃ back σ'', MN.extensions s σ' = Some (back, σ'') ∧ mn_demo ∈ back.
Proof.
  split; [by vm_compute|]. split; [apply one_blank_demo|].
  apply (mn_move_reversible ∅ mn_demo 0 0); [by vm_compute|apply one_blank_demo].
Defined.

(** X11.  A move changes the grid: for a configuration with exactly one
    blank, no successor is equal ([__eq__]) to the receiver, and when
    the receiver is solved none of its successors is. *)
Theorem mn_successor_differs σ p i j :
  mn_valid σ p → one_blank (MN.from_grid p) i j →
  ∃ succs σ',
    MN.extensions p σ = Some (succs, σ') ∧
    ∀ s, s ∈ succs →
      MN.eq p s σ' = Some (false, σ') ∧
      (MN.is_solved p σ' = Some (true, σ') →
       MN.is_solved s σ' = Some (false, σ')).
Proof.
  intros Hv Hb. destruct (mn_successors_run σ p i j Hv Hb) as (σ' & E & Hsub).
  exists (mn_successors p i j), σ'. split; [done|].
  pose proof Hv as ((_ & Hrect & _) & Hn & Hm)%mn_valid_iff.
  pose proof Hb as [Hc Hu].
  intros s (c & -> & [[Hi Hj] Hnb]%list_elem_of_filter)%list_elem_of_fmap.
  destruct (cell_is_Some _ _ _ _ Hrect Hi Hj) as [v Hv'].
  pose proof (neighbours_ne _ _ _ Hnb) as Hne.
  assert (MN.from_grid (slide_to p i j c) ≠ MN.from_grid p) as Hdiff.
  { unfold slide_to. simpl. rewrite Hv'. simpl. intros Heq.
    assert (cell (slid (MN.from_grid p) i j c.1 c.2 v) c.1 c.2 = Some "*") as Hs.
    { rewrite cell_slid by eauto. by rewrite decide_True. }
    rewrite Heq in Hs. destruct (Hu _ _ Hs) as [? ?]. by destruct c; simplify_eq/=. }
  split.
  - unfold MN.eq, ret. do 2 f_equal.
    rewrite (bool_decide_false (MN.from_grid p = _)) by done. done.
  - unfold MN.is_solved, ret. intros [= Hs%bool_decide_eq_true]. do 2 f_equal.
    apply bool_decide_false. simpl MN.to_grid. by rewrite <-Hs.
Qed.

Lemma mn_successor_differs_witness :
  mn_valid ∅ mn_demo ∧ one_blank (MN.from_grid mn_demo) 0 0 ∧
  ∃ succs σ',
    MN.extensions mn_demo ∅ = Some (succs, σ') ∧
    ∀ s, s ∈ succs →
      MN.eq mn_demo s σ' = Some (false, σ') ∧
      (MN.is_solved mn_demo σ' = Some (true, σ') →
       MN.is_solved s σ' = Some (false, σ')).
Proof.
  split; [by vm_compute|]. split; [apply one_blank_demo|].
  apply (mn_successor_differs ∅ mn_demo 0 0); [by vm_compute|apply one_blank_demo].
Defined.

(** X12.  [convert_tuple] and [convert_list] are inverse to each other:
    [convert_tuple] creates one new list object per row, all distinct
    and none in use before, and [convert_list] applied to them gives
    the current grid back; objects that existed before are unchanged. *)
Theorem mn_convert_round_trip σ p :
  ∃ g σ1 σ2,
    MN.convert_tuple p σ = Some (g, σ1) ∧
    MN.convert_list p g σ1 = Some (MN.from_grid p, σ2) ∧
    NoDup g ∧ Forall (λ r, σ !! r = None) g ∧
    length g = length (MN.from_grid p) ∧ σ ⊆ σ2.
Proof.
  destruct (runs_convert_tuple σ p
    (λ g σ1, grid_at σ1 g = Some (MN.from_grid p) ∧ NoDup g ∧
             Forall (λ r, σ !! r = None) g ∧ σ ⊆ σ1))
    as (g & σ1 & E1 & HG & Hnd & Hfresh & Hsub1).
  { intros g' σ' Hsub HG Hfresh Hnd. done. }
  destruct (runs_convert_list σ1 p g (MN.from_grid p)
    (λ G σ2, G = MN.from_grid p ∧ σ1 ⊆ σ2) HG)
    as (G & σ2 & E2 & -> & Hsub2); [done|].
  exists g, σ1, σ2. split; [done|]. split; [done|]. split; [done|].
  split; [done|]. split; [|by etrans].
  symmetry. by apply (grid_at_length σ1).
Qed.

(** ** Word ladder: no word twice, undoing a step *)

Section word_ladder_steps.
Variable iter : gset string → list string.
Hypothesis iter_perm : ∀ X, iter X ≡ₚ elements X.

Lemma wl_extensions_run σ p D :
  set_at σ (WL._word_set p) = Some D →
  WL.extensions iter p σ = Some (wl_successors iter p D, σ).
Proof.
  intros HD.
  destruct (runs_wl_extensions iter σ p D
    (λ succs σ', σ' = σ ∧ succs = wl_successors iter p D) HD)
    as (succs & σ' & E & -> & ->); done.
Qed.

Lemma elem_of_wl_successors p D s :
  WL._chars p = alphabet →
  s ∈ wl_successors iter p D ↔
  ∃ w', s = mk_succ p w' ∧ w' ∈ D ∧ one_letter_changed (WL._from_word p) w'.
Proof.
  intros Hch. unfold wl_successors. rewrite flat_map_bind, list_elem_of_bind.
  setoid_rewrite <-(elem_of_wl_candidates iter iter_perm p _ Hch).
  unfold wl_candidates. setoid_rewrite flat_map_bind.
  setoid_rewrite list_elem_of_bind. split.
  - intros (i & (w' & -> & [HD Hw]%list_elem_of_filter)%list_elem_of_fmap & Hi).
    exists w'. split; [done|]. split; [done|]. by exists i.
  - intros (w' & -> & HD & i & Hw & Hi). exists i. split; [|done].
    apply list_elem_of_fmap. exists w'. split; [done|].
    by apply list_elem_of_filter.
Qed.

(** a word formed at position [i] has another letter there and the
    characters of the current word elsewhere *)
Lemma wl_candidate_chars p i y :
  WL._chars p = alphabet → 0 ≤ i < str_len (WL._from_word p) →
  y ∈ wl_candidates_at iter p i →
  ∃ c x, chars_of (WL._from_word p) !! Z.to_nat i = Some c ∧ x ≠ c ∧
         chars_of y = <[Z.to_nat i:=x]> (chars_of (WL._from_word p)).
Proof.
  intros Hch Hi. unfold wl_candidates_at, wl_letters. rewrite Hch.
  pose proof (length_chars_of (WL._from_word p)) as Hlen.
  intros (x & -> & Hx)%list_elem_of_fmap.
  destruct (lookup_lt_is_Some_2 (chars_of (WL._from_word p)) (Z.to_nat i))
    as [c Hc]; [lia|].
  rewrite str_getitem_in, Hc in Hx by done. simpl in Hx.
  apply (elem_of_iter iter iter_perm), elem_of_difference in Hx as [Hx Hxc].
  apply elem_of_set_of_str in Hx.
  destruct (chars_of_lookup _ _ _ Hc) as [a0 ->].
  destruct (lowercase_one_char _ Hx) as [a ->].
  rewrite set_of_one_char, elem_of_singleton in Hxc.
  exists (String a0 EmptyString), (String a EmptyString).
  split; [done|]. split; [done|]. by apply chars_of_substitute.
Qed.

Lemma NoDup_iter X : NoDup (iter X).
Proof. rewrite iter_perm. apply NoDup_elements. Qed.

Lemma NoDup_wl_candidates_at p i :
  WL._chars p = alphabet → 0 ≤ i < str_len (WL._from_word p) →
  NoDup (wl_candidates_at iter p i).
Proof.
  intros Hch Hi. unfold wl_candidates_at.
  apply NoDup_fmap_2_strong; [|apply NoDup_iter].
  intros x y Hx Hy E.
  assert (∀ z, z ∈ wl_letters iter p i → ∃ a, z = String a EmptyString) as Hone.
  { intros z Hz. unfold wl_letters in Hz.
    apply (elem_of_iter iter iter_perm), elem_of_difference in Hz as [Hz _].
    apply elem_of_set_of_str in Hz. rewrite Hch in Hz.
    by apply lowercase_one_char. }
  destruct (Hone _ Hx) as [a ->]. destruct (Hone _ Hy) as [b ->].
  apply (f_equal chars_of) in E. rewrite !chars_of_substitute in E by done.
  apply (f_equal (λ l, l !! Z.to_nat i)) in E.
  pose proof (length_chars_of (WL._from_word p)) as Hlen.
  rewrite !list_lookup_insert_eq in E by lia. by simplify_eq.
Qed.

Lemma NoDup_wl_candidates p :
  WL._chars p = alphabet → NoDup (wl_candidates iter p).
Proof.
  intros Hch. unfold wl_candidates. rewrite flat_map_bind.
  apply NoDup_bind; [| |apply NoDup_range].
  - intros i1 i2 y Hi1%elem_of_range Hi2%elem_of_range Hy1 Hy2.
    destruct (wl_candidate_chars _ _ _ Hch Hi1 Hy1) as (c1 & x1 & Hc1 & Hne1 & E1).
    destruct (wl_candidate_chars _ _ _ Hch Hi2 Hy2) as (c2 & x2 & Hc2 & Hne2 & E2).
    destruct (decide (i1 = i2)) as [|Hne]; [done|]. exfalso.
    rewrite E1 in E2. apply (f_equal (λ l, l !! Z.to_nat i1)) in E2.
    pose proof (lookup_lt_Some _ _ _ Hc1).
    rewrite list_lookup_insert_eq, list_lookup_insert_ne, Hc1 in E2 by lia.
    by simplify_eq.
  - intros i Hi%elem_of_range. by apply NoDup_wl_candidates_at.
Qed.

Lemma NoDup_wl_successors p D :
  WL._chars p = alphabet → NoDup (wl_successors iter p D).
Proof.
  intros Hch. apply (NoDup_fmap_1 WL._from_word). unfold wl_successors.
  rewrite wl_successor_words. apply NoDup_filter.
  by apply NoDup_wl_candidates.
Qed.

Lemma one_letter_changed_back w w' :
  Forall lowercase (chars_of w) →
  one_letter_changed w w' → one_letter_changed w' w.
Proof.
  intros Hlow (k & c & x & Hc & Hx & Hne & Hw').
  pose proof (lookup_lt_Some _ _ _ Hc) as Hk.
  exists k, x, c. split; [by rewrite Hw', list_lookup_insert_eq|].
  split; [by eapply Forall_lookup_1|]. split; [done|].
  rewrite Hw', list_insert_insert_eq. symmetry. by apply list_insert_id.
Qed.
End word_ladder_steps.

(** X13.  Whatever the iteration order of sets, [extensions] returns no
    word twice: the current words of the returned puzzles are pairwise
    different, so the list has no duplicates and is not longer than the
    word set without the receiver's current word. *)
Theorem wl_extensions_no_duplicates iter σ p D :
  (∀ X, iter X ≡ₚ elements X) →
  wl_valid σ p → set_at σ (WL._word_set p) = Some D →
  ∃ succs,
    WL.extensions iter p σ = Some (succs, σ) ∧
    NoDup (WL._from_word <$> succs) ∧ NoDup succs ∧
    (length succs ≤ size (D ∖ {[WL._from_word p]}))%nat.
Proof.
  intros Hiter Hch%wl_valid_chars HD.
  exists (wl_successors iter p D). split; [by apply wl_extensions_run|].
  pose proof (NoDup_wl_successors iter Hiter p D Hch) as Hnd.
  assert (NoDup (WL._from_word <$> wl_successors iter p D)) as Hndw.
  { unfold wl_successors. rewrite wl_successor_words. apply NoDup_filter.
    by apply NoDup_wl_candidates. }
  split; [done|]. split; [done|].
  rewrite <-(length_fmap WL._from_word).
  change (size (D ∖ {[WL._from_word p]}))
    with (length (elements (D ∖ {[WL._from_word p]}))).
  apply submseteq_length, NoDup_submseteq; [done|].
  intros w (s & -> & Hs)%list_elem_of_fmap.
  apply (elem_of_wl_successors iter Hiter p D s Hch) in Hs
    as (w' & -> & Hw' & [Hne _]%one_letter_changed_differ).
  apply elem_of_elements, elem_of_difference. split; [done|].
  by rewrite elem_of_singleton.
Qed.

Lemma wl_extensions_no_duplicates_witness :
  (∀ X : gset string, elements X ≡ₚ elements X) ∧
  wl_valid wl_demo_store wl_demo ∧
  set_at wl_demo_store (WL._word_set wl_demo)
    = Some {["lame"; "came"; "some"; "word"; "lost"]} ∧
  ∃ succs,
    WL.extensions elements wl_demo wl_demo_store = Some (succs, wl_demo_store) ∧
    NoDup (WL._from_word <$> succs) ∧ NoDup succs ∧
    (length succs
     ≤ size (({["lame"; "came"; "some"; "word"; "lost"]} : gset string)
             ∖ {[WL._from_word wl_demo]}))%nat.
Proof.
  split; [done|]. split; [by vm_compute|]. split; [by vm_compute|].
  apply wl_extensions_no_duplicates; [done|by vm_compute|by vm_compute].
Defined.

(** X14.  A step can be undone when the receiver's current word is in
    the word set and consists of lowercase letters: the receiver is
    among the successors of each of its successors. *)
Theorem wl_step_reversible iter σ p D :
  (∀ X, iter X ≡ₚ elements X) →
  wl_valid σ p → set_at σ (WL._word_set p) = Some D →
  WL._from_word p ∈ D → Forall lowercase (chars_of (WL._from_word p)) →
  ∃ succs,
    WL.extensions iter p σ = Some (succs, σ) ∧
    ∀ s, s ∈ succs →
      ∃ back, WL.extensions iter s σ = Some (back, σ) ∧ p ∈ back.
Proof.
  intros Hiter Hch%wl_valid_chars HD Hin Hlow.
  exists (wl_successors iter p D). split; [by apply wl_extensions_run|].
  intros s (w' & -> & Hw' & Hone)%(elem_of_wl_successors iter Hiter p D _ Hch).
  exists (wl_successors iter (mk_succ p w') D).
  split; [by apply wl_extensions_run|].
  apply (elem_of_wl_successors iter Hiter); [done|].
  exists (WL._from_word p). split; [|split; [done|]].
  - unfold mk_succ. simpl. rewrite <-Hch. by destruct p.
  - simpl. by apply one_letter_changed_back.
Qed.

Lemma wl_step_reversible_witness :
  (∀ X : gset string, elements X ≡ₚ elements X) ∧
  wl_valid wl_loop_store wl_demo ∧
  set_at wl_loop_store (WL._word_set wl_demo) = Some {["same"; "came"; "some"]} ∧
  WL._from_word wl_demo ∈ ({["same"; "came"; "some"]} : gset string) ∧
  Forall lowercase (chars_of (WL._from_word wl_demo)) ∧
  ∃ succs,
    WL.extensions elements wl_demo wl_loop_store = Some (succs, wl_loop_store) ∧
    ∀ s, s ∈ succs →
      ∃ back, WL.extensions elements s wl_loop_store = Some (back, wl_loop_store) ∧
              wl_demo ∈ back.
Proof.
  assert (WL._from_word wl_demo ∈ ({["same"; "came"; "some"]} : gset string)) as Hin.
  { by apply (bool_decide_unpack _). }
  assert (Forall lowercase (chars_of (WL._from_word wl_demo))) as Hlow.
  { by apply (bool_decide_unpack _). }
  split; [done|]. split; [by vm_compute|]. split; [by vm_compute|].
  split; [done|]. split; [done|].
  apply (wl_step_reversible elements wl_loop_store wl_demo
           {["same"; "came"; "some"]});
    [done|by vm_compute|by vm_compute|done|done].
Defined.

(** X15.  A step changes the word: no successor is equal ([__eq__]) to
    the receiver, and when the receiver is solved none of its
    successors is. *)
Theorem wl_successor_differs iter σ p D :
  (∀ X, iter X ≡ₚ elements X) →
  wl_valid σ p → set_at σ (WL._word_set p) = Some D →
  ∃ succs,
    WL.extensions iter p σ = Some (succs, σ) ∧
    ∀ s, s ∈ succs →
      WL.eq p s σ = Some (false, σ) ∧
      (WL.is_solved p σ = Some (true, σ) →
       WL.is_solved s σ = Some (false, σ)).
Proof.
  intros Hiter Hch%wl_valid_chars HD.
  exists (wl_successors iter p D). split; [by apply wl_extensions_run|].
  intros s (w' & -> & Hw' & [Hne _]%one_letter_changed_differ)
    %(elem_of_wl_successors iter Hiter p D _ Hch).
  assert (String.eqb (WL._from_word p) w' = false) as Hneq.
  { apply String.eqb_neq. congruence. }
  split.
  - unfold WL.eq. simpl. by rewrite Hneq.
  - unfold WL.is_solved, ret. simpl. intros [= Hs%String.eqb_eq].
    do 2 f_equal. apply String.eqb_neq. congruence.
Qed.

Lemma wl_successor_differs_witness :
  (∀ X : gset string, elements X ≡ₚ elements X) ∧
  wl_valid wl_demo_store wl_demo ∧
  set_at wl_demo_store (WL._word_set wl_demo)
    = Some {["lame"; "came"; "some"; "word"; "lost"]} ∧
  ∃ succs,
    WL.extensions elements wl_demo wl_demo_store = Some (succs, wl_demo_store) ∧
    ∀ s, s ∈ succs →
      WL.eq wl_demo s wl_demo_store = Some (false, wl_demo_store) ∧
      (WL.is_solved wl_demo wl_demo_store = Some (true, wl_demo_store) →
       WL.is_solved s wl_demo_store = Some (false, wl_demo_store)).
Proof.
  split; [done|]. split; [by vm_compute|]. split; [by vm_compute|].
  apply (wl_successor_differs elements wl_demo_store wl_demo
           {["lame"; "came"; "some"; "word"; "lost"]});
    [done|by vm_compute|by vm_compute].
Defined.

(** ** Equality of puzzles *)

Lemma load_rows_eq g σ :
  load_rows g σ = match grid_at σ g with Some G => Some (G, σ) | None => None end.
Proof.
  destruct (grid_at σ g) as [G|] eqn:E.
  - destruct (runs_load_rows g σ G (λ G' σ', G' = G ∧ σ' = σ) E)
      as (? & ? & -> & -> & ->); done.
  - destruct (load_rows g σ) as [[G σ']|] eqn:E'; [|done].
    apply load_rows_inv in E' as [_ ?]. congruence.
Qed.

Lemma bind_load_rows {B} g (k : list (list string) → M B) σ :
  bind (load_rows g) k σ
  = match grid_at σ g with Some G => k G σ | None => None end.
Proof. unfold bind. rewrite load_rows_eq. by destruct (grid_at σ g). Qed.

Lemma peg_eq_sym p q σ : Peg.eq p q σ = Peg.eq q p σ.
Proof.
  unfold Peg.eq. rewrite !bind_load_rows.
  destruct (grid_at σ (Peg._marker p)) as [G1|] eqn:E1,
           (grid_at σ (Peg._marker q)) as [G2|] eqn:E2;
    rewrite ?bind_load_rows, ?E1, ?E2; try done.
  rewrite (bool_decide_ext (G2 = G1) (G1 = G2)) by done.
  destruct (bool_decide (G1 = G2)); simpl; [|done].
  unfold bind, load_set.
  destruct (σ !! Peg._marker_set p) as [[r1|X1]|] eqn:Ep,
           (σ !! Peg._marker_set q) as [[r2|X2]|] eqn:Eq;
    simpl; rewrite ?Ep, ?Eq; try done.
  unfold ret. by rewrite (bool_decide_ext (X2 = X1) (X1 = X2)).
Qed.

Lemma mn_eq_sym p q σ : MN.eq p q σ = MN.eq q p σ.
Proof.
  unfold MN.eq, ret.
  rewrite (bool_decide_ext (MN.from_grid q = _) (MN.from_grid p = MN.from_grid q)) by done.
  by rewrite (bool_decide_ext (MN.to_grid q = _) (MN.to_grid p = MN.to_grid q)).
Qed.

Lemma wl_eq_sym p q σ : WL.eq p q σ = WL.eq q p σ.
Proof.
  unfold WL.eq.
  rewrite (String.eqb_sym (WL._from_word q)), (String.eqb_sym (WL._to_word q)).
  destruct (_ && _); simpl; [|done].
  unfold bind, load_set.
  destruct (σ !! WL._word_set p) as [[r1|X1]|] eqn:Ep,
           (σ !! WL._word_set q) as [[r2|X2]|] eqn:Eq;
    simpl; rewrite ?Ep, ?Eq; try done.
  unfold ret. by rewrite (bool_decide_ext (X2 = X1) (X1 = X2)).
Qed.

(** X16.  [__eq__] is symmetric, for puzzles of the same class and of
    different classes: [a == b] and [b == a] give the same result in
    every store. *)
Theorem puzzle_eq_symmetric a b σ : Puzzle.eq a b σ = Puzzle.eq b a σ.
Proof.
  destruct a, b; simpl; try done;
    [apply peg_eq_sym|apply mn_eq_sym|apply wl_eq_sym].
Qed.

(** ** The printed form of a grid *)

Lemma string_app_assoc (a b c : string) : (a +:+ b) +:+ c = a +:+ (b +:+ c).
Proof.
  induction a as [|x a IH]; [done|].
  change (String x ((a +:+ b) +:+ c) = String x (a +:+ (b +:+ c))).
  by rewrite IH.
Qed.

Lemma string_app_nil_r (a : string) : a +:+ "" = a.
Proof.
  induction a as [|x a IH]; [done|].
  change (String x (a +:+ "") = String x a). by rewrite IH.
Qed.

Lemma str_slice_snoc s a : str_slice (s +:+ String a EmptyString) 0 (-1) = s.
Proof.
  unfold str_slice, slice, slice_start. rewrite list_ascii_of_string_app. simpl.
  unfold len. rewrite length_app. simpl.
  replace (Z.to_nat (Z.of_nat (length (list_ascii_of_string s) + 1) + -1))
    with (length (list_ascii_of_string s)) by lia.
  rewrite take_app_length. apply string_of_list_ascii_of_string.
Qed.

Lemma fold_left_app_sep sep (l : list string) acc :
  fold_left (λ s c, s +:+ (c +:+ sep)) l acc
  = acc +:+ cat ((λ c, c +:+ sep) <$> l).
Proof.
  revert acc. induction l as [|c l IH]; intros acc; simpl.
  - by rewrite string_app_nil_r.
  - by rewrite IH, string_app_assoc.
Qed.

Lemma cat_sep sep (l : list string) :
  l ≠ [] → cat ((λ c, c +:+ sep) <$> l) = String.concat sep l +:+ sep.
Proof.
  induction l as [|c l IH]; [done|]. intros _.
  destruct l as [|c' l].
  - simpl. by rewrite string_app_nil_r.
  - change (cat ((λ c, c +:+ sep) <$> c :: c' :: l))
      with ((c +:+ sep) +:+ cat ((λ c, c +:+ sep) <$> c' :: l)).
    rewrite IH by done.
    change (String.concat sep (c :: c' :: l))
      with (c +:+ sep +:+ String.concat sep (c' :: l)).
    by rewrite !string_app_assoc.
Qed.

Lemma render_row_cells acc row :
  row ≠ [] → render_row acc row = acc +:+ (String.concat " " row +:+ newline).
Proof.
  intros Hne. unfold render_row.
  rewrite fold_left_app_sep, cat_sep by done.
  rewrite <-string_app_assoc, str_slice_snoc. apply string_app_assoc.
Qed.

Lemma fold_left_render_row G acc :
  Forall (λ row, row ≠ []) G →
  fold_left render_row G acc
  = acc +:+ cat ((λ c, c +:+ newline) <$> (String.concat " " <$> G)).
Proof.
  intros H. revert acc. induction H as [|row G Hrow _ IH]; intros acc; simpl.
  - by rewrite string_app_nil_r.
  - by rewrite IH, render_row_cells, string_app_assoc.
Qed.

Lemma render_cells G : Forall (λ row, row ≠ []) G → render G = lines G.
Proof.
  intros H. unfold render, lines. rewrite fold_left_render_row by done. simpl.
  destruct G as [|row G]; [done|].
  rewrite cat_sep by done. apply str_slice_snoc.
Qed.

Lemma render_no_cells G : Forall (λ row, row = []) G → render G = "".
Proof.
  intros H. unfold render.
  assert (∀ acc, acc = "" ∨ acc = newline →
            fold_left render_row G acc = "" ∨ fold_left render_row G acc = newline)
    as Hacc.
  { induction H as [|row G -> _ IH]; intros acc Hacc; [done|]. simpl.
    apply IH. right. by destruct Hacc as [-> | ->]. }
  by destruct (Hacc "" ltac:(by left)) as [-> | ->].
Qed.

Lemma render_rect n G :
  rect n G → render G = if decide (n = 0%nat) then "" else lines G.
Proof.
  intros Hrect. case_decide as Hn.
  - apply render_no_cells. eapply Forall_impl; [done|]. simpl.
    intros row Hrow. apply length_zero_iff_nil. lia.
  - apply render_cells. eapply Forall_impl; [done|]. simpl.
    intros row Hrow ->. simpl in Hrow. lia.
Qed.

Lemma for_pure {A S} (xs : list A) (f : S → A → S) (s : S) σ :
  for_ xs (λ x s, ret (f s x)) s σ = Some (fold_left f xs s, σ).
Proof. revert s. induction xs as [|x xs IH]; intros s; [done|]. simpl. apply IH. Qed.

Lemma peg_str_run σ p G :
  grid_at σ (Peg._marker p) = Some G → Peg.str p σ = Some (render G, σ).
Proof.
  intros HG. unfold Peg.str, render.
  assert (∀ g G acc, grid_at σ g = Some G →
    for_ g (λ rows puzzle,
      cells ← load_list rows;
      puzzle ← for_ cells (λ row puzzle, ret (puzzle +:+ (row +:+ " "))) puzzle;
      puzzle ← ret (str_slice puzzle 0 (-1));
      ret (puzzle +:+ newline)) acc σ
    = Some (fold_left render_row G acc, σ)) as Hloop.
  { clear. intros g G acc H%grid_at_Some. revert acc.
    induction H as [|r row g G Hr _ IH]; intros acc; [done|]. simpl.
    apply row_at_Some in Hr. unfold bind at 1. unfold bind at 1.
    unfold load_list. rewrite Hr. unfold bind at 1.
    rewrite (for_pure row (λ s c, s +:+ (c +:+ " "))). apply IH. }
  unfold bind. by rewrite (Hloop _ _ _ HG).
Qed.

Lemma mn_str_run σ p : MN.str p σ = Some (render (MN.from_grid p), σ).
Proof.
  unfold MN.str, render.
  assert (∀ G acc,
    for_ G (λ rows puzzle,
      puzzle ← for_ rows (λ row puzzle, ret (puzzle +:+ (row +:+ " "))) puzzle;
      puzzle ← ret (str_slice puzzle 0 (-1));
      ret (puzzle +:+ newline)) acc σ
    = Some (fold_left render_row G acc, σ)) as Hloop.
  { clear. intros G. induction G as [|row G IH]; intros acc; [done|]. simpl.
    unfold bind at 1. unfold bind at 1.
    rewrite (for_pure row (λ s c, s +:+ (c +:+ " "))). apply IH. }
  unfold bind. by rewrite Hloop.
Qed.

(** X17.  [__str__] of a peg-solitaire configuration is its rows joined
    by newlines, the markers of a row joined by single spaces, with no
    space or newline at the end; a grid whose rows have no cells prints
    as the empty string.  The store is left as it is. *)
Theorem peg_str_lines σ p G :
  peg_valid σ p → grid_at σ (Peg._marker p) = Some G →
  Peg.str p σ = Some (if decide (ncols G = 0%nat) then "" else lines G, σ).
Proof.
  intros (G' & X & HG' & _ & _ & Hrect & _)%peg_valid_wf HG.
  assert (G' = G) as -> by congruence.
  rewrite (peg_str_run _ _ _ HG). by rewrite (render_rect _ _ Hrect).
Qed.

Lemma peg_str_lines_witness :
  peg_valid peg_demo_store peg_demo ∧
  ∃ G, grid_at peg_demo_store (Peg._marker peg_demo) = Some G ∧
       Peg.str peg_demo peg_demo_store
       = Some (if decide (ncols G = 0%nat) then "" else lines G, peg_demo_store).
Proof.
  split; [by vm_compute|]. eexists. split; [by vm_compute|].
  apply peg_str_lines; by vm_compute.
Defined.

(** X18.  [__str__] of a sliding-tile configuration is the rows of its
    current grid joined by newlines, the symbols of a row joined by
    single spaces; a grid whose rows have no cells prints as the empty
    string.  The goal grid is not printed. *)
Theorem mn_str_lines σ p :
  mn_valid σ p →
  MN.str p σ
  = Some (if decide (MN.m p = 0) then "" else lines (MN.from_grid p), σ).
Proof.
  intros ((_ & Hrect & _) & _ & Hm)%mn_valid_iff.
  rewrite mn_str_run, (render_rect _ _ Hrect), Hm.
  destruct (decide (ncols (MN.from_grid p) = 0%nat)) as [E|E].
  - by rewrite decide_True by lia.
  - by rewrite decide_False by lia.
Qed.

Lemma mn_str_lines_witness :
  mn_valid ∅ mn_demo ∧
  MN.str mn_demo ∅
  = Some (if decide (MN.m mn_demo = 0) then ""
          else lines (MN.from_grid mn_demo), ∅).
Proof. split; [by vm_compute|]. apply mn_str_lines. by vm_compute. Defined.
